(** * Elevator group control: a shallow embedding of the simulator core

    The development follows the C++ sources file by file:
    - [Types.hpp]      : the enums, [Config] and [Event];
    - [Domain.cpp]     : [Floor], [Elevator], [Building];
    - [EventQueue.hpp] : the FIFO with its shutdown flag;
    - [Scheduler.cpp]  : [MasterController] and [DistributedController];
    - [Simulation.cpp] : the ingress methods, the state-machine driver and
                         the loop body of [SimulationEngine].

    Conventions.
    - A C++ [int] is a [Z].  The width of [int] is visible in two places:
      [std::numeric_limits<int>::max()], written [INT_MAX] below, and the
      cost arithmetic of [Elevator::costToServe], whose result
      [selectElevator] compares with [INT_MAX]; there every operation is
      reduced to 32 bits with [wrapInt] (signed overflow is undefined
      behaviour; the model takes the two's-complement result).
    - [std::set<int>] is a strictly increasing [list Z] and
      [std::map<std::pair<int, Direction>, int>] a list of bindings kept in
      increasing key order, because the sources iterate over both and the
      iteration order decides ties.
    - A [std::vector] is a [list], read with [!!] and written with
      [<[ i := x ]>].
    - A call that may not return lives in [option]; [None] stands for a
      call that is left by [std::out_of_range] or that never returns
      because the thread waits for a mutex it holds itself.
    - Mutexes and condition variables are dropped where a method takes and
      releases its locks one after the other: such a method is one atomic
      step, which is what the locks guarantee.  The one nested acquisition,
      [MasterController::handleHallCall] calling [dispatchElevator] with
      [mutex_] held, is modelled. *)

From stdpp Require Import base tactics option list numbers.

Local Open Scope Z_scope.

(** ** Types.hpp *)

Module Direction.
Inductive t := Up | Down | Idle.

(** Position of the enumerator, which is how [std::pair]'s [operator<]
    compares two directions. *)
Definition rank (d : t) : Z :=
  match d with Up => 0 | Down => 1 | Idle => 2 end.
End Direction.

Module ElevatorState.
Inductive t := Idle | Moving | DoorsOpening | DoorsOpen | DoorsClosing.
End ElevatorState.

Module EventType.
Inductive t :=
  HallCall | CarCall | ElevatorArrived | DoorsOpened | DoorsClosed | Tick | Shutdown.
End EventType.

Module ControllerType.
Inductive t := Master | Distributed.
End ControllerType.

Global Instance Direction_eq_dec : EqDecision Direction.t.
Proof. solve_decision. Defined.
Global Instance ElevatorState_eq_dec : EqDecision ElevatorState.t.
Proof. solve_decision. Defined.
Global Instance EventType_eq_dec : EqDecision EventType.t.
Proof. solve_decision. Defined.
Global Instance ControllerType_eq_dec : EqDecision ControllerType.t.
Proof. solve_decision. Defined.

Record Config := mkConfig {
  numFloors : Z;
  numElevators : Z;
  carCapacity : Z;
  tickDurationMs : Z;
  doorOpenTicks : Z;
  floorTravelTicks : Z;
  controllerType : ControllerType.t
}.

(** The member initialisers of [struct Config]. *)
Definition defaultConfig : Config :=
  {| numFloors := 10; numElevators := 3; carCapacity := 6; tickDurationMs := 500;
     doorOpenTicks := 3; floorTravelTicks := 2;
     controllerType := ControllerType.Master |}.

(** [struct Event]; the wall-clock [timestamp] is never read by the core
    and is left out. *)
Record Event := mkEvent {
  ev_type : EventType.t;
  ev_floor : Z;
  ev_elevatorId : Z;
  ev_direction : Direction.t
}.

(** [Event event; event.type = ty;] - the other members keep their
    initialisers. *)
Definition newEvent (ty : EventType.t) : Event :=
  {| ev_type := ty; ev_floor := -1; ev_elevatorId := -1;
     ev_direction := Direction.Idle |}.

Definition INT_MAX : Z := 2147483647.
Definition INT_MIN : Z := -2147483648.

(** The value of a 32-bit [int] computation whose exact result is [z]. *)
Definition wrapInt (z : Z) : Z := (z - INT_MIN) mod 4294967296 + INT_MIN.

(** ** std::set<int> *)

Module IntSet.
Definition t := list Z.

Fixpoint insert (x : Z) (s : t) : t :=
  match s with
  | [] => [x]
  | y :: r =>
      if decide (x < y) then x :: y :: r
      else if decide (x = y) then y :: r
      else y :: insert x r
  end.

Fixpoint erase (x : Z) (s : t) : t :=
  match s with
  | [] => []
  | y :: r => if decide (x = y) then r else y :: erase x r
  end.

(** [s.count(x)]: the number of elements equal to [x]. *)
Fixpoint count (x : Z) (s : t) : Z :=
  match s with
  | [] => 0
  | y :: r => (if decide (x = y) then 1 else 0) + count x r
  end.

Definition empty (s : t) : bool :=
  match s with [] => true | _ => false end.

(** The class invariant of [std::set]: strictly increasing. *)
Fixpoint sorted (s : t) : Prop :=
  match s with
  | [] => True
  | y :: r => match r with [] => True | z :: _ => y < z end /\ sorted r
  end.

(** [s.lower_bound(x)] and [s.upper_bound(x)] as positions: the index of
    the first element that is not less than [x] (greater than [x] for
    [upper_bound]); the length of the list stands for [s.end()]. *)
Fixpoint lower_bound (x : Z) (s : t) : nat :=
  match s with
  | [] => 0%nat
  | y :: r => if decide (y < x) then S (lower_bound x r) else 0%nat
  end.

Fixpoint upper_bound (x : Z) (s : t) : nat :=
  match s with
  | [] => 0%nat
  | y :: r => if decide (y <= x) then S (upper_bound x r) else 0%nat
  end.
End IntSet.

(** [std::min_element(first, last, comp)]: the first element [m] such that
    no element is [comp]-smaller; [None] stands for [last] on an empty
    range. *)
Fixpoint min_element_from {A} (comp : A -> A -> bool) (smallest : A) (l : list A) : A :=
  match l with
  | [] => smallest
  | x :: r => min_element_from comp (if comp x smallest then x else smallest) r
  end.

Definition min_element {A} (comp : A -> A -> bool) (l : list A) : option A :=
  match l with
  | [] => None
  | x :: r => Some (min_element_from comp x r)
  end.

(** ** Domain.cpp: Floor *)

Module Floor.
Record t := mk {
  floorNumber_ : Z;
  upButtonPressed_ : bool;
  downButtonPressed_ : bool
}.

Definition new (number : Z) : t :=
  {| floorNumber_ := number; upButtonPressed_ := false; downButtonPressed_ := false |}.

Definition pressUpButton (f : t) : t :=
  {| floorNumber_ := floorNumber_ f; upButtonPressed_ := true;
     downButtonPressed_ := downButtonPressed_ f |}.
Definition pressDownButton (f : t) : t :=
  {| floorNumber_ := floorNumber_ f; upButtonPressed_ := upButtonPressed_ f;
     downButtonPressed_ := true |}.
Definition clearUpButton (f : t) : t :=
  {| floorNumber_ := floorNumber_ f; upButtonPressed_ := false;
     downButtonPressed_ := downButtonPressed_ f |}.
Definition clearDownButton (f : t) : t :=
  {| floorNumber_ := floorNumber_ f; upButtonPressed_ := upButtonPressed_ f;
     downButtonPressed_ := false |}.

Definition isUpPressed (f : t) : bool := upButtonPressed_ f.
Definition isDownPressed (f : t) : bool := downButtonPressed_ f.
Definition getNumber (f : t) : Z := floorNumber_ f.
End Floor.

(** ** Domain.cpp: Elevator *)

Module Elevator.
Record t := mk {
  id_ : Z;
  currentFloor_ : Z;
  direction_ : Direction.t;
  state_ : ElevatorState.t;
  carCalls_ : IntSet.t;
  passengerCount_ : Z;
  capacity_ : Z;
  ticksRemaining_ : Z
}.

Definition new (id capacity startFloor : Z) : t :=
  {| id_ := id; currentFloor_ := startFloor; direction_ := Direction.Idle;
     state_ := ElevatorState.Idle; carCalls_ := []; passengerCount_ := 0;
     capacity_ := capacity; ticksRemaining_ := 0 |}.

Definition getId := id_.
Definition getCurrentFloor := currentFloor_.
Definition getDirection := direction_.
Definition getState := state_.
Definition getPassengerCount := passengerCount_.
Definition getCapacity := capacity_.
Definition getCarCalls := carCalls_.
Definition getTicksRemaining := ticksRemaining_.

Definition addCarCall (floor : Z) (e : t) : t :=
  mk (id_ e) (currentFloor_ e) (direction_ e) (state_ e)
     (IntSet.insert floor (carCalls_ e))
     (passengerCount_ e) (capacity_ e) (ticksRemaining_ e).

Definition removeCarCall (floor : Z) (e : t) : t :=
  mk (id_ e) (currentFloor_ e) (direction_ e) (state_ e)
     (IntSet.erase floor (carCalls_ e))
     (passengerCount_ e) (capacity_ e) (ticksRemaining_ e).

Definition hasCarCallAt (floor : Z) (e : t) : bool :=
  bool_decide (IntSet.count floor (carCalls_ e) > 0).

Definition hasAnyCarCalls (e : t) : bool := negb (IntSet.empty (carCalls_ e)).

Definition startMoving (dir : Direction.t) (ticksToArrive : Z) (e : t) : t :=
  mk (id_ e) (currentFloor_ e) dir ElevatorState.Moving (carCalls_ e)
     (passengerCount_ e) (capacity_ e) ticksToArrive.

Definition decrementTick (e : t) : t :=
  if decide (ticksRemaining_ e > 0) then
    mk (id_ e) (currentFloor_ e) (direction_ e) (state_ e) (carCalls_ e)
       (passengerCount_ e) (capacity_ e) (ticksRemaining_ e - 1)
  else e.

Definition arriveAtFloor (floor : Z) (e : t) : t :=
  mk (id_ e) floor (direction_ e) ElevatorState.DoorsOpening (carCalls_ e)
     (passengerCount_ e) (capacity_ e) (ticksRemaining_ e).

Definition openDoors (ticksToOpen : Z) (e : t) : t :=
  mk (id_ e) (currentFloor_ e) (direction_ e) ElevatorState.DoorsOpening (carCalls_ e)
     (passengerCount_ e) (capacity_ e) ticksToOpen.

Definition setDoorsOpen (ticksOpen : Z) (e : t) : t :=
  mk (id_ e) (currentFloor_ e) (direction_ e) ElevatorState.DoorsOpen (carCalls_ e)
     (passengerCount_ e) (capacity_ e) ticksOpen.

Definition closeDoors (ticksToClose : Z) (e : t) : t :=
  mk (id_ e) (currentFloor_ e) (direction_ e) ElevatorState.DoorsClosing (carCalls_ e)
     (passengerCount_ e) (capacity_ e) ticksToClose.

Definition setIdle (e : t) : t :=
  mk (id_ e) (currentFloor_ e) Direction.Idle ElevatorState.Idle (carCalls_ e)
     (passengerCount_ e) (capacity_ e) 0.

Definition hasCallsAbove (e : t) : bool :=
  existsb (fun f => bool_decide (f > currentFloor_ e)) (carCalls_ e).

Definition hasCallsBelow (e : t) : bool :=
  existsb (fun f => bool_decide (f < currentFloor_ e)) (carCalls_ e).

Definition getNextCarCallInDirection (e : t) : option Z :=
  if IntSet.empty (carCalls_ e) then None
  else
    let closest :=
      min_element
        (fun a b => bool_decide (Z.abs (a - currentFloor_ e) < Z.abs (b - currentFloor_ e)))
        (carCalls_ e) in
    match direction_ e with
    | Direction.Up =>
        match carCalls_ e !! IntSet.upper_bound (currentFloor_ e) (carCalls_ e) with
        | Some f => Some f
        | None => closest
        end
    | Direction.Down =>
        let it := IntSet.lower_bound (currentFloor_ e) (carCalls_ e) in
        if decide (it <> 0%nat) then carCalls_ e !! pred it else closest
    | Direction.Idle => closest
    end.

Definition costToServe (floor : Z) (dir : Direction.t) (numFloors : Z) (e : t) : Z :=
  let distance := wrapInt (Z.abs (wrapInt (currentFloor_ e - floor))) in
  if decide (state_ e = ElevatorState.Idle) then distance
  else
    let sameDirection := bool_decide (direction_ e = dir) in
    let onTheWay :=
      (bool_decide (direction_ e = Direction.Up) && bool_decide (floor > currentFloor_ e))
      || (bool_decide (direction_ e = Direction.Down) && bool_decide (floor < currentFloor_ e)) in
    if sameDirection && onTheWay then distance
    else wrapInt (distance + wrapInt (2 * numFloors)).

Definition canBoard (e : t) : bool := bool_decide (passengerCount_ e < capacity_ e).

Definition boardPassenger (e : t) : t :=
  if decide (passengerCount_ e < capacity_ e) then
    mk (id_ e) (currentFloor_ e) (direction_ e) (state_ e) (carCalls_ e)
       (passengerCount_ e + 1) (capacity_ e) (ticksRemaining_ e)
  else e.

Definition alightPassenger (e : t) : t :=
  if decide (passengerCount_ e > 0) then
    mk (id_ e) (currentFloor_ e) (direction_ e) (state_ e) (carCalls_ e)
       (passengerCount_ e - 1) (capacity_ e) (ticksRemaining_ e)
  else e.
End Elevator.

(** ** std::map<std::pair<int, Direction>, int> *)

Definition HallCallKey : Type := Z * Direction.t.

Module HallMap.
Definition t := list (HallCallKey * Z).

(** [operator<] of [std::pair<int, Direction>]. *)
Definition key_lt (a b : HallCallKey) : bool :=
  bool_decide (a.1 < b.1)
  || (bool_decide (a.1 = b.1) && bool_decide (Direction.rank a.2 < Direction.rank b.2)).

(** [m.find(key)], with [None] for [m.end()]. *)
Fixpoint find (key : HallCallKey) (m : t) : option Z :=
  match m with
  | [] => None
  | (k, v) :: r => if decide (key = k) then Some v else find key r
  end.

(** [m[key] = v]. *)
Fixpoint assign (key : HallCallKey) (v : Z) (m : t) : t :=
  match m with
  | [] => [(key, v)]
  | (k, w) :: r =>
      if key_lt key k then (key, v) :: (k, w) :: r
      else if decide (key = k) then (k, v) :: r
      else (k, w) :: assign key v r
  end.

Fixpoint erase (key : HallCallKey) (m : t) : t :=
  match m with
  | [] => []
  | (k, w) :: r => if decide (key = k) then r else (k, w) :: erase key r
  end.

(** The class invariant of [std::map]: keys strictly increasing. *)
Fixpoint sorted (m : t) : Prop :=
  match m with
  | [] => True
  | (k, _) :: r =>
      match r with [] => True | (k', _) :: _ => key_lt k k' = true end /\ sorted r
  end.
End HallMap.

(** ** Domain.cpp: Building *)

Module Building.
Record t := mk {
  floors_ : list Floor.t;
  elevators_ : list Elevator.t;
  config_ : Config
}.

(** The constructor.  [reserve] with a negative count (converted to a huge
    [size_t]) throws [std::length_error]. *)
Definition new (config : Config) : option t :=
  if decide (numFloors config < 0 \/ numElevators config < 0) then None
  else Some
    {| floors_ := Floor.new <$> seqZ 1 (numFloors config);
       elevators_ := (fun i => Elevator.new i (carCapacity config) 1) <$> seqZ 0 (numElevators config);
       config_ := config |}.

Definition getNumFloors (b : t) : Z := numFloors (config_ b).
Definition getNumElevators (b : t) : Z := numElevators (config_ b).
Definition getConfig (b : t) : Config := config_ b.

Definition isValidFloor (b : t) (floor : Z) : bool :=
  bool_decide (floor >= 1) && bool_decide (floor <= numFloors (config_ b)).

Definition isValidElevator (b : t) (id : Z) : bool :=
  bool_decide (id >= 0) && bool_decide (id < numElevators (config_ b)).

Definition getElevator (b : t) (id : Z) : option Elevator.t :=
  if isValidElevator b id then elevators_ b !! Z.to_nat id else None.

Definition getFloor (b : t) (number : Z) : option Floor.t :=
  if isValidFloor b number then floors_ b !! Z.to_nat (number - 1) else None.

(** Writing through the reference returned by [getElevator]. *)
Definition setElevator (b : t) (id : Z) (e : Elevator.t) : t :=
  {| floors_ := floors_ b; elevators_ := <[Z.to_nat id := e]> (elevators_ b);
     config_ := config_ b |}.

(** Writing through [Floor& f = floors_[floor - 1]]. *)
Definition updateFloor (b : t) (floor : Z) (g : Floor.t -> Floor.t) : t :=
  {| floors_ := alter g (Z.to_nat (floor - 1)) (floors_ b);
     elevators_ := elevators_ b; config_ := config_ b |}.

Definition registerHallCall (floor : Z) (dir : Direction.t) (b : t) : t :=
  if negb (isValidFloor b floor) then b
  else match dir with
       | Direction.Up => updateFloor b floor Floor.pressUpButton
       | Direction.Down => updateFloor b floor Floor.pressDownButton
       | Direction.Idle => b
       end.

Definition clearHallCall (floor : Z) (dir : Direction.t) (b : t) : t :=
  if negb (isValidFloor b floor) then b
  else match dir with
       | Direction.Up => updateFloor b floor Floor.clearUpButton
       | Direction.Down => updateFloor b floor Floor.clearDownButton
       | Direction.Idle => b
       end.

Definition hasHallCall (floor : Z) (dir : Direction.t) (b : t) : bool :=
  if negb (isValidFloor b floor) then false
  else match floors_ b !! Z.to_nat (floor - 1) with
       | None => false
       | Some f =>
           match dir with
           | Direction.Up => Floor.isUpPressed f
           | Direction.Down => Floor.isDownPressed f
           | Direction.Idle => false
           end
       end.

Definition getAllHallCalls (b : t) : list (Z * Direction.t) :=
  concat ((fun floor =>
             (if Floor.isUpPressed floor then [(Floor.getNumber floor, Direction.Up)] else [])
             ++ (if Floor.isDownPressed floor then [(Floor.getNumber floor, Direction.Down)] else []))
          <$> floors_ b).

(** What the constructor establishes and every method keeps: the two
    vectors have the sizes recorded in [config_]. *)
Definition wf (b : t) : Prop :=
  length (floors_ b) = Z.to_nat (numFloors (config_ b))
  /\ length (elevators_ b) = Z.to_nat (numElevators (config_ b)).
End Building.

(** ** EventQueue.hpp *)

Module EventQueue.
Section Queue.
Context {T : Type}.

Record t := mk {
  queue_ : list T;      (* front of the queue first *)
  shutdown_ : bool
}.

Definition new : t := {| queue_ := []; shutdown_ := false |}.

Definition push (event : T) (q : t) : t :=
  {| queue_ := queue_ q ++ [event]; shutdown_ := shutdown_ q |}.

Definition empty (q : t) : bool :=
  match queue_ q with [] => true | _ => false end.

(** The outcome of the blocking [pop]: the caller stays suspended as long
    as the wait predicate [!queue_.empty() || shutdown_] is false. *)
Inductive popResult :=
  | Blocked
  | Returned (r : option T) (q' : t).

Definition pop (q : t) : popResult :=
  if negb (negb (empty q) || shutdown_ q) then Blocked
  else if shutdown_ q && empty q then Returned None q
  else match queue_ q with
       | event :: r => Returned (Some event) {| queue_ := r; shutdown_ := shutdown_ q |}
       | [] => Returned None q     (* not reached: the queue is not empty here *)
       end.

Definition tryPop (q : t) : option T * t :=
  match queue_ q with
  | [] => (None, q)
  | event :: r => (Some event, {| queue_ := r; shutdown_ := shutdown_ q |})
  end.

Definition shutdown (q : t) : t := {| queue_ := queue_ q; shutdown_ := true |}.

Definition reset (q : t) : t := {| queue_ := []; shutdown_ := false |}.

Definition size (q : t) : nat := length (queue_ q).
Definition isShutdown (q : t) : bool := shutdown_ q.
End Queue.
Global Arguments t : clear implicits.
Global Arguments popResult : clear implicits.
End EventQueue.

(** ** Scheduler.hpp: the interface

    A scheduler holds a reference to the building; here every callback
    takes the building with the scheduler's own state and returns both. *)

Class IScheduler (S : Type) := {
  handleHallCall : Z -> Direction.t -> Building.t * S -> option (Building.t * S);
  handleCarCall : Z -> Z -> Building.t * S -> option (Building.t * S);
  onElevatorArrived : Z -> Z -> Building.t * S -> option (Building.t * S);
  onDoorsOpened : Z -> Z -> Building.t * S -> option (Building.t * S);
  onDoorsClosed : Z -> Building.t * S -> option (Building.t * S);
  tick : Building.t * S -> option (Building.t * S)
}.

(** The comparator both controllers hand to [std::min_element]. *)
Definition closer_to (current a b : Z) : bool :=
  bool_decide (Z.abs (a - current) < Z.abs (b - current)).

(** The tail shared by [MasterController::dispatchElevator] and
    [DistributedController::decideNextAction] once the destination set is
    known. *)
Definition goToClosest (elevatorId : Z) (elev : Elevator.t) (destinations : IntSet.t)
    (b : Building.t) : Building.t :=
  if IntSet.empty destinations then b
  else
    let current := Elevator.getCurrentFloor elev in
    match min_element (closer_to current) destinations with
    | None => b
    | Some target =>
        let dir := if decide (target > current) then Direction.Up else Direction.Down in
        if decide (target = current) then
          Building.setElevator b elevatorId
            (Elevator.openDoors (doorOpenTicks (Building.getConfig b)) elev)
        else
          Building.setElevator b elevatorId
            (Elevator.startMoving dir (floorTravelTicks (Building.getConfig b)) elev)
    end.

(** ** Scheduler.cpp: MasterController *)

Module MasterController.
Record t := mk { assignments_ : HallMap.t }.

Definition new : t := {| assignments_ := [] |}.

Definition calculateCost (b : Building.t) (elev : Elevator.t) (floor : Z) (dir : Direction.t) : Z :=
  Elevator.costToServe floor dir (Building.getNumFloors b) elev.

(** The [for] loop of [selectElevator], with [n] iterations to go from
    index [i]. *)
Fixpoint selectElevator_loop (b : Building.t) (floor : Z) (dir : Direction.t)
    (n : nat) (i : Z) (bestElevator bestCost : Z) : option Z :=
  match n with
  | O => Some bestElevator
  | S n' =>
      elev ← Building.getElevator b i;
      let cost := calculateCost b elev floor dir in
      if decide (cost < bestCost)
      then selectElevator_loop b floor dir n' (i + 1) i cost
      else selectElevator_loop b floor dir n' (i + 1) bestElevator bestCost
  end.

Definition selectElevator (b : Building.t) (floor : Z) (dir : Direction.t) : option Z :=
  selectElevator_loop b floor dir (Z.to_nat (Building.getNumElevators b)) 0 (-1) INT_MAX.

Definition getAssignment (m : t) (floor : Z) (dir : Direction.t) : option Z :=
  HallMap.find (floor, dir) (assignments_ m).

Definition clearAssignment (floor : Z) (dir : Direction.t) (m : t) : t :=
  {| assignments_ := HallMap.erase (floor, dir) (assignments_ m) |}.

(** Car calls plus the floors of the hall calls assigned to the car. *)
Definition destinationsOf (m : t) (elevatorId : Z) (elev : Elevator.t) : IntSet.t :=
  foldl (fun destinations (entry : HallCallKey * Z) =>
           if decide (entry.2 = elevatorId) then IntSet.insert entry.1.1 destinations
           else destinations)
        (Elevator.getCarCalls elev) (assignments_ m).

(** [dispatchElevator] when the calling thread does not hold [mutex_]
    ([handleCarCall], [onDoorsClosed], [tick]): the destination scan takes
    the lock and gives it back. *)
Definition dispatchElevator (m : t) (elevatorId : Z) (b : Building.t) : option Building.t :=
  elev ← Building.getElevator b elevatorId;
  if decide (Elevator.getState elev <> ElevatorState.Idle) then Some b
  else Some (goToClosest elevatorId elev (destinationsOf m elevatorId elev) b).

(** [dispatchElevator] when the calling thread holds [mutex_], which is
    how [handleHallCall] calls it.  A car that is busy is left before the
    destination scan.  For an idle car the scan starts with
    [std::lock_guard<std::mutex> lock(mutex_)]: [mutex_] is a plain
    [std::mutex], the thread waits for the lock it holds itself, and the
    call never returns. *)
Definition dispatchElevator_locked (elevatorId : Z) (b : Building.t) : option Building.t :=
  elev ← Building.getElevator b elevatorId;
  if decide (Elevator.getState elev <> ElevatorState.Idle) then Some b
  else None.

(** [handleHallCall] down to the statement [assignments_[key] = elevatorId]:
    the building and the table as they are when [dispatchElevator] is
    about to be called, and the car to dispatch, if there is one. *)
Definition assignHallCall (floor : Z) (dir : Direction.t) (s : Building.t * t)
    : option (Building.t * t * option Z) :=
  let '(b, m) := s in
  let key := (floor, dir) in
  if decide (HallMap.find key (assignments_ m) <> None) then Some (b, m, None)
  else
    let b := Building.registerHallCall floor dir b in
    elevatorId ← selectElevator b floor dir;
    if decide (elevatorId >= 0) then
      let m := {| assignments_ := HallMap.assign key elevatorId (assignments_ m) |} in
      Some (b, m, Some elevatorId)
    else Some (b, m, None).

(** [handleHallCall] holds [mutex_] from its first statement to its last. *)
Definition handleHallCall (floor : Z) (dir : Direction.t) (s : Building.t * t)
    : option (Building.t * t) :=
  let '(b, m) := s in
  let key := (floor, dir) in
  if decide (HallMap.find key (assignments_ m) <> None) then Some (b, m)
  else
    let b := Building.registerHallCall floor dir b in
    elevatorId ← selectElevator b floor dir;
    if decide (elevatorId >= 0) then
      let m := {| assignments_ := HallMap.assign key elevatorId (assignments_ m) |} in
      b ← dispatchElevator_locked elevatorId b;
      Some (b, m)
    else Some (b, m).

Definition handleCarCall (elevatorId floor : Z) (s : Building.t * t)
    : option (Building.t * t) :=
  let '(b, m) := s in
  if negb (Building.isValidElevator b elevatorId) || negb (Building.isValidFloor b floor)
  then Some (b, m)
  else
    elev ← Building.getElevator b elevatorId;
    let b := Building.setElevator b elevatorId (Elevator.addCarCall floor elev) in
    b ← dispatchElevator m elevatorId b;
    Some (b, m).

Definition onElevatorArrived (elevatorId floor : Z) (s : Building.t * t)
    : option (Building.t * t) :=
  let '(b, m) := s in
  elev ← Building.getElevator b elevatorId;
  let dir := Elevator.getDirection elev in
  let '(b, m) :=
    if decide (getAssignment m floor dir = Some elevatorId)
    then (Building.clearHallCall floor dir b, clearAssignment floor dir m)
    else (b, m) in
  Some (Building.setElevator b elevatorId (Elevator.removeCarCall floor elev), m).

Definition onDoorsOpened (elevatorId floor : Z) (s : Building.t * t)
    : option (Building.t * t) := Some s.

Definition onDoorsClosed (elevatorId : Z) (s : Building.t * t)
    : option (Building.t * t) :=
  let '(b, m) := s in
  b ← dispatchElevator m elevatorId b;
  Some (b, m).

Fixpoint tick_loop (m : t) (n : nat) (i : Z) (b : Building.t) : option Building.t :=
  match n with
  | O => Some b
  | S n' =>
      elev ← Building.getElevator b i;
      b ← (if decide (Elevator.getState elev = ElevatorState.Idle)
           then dispatchElevator m i b else Some b);
      tick_loop m n' (i + 1) b
  end.

Definition tick (s : Building.t * t) : option (Building.t * t) :=
  let '(b, m) := s in
  b ← tick_loop m (Z.to_nat (Building.getNumElevators b)) 0 b;
  Some (b, m).

Definition shouldStopAtFloor (m : t) (b : Building.t) (elevatorId floor : Z) : option bool :=
  elev ← Building.getElevator b elevatorId;
  if Elevator.hasCarCallAt floor elev then Some true
  else Some (bool_decide (getAssignment m floor (Elevator.getDirection elev) = Some elevatorId)).
End MasterController.

Global Instance MasterController_IScheduler : IScheduler MasterController.t := {|
  handleHallCall := MasterController.handleHallCall;
  handleCarCall := MasterController.handleCarCall;
  onElevatorArrived := MasterController.onElevatorArrived;
  onDoorsOpened := MasterController.onDoorsOpened;
  onDoorsClosed := MasterController.onDoorsClosed;
  tick := MasterController.tick
|}.

(** ** Scheduler.cpp: DistributedController *)

Module DistributedController.
(** The claim board; the value [-1] marks an unclaimed call. *)
Record t := mk { claimBoard_ : HallMap.t }.

Definition new : t := {| claimBoard_ := [] |}.

Definition handleHallCall (floor : Z) (dir : Direction.t) (s : Building.t * t)
    : option (Building.t * t) :=
  let '(b, d) := s in
  let b := Building.registerHallCall floor dir b in
  let key := (floor, dir) in
  if decide (HallMap.find key (claimBoard_ d) = None)
  then Some (b, {| claimBoard_ := HallMap.assign key (-1) (claimBoard_ d) |})
  else Some (b, d).

(** One iteration of the scan of [tryClaimCalls]; the accumulator is
    [(bestFloor, bestDir, bestDistance)]. *)
Definition scanClaim (current : Z) (best : Z * Direction.t * Z) (entry : HallCallKey * Z)
    : Z * Direction.t * Z :=
  if decide (entry.2 = -1) then
    let distance := Z.abs (entry.1.1 - current) in
    if decide (distance < best.2) then (entry.1.1, entry.1.2, distance) else best
  else best.

Definition tryClaimCalls (elevatorId : Z) (b : Building.t) (d : t) : option t :=
  elev ← Building.getElevator b elevatorId;
  if bool_decide (Elevator.getState elev <> ElevatorState.Idle) && Elevator.hasAnyCarCalls elev
  then Some d
  else
    let current := Elevator.getCurrentFloor elev in
    let '(bestFloor, bestDir, _) :=
      foldl (scanClaim current) (-1, Direction.Idle, INT_MAX) (claimBoard_ d) in
    if decide (bestFloor >= 0)
    then Some {| claimBoard_ := HallMap.assign (bestFloor, bestDir) elevatorId (claimBoard_ d) |}
    else Some d.

Definition tryClaim (elevatorId floor : Z) (dir : Direction.t) (d : t) : bool * t :=
  if decide (HallMap.find (floor, dir) (claimBoard_ d) = Some (-1))
  then (true, {| claimBoard_ := HallMap.assign (floor, dir) elevatorId (claimBoard_ d) |})
  else (false, d).

Definition releaseClaim (floor : Z) (dir : Direction.t) (d : t) : t :=
  {| claimBoard_ := HallMap.erase (floor, dir) (claimBoard_ d) |}.

Definition hasClaim (d : t) (elevatorId floor : Z) (dir : Direction.t) : bool :=
  bool_decide (HallMap.find (floor, dir) (claimBoard_ d) = Some elevatorId).

Definition getClaimsFor (d : t) (elevatorId : Z) : list HallCallKey :=
  fst <$> filter (fun entry : HallCallKey * Z => entry.2 = elevatorId) (claimBoard_ d).

Definition decideNextAction (d : t) (elevatorId : Z) (b : Building.t) : option Building.t :=
  elev ← Building.getElevator b elevatorId;
  if decide (Elevator.getState elev <> ElevatorState.Idle) then Some b
  else
    let destinations :=
      foldl (fun destinations (claim : HallCallKey) => IntSet.insert claim.1 destinations)
            (Elevator.getCarCalls elev) (getClaimsFor d elevatorId) in
    Some (goToClosest elevatorId elev destinations b).

Definition handleCarCall (elevatorId floor : Z) (s : Building.t * t)
    : option (Building.t * t) :=
  let '(b, d) := s in
  if negb (Building.isValidElevator b elevatorId) || negb (Building.isValidFloor b floor)
  then Some (b, d)
  else
    elev ← Building.getElevator b elevatorId;
    let b := Building.setElevator b elevatorId (Elevator.addCarCall floor elev) in
    b ← decideNextAction d elevatorId b;
    Some (b, d).

Definition onElevatorArrived (elevatorId floor : Z) (s : Building.t * t)
    : option (Building.t * t) :=
  let '(b, d) := s in
  elev ← Building.getElevator b elevatorId;
  let dir := Elevator.getDirection elev in
  let '(b, d) :=
    if hasClaim d elevatorId floor dir
    then (Building.clearHallCall floor dir b, releaseClaim floor dir d)
    else (b, d) in
  Some (Building.setElevator b elevatorId (Elevator.removeCarCall floor elev), d).

Definition onDoorsOpened (elevatorId floor : Z) (s : Building.t * t)
    : option (Building.t * t) := Some s.

Definition onDoorsClosed (elevatorId : Z) (s : Building.t * t)
    : option (Building.t * t) :=
  let '(b, d) := s in
  b ← decideNextAction d elevatorId b;
  Some (b, d).

Fixpoint tick_loop (n : nat) (i : Z) (s : Building.t * t) : option (Building.t * t) :=
  match n with
  | O => Some s
  | S n' =>
      let '(b, d) := s in
      d ← tryClaimCalls i b d;
      elev ← Building.getElevator b i;
      b ← (if decide (Elevator.getState elev = ElevatorState.Idle)
           then decideNextAction d i b else Some b);
      tick_loop n' (i + 1) (b, d)
  end.

Definition tick (s : Building.t * t) : option (Building.t * t) :=
  tick_loop (Z.to_nat (Building.getNumElevators s.1)) 0 s.
End DistributedController.

Global Instance DistributedController_IScheduler : IScheduler DistributedController.t := {|
  handleHallCall := DistributedController.handleHallCall;
  handleCarCall := DistributedController.handleCarCall;
  onElevatorArrived := DistributedController.onElevatorArrived;
  onDoorsOpened := DistributedController.onDoorsOpened;
  onDoorsClosed := DistributedController.onDoorsClosed;
  tick := DistributedController.tick
|}.

(** ** Simulation.cpp: Logger

    The formatted text is abstracted to the message and its arguments; the
    tick prefix added by [getTimestamp] is left out. *)

Inductive LogLine :=
  | LogInitialized (floors elevators : Z)
  | LogController (kind : ControllerType.t)
  | LogInvalidFloor (floor : Z)
  | LogInvalidElevator (elevatorId : Z)
  | LogHallDirection
  | LogDownFromFirst
  | LogUpFromTop
  | LogHallCall (floor : Z) (dir : Direction.t)
  | LogCarCall (elevatorId floor : Z)
  | LogEvent (event : Event)
  | LogElevatorState (elev : Elevator.t).

Module Logger.
Record t := mk { out_ : list LogLine; enabled_ : bool }.

Definition new : t := {| out_ := []; enabled_ := true |}.

Definition log (line : LogLine) (l : t) : t :=
  if negb (enabled_ l) then l
  else {| out_ := out_ l ++ [line]; enabled_ := enabled_ l |}.
End Logger.

(** ** The scheduler held by the engine

    [std::unique_ptr<IScheduler>]: one of the two controllers, chosen by
    [createScheduler]; a callback is a virtual call. *)

Inductive Scheduler :=
  | MasterSched (m : MasterController.t)
  | DistributedSched (d : DistributedController.t).

Definition createScheduler (type : ControllerType.t) : Scheduler :=
  match type with
  | ControllerType.Master => MasterSched MasterController.new
  | ControllerType.Distributed => DistributedSched DistributedController.new
  end.

Definition virtualCall
    (viaMaster : Building.t * MasterController.t -> option (Building.t * MasterController.t))
    (viaDistributed : Building.t * DistributedController.t
                      -> option (Building.t * DistributedController.t))
    (s : Building.t * Scheduler) : option (Building.t * Scheduler) :=
  match s.2 with
  | MasterSched m => prod_map id MasterSched <$> viaMaster (s.1, m)
  | DistributedSched d => prod_map id DistributedSched <$> viaDistributed (s.1, d)
  end.

Global Instance Scheduler_IScheduler : IScheduler Scheduler := {|
  handleHallCall floor dir := virtualCall (handleHallCall floor dir) (handleHallCall floor dir);
  handleCarCall elevatorId floor :=
    virtualCall (handleCarCall elevatorId floor) (handleCarCall elevatorId floor);
  onElevatorArrived elevatorId floor :=
    virtualCall (onElevatorArrived elevatorId floor) (onElevatorArrived elevatorId floor);
  onDoorsOpened elevatorId floor :=
    virtualCall (onDoorsOpened elevatorId floor) (onDoorsOpened elevatorId floor);
  onDoorsClosed elevatorId := virtualCall (onDoorsClosed elevatorId) (onDoorsClosed elevatorId);
  tick := virtualCall tick tick
|}.

(** ** Simulation.cpp: SimulationEngine *)

Module SimulationEngine.
Record t := mk {
  building_ : Building.t;
  scheduler_ : Scheduler;
  eventQueue_ : EventQueue.t Event;
  logger_ : Logger.t;
  config_ : Config;
  running_ : bool;
  currentTick_ : Z
}.

Definition withBuilding (b : Building.t) (s : t) : t :=
  mk b (scheduler_ s) (eventQueue_ s) (logger_ s) (config_ s) (running_ s) (currentTick_ s).
Definition withFleet (bs : Building.t * Scheduler) (s : t) : t :=
  mk bs.1 bs.2 (eventQueue_ s) (logger_ s) (config_ s) (running_ s) (currentTick_ s).
Definition withQueue (q : EventQueue.t Event) (s : t) : t :=
  mk (building_ s) (scheduler_ s) q (logger_ s) (config_ s) (running_ s) (currentTick_ s).
Definition withRunning (r : bool) (s : t) : t :=
  mk (building_ s) (scheduler_ s) (eventQueue_ s) (logger_ s) (config_ s) r (currentTick_ s).
Definition withTick (n : Z) (s : t) : t :=
  mk (building_ s) (scheduler_ s) (eventQueue_ s) (logger_ s) (config_ s) (running_ s) n.
Definition log (line : LogLine) (s : t) : t :=
  mk (building_ s) (scheduler_ s) (eventQueue_ s) (Logger.log line (logger_ s))
     (config_ s) (running_ s) (currentTick_ s).
Definition pushEvent (event : Event) (s : t) : t :=
  withQueue (EventQueue.push event (eventQueue_ s)) s.

(** The constructor. *)
Definition new (config : Config) : option t :=
  b ← Building.new config;
  Some (log (LogController (controllerType config))
         (log (LogInitialized (numFloors config) (numElevators config))
            {| building_ := b; scheduler_ := createScheduler (controllerType config);
               eventQueue_ := EventQueue.new; logger_ := Logger.new; config_ := config;
               running_ := false; currentTick_ := 0 |})).

Definition hallCallEvent (floor : Z) (dir : Direction.t) : Event :=
  {| ev_type := EventType.HallCall; ev_floor := floor; ev_elevatorId := -1;
     ev_direction := dir |}.

Definition carCallEvent (elevatorId floor : Z) : Event :=
  {| ev_type := EventType.CarCall; ev_floor := floor; ev_elevatorId := elevatorId;
     ev_direction := Direction.Idle |}.

Definition requestHallCall (floor : Z) (dir : Direction.t) (s : t) : t :=
  if negb (Building.isValidFloor (building_ s) floor) then log (LogInvalidFloor floor) s
  else if decide (dir = Direction.Idle) then log LogHallDirection s
  else if decide (floor = 1 /\ dir = Direction.Down) then log LogDownFromFirst s
  else if decide (floor = Building.getNumFloors (building_ s) /\ dir = Direction.Up)
  then log LogUpFromTop s
  else pushEvent (hallCallEvent floor dir) (log (LogHallCall floor dir) s).

Definition requestCarCall (elevatorId floor : Z) (s : t) : t :=
  if negb (Building.isValidElevator (building_ s) elevatorId)
  then log (LogInvalidElevator elevatorId) s
  else if negb (Building.isValidFloor (building_ s) floor) then log (LogInvalidFloor floor) s
  else pushEvent (carCallEvent elevatorId floor) (log (LogCarCall elevatorId floor) s).

Definition processEvent (event : Event) (s : t) : option t :=
  let s := log (LogEvent event) s in
  let fleet := (building_ s, scheduler_ s) in
  match ev_type event with
  | EventType.HallCall =>
      fleet ← handleHallCall (ev_floor event) (ev_direction event) fleet;
      Some (withFleet fleet s)
  | EventType.CarCall =>
      fleet ← handleCarCall (ev_elevatorId event) (ev_floor event) fleet;
      Some (withFleet fleet s)
  | EventType.ElevatorArrived =>
      fleet ← onElevatorArrived (ev_elevatorId event) (ev_floor event) fleet;
      Some (withFleet fleet s)
  | EventType.DoorsOpened =>
      fleet ← onDoorsOpened (ev_elevatorId event) (ev_floor event) fleet;
      Some (withFleet fleet s)
  | EventType.DoorsClosed =>
      fleet ← onDoorsClosed (ev_elevatorId event) fleet;
      Some (withFleet fleet s)
  | EventType.Shutdown => Some (withRunning false s)
  | EventType.Tick => Some s
  end.

(** The body of the [for] loop of [updateElevators] for car [i]. *)
Definition updateElevator (i : Z) (s : t) : option t :=
  elev ← Building.getElevator (building_ s) i;
  let state := Elevator.getState elev in
  if decide (state = ElevatorState.Moving) then
    let elev := Elevator.decrementTick elev in
    if decide (Elevator.getTicksRemaining elev = 0) then
      let current := Elevator.getCurrentFloor elev in
      let next := if decide (Elevator.getDirection elev = Direction.Up)
                  then current + 1 else current - 1 in
      let elev := Elevator.arriveAtFloor next elev in
      let event := {| ev_type := EventType.ElevatorArrived; ev_floor := next;
                      ev_elevatorId := i; ev_direction := Direction.Idle |} in
      Some (log (LogElevatorState elev)
              (pushEvent event (withBuilding (Building.setElevator (building_ s) i elev) s)))
    else Some (withBuilding (Building.setElevator (building_ s) i elev) s)
  else if decide (state = ElevatorState.DoorsOpening) then
    let elev := Elevator.decrementTick elev in
    if decide (Elevator.getTicksRemaining elev = 0) then
      let elev := Elevator.setDoorsOpen (doorOpenTicks (config_ s)) elev in
      let event := {| ev_type := EventType.DoorsOpened;
                      ev_floor := Elevator.getCurrentFloor elev;
                      ev_elevatorId := i; ev_direction := Direction.Idle |} in
      Some (pushEvent event (withBuilding (Building.setElevator (building_ s) i elev) s))
    else Some (withBuilding (Building.setElevator (building_ s) i elev) s)
  else if decide (state = ElevatorState.DoorsOpen) then
    let elev := Elevator.decrementTick elev in
    if decide (Elevator.getTicksRemaining elev = 0) then
      Some (withBuilding (Building.setElevator (building_ s) i (Elevator.closeDoors 1 elev)) s)
    else Some (withBuilding (Building.setElevator (building_ s) i elev) s)
  else if decide (state = ElevatorState.DoorsClosing) then
    let elev := Elevator.decrementTick elev in
    if decide (Elevator.getTicksRemaining elev = 0) then
      if Elevator.hasAnyCarCalls elev
         || negb (bool_decide (Building.getAllHallCalls (building_ s) = []))
      then
        let event := {| ev_type := EventType.DoorsClosed; ev_floor := -1;
                        ev_elevatorId := i; ev_direction := Direction.Idle |} in
        Some (pushEvent event (withBuilding (Building.setElevator (building_ s) i elev) s))
      else
        Some (withBuilding (Building.setElevator (building_ s) i (Elevator.setIdle elev)) s)
    else Some (withBuilding (Building.setElevator (building_ s) i elev) s)
  else Some s.

Fixpoint updateElevators_loop (n : nat) (i : Z) (s : t) : option t :=
  match n with
  | O => Some s
  | S n' => s ← updateElevator i s; updateElevators_loop n' (i + 1) s
  end.

Definition updateElevators (s : t) : option t :=
  updateElevators_loop (Z.to_nat (Building.getNumElevators (building_ s))) 0 s.

Definition processTick (s : t) : option t :=
  s ← updateElevators s;
  fleet ← tick (building_ s, scheduler_ s);
  Some (withFleet fleet s).

(** The [while] loop that pops with [tryPop] and hands each event to
    [processEvent] until the queue is empty.
    No handler pushes, so the loop body runs once per queued event; [fuel]
    bounds the number of iterations and [None] is also the answer when it
    runs out. *)
Fixpoint drainEvents (fuel : nat) (s : t) : option t :=
  match EventQueue.tryPop (eventQueue_ s) with
  | (None, _) => Some s
  | (Some event, q) =>
      match fuel with
      | O => None
      | S fuel' => s ← processEvent event (withQueue q s); drainEvents fuel' s
      end
  end.

(** One iteration of [runSimulationLoop], after the sleep. *)
Definition loopIteration (s : t) : option t :=
  s ← processTick s;
  let s := withTick (currentTick_ s + 1) s in
  drainEvents (EventQueue.size (eventQueue_ s)) s.
End SimulationEngine.

(** ** Runs of the engine

    The producer threads and the engine thread interleave at the
    granularity of the queue lock: a request, the per-tick work, and the
    delivery of one queued event are each one step.  (A request that
    arrives during the per-tick work only changes where its event lands
    in the queue, which no statement below depends on.) *)

Inductive Step :=
  | StepRequestHallCall (floor : Z) (dir : Direction.t)
  | StepRequestCarCall (elevatorId floor : Z)
  | StepProcessTick
  | StepProcessEvent.

Definition step (st : Step) (s : SimulationEngine.t) : option SimulationEngine.t :=
  match st with
  | StepRequestHallCall floor dir => Some (SimulationEngine.requestHallCall floor dir s)
  | StepRequestCarCall elevatorId floor =>
      Some (SimulationEngine.requestCarCall elevatorId floor s)
  | StepProcessTick =>
      s ← SimulationEngine.processTick s;
      Some (SimulationEngine.withTick (SimulationEngine.currentTick_ s + 1) s)
  | StepProcessEvent =>
      match EventQueue.tryPop (SimulationEngine.eventQueue_ s) with
      | (None, _) => Some s
      | (Some event, q) =>
          SimulationEngine.processEvent event (SimulationEngine.withQueue q s)
      end
  end.

Fixpoint run (steps : list Step) (s : SimulationEngine.t) : option SimulationEngine.t :=
  match steps with
  | [] => Some s
  | st :: steps' => s ← step st s; run steps' s
  end.

Definition reachable (s : SimulationEngine.t) : Prop :=
  exists config s0 steps, SimulationEngine.new config = Some s0 /\ run steps s0 = Some s.

(** [K] calls of the same callback in a row. *)
Fixpoint repeatCall {S} (K : nat) (call : S -> option S) (s : S) : option S :=
  match K with
  | O => Some s
  | S K' => s ← call s; repeatCall K' call s
  end.

(** ** The operations of a car, as data *)

Inductive ElevatorOp :=
  | OpAddCarCall (floor : Z)
  | OpRemoveCarCall (floor : Z)
  | OpStartMoving (dir : Direction.t) (ticksToArrive : Z)
  | OpDecrementTick
  | OpArriveAtFloor (floor : Z)
  | OpOpenDoors (ticksToOpen : Z)
  | OpSetDoorsOpen (ticksOpen : Z)
  | OpCloseDoors (ticksToClose : Z)
  | OpSetIdle
  | OpBoardPassenger
  | OpAlightPassenger.

Definition applyOp (op : ElevatorOp) (e : Elevator.t) : Elevator.t :=
  match op with
  | OpAddCarCall floor => Elevator.addCarCall floor e
  | OpRemoveCarCall floor => Elevator.removeCarCall floor e
  | OpStartMoving dir ticksToArrive => Elevator.startMoving dir ticksToArrive e
  | OpDecrementTick => Elevator.decrementTick e
  | OpArriveAtFloor floor => Elevator.arriveAtFloor floor e
  | OpOpenDoors ticksToOpen => Elevator.openDoors ticksToOpen e
  | OpSetDoorsOpen ticksOpen => Elevator.setDoorsOpen ticksOpen e
  | OpCloseDoors ticksToClose => Elevator.closeDoors ticksToClose e
  | OpSetIdle => Elevator.setIdle e
  | OpBoardPassenger => Elevator.boardPassenger e
  | OpAlightPassenger => Elevator.alightPassenger e
  end.

Definition applyOps (ops : list ElevatorOp) (e : Elevator.t) : Elevator.t :=
  foldl (fun e op => applyOp op e) e ops.

(** ** Predicates used in the statements *)

(** Invariant 3 of the specification. *)
Definition idleInvariant (e : Elevator.t) : Prop :=
  Elevator.state_ e = ElevatorState.Idle ->
  Elevator.direction_ e = Direction.Idle /\ Elevator.ticksRemaining_ e = 0.

(** The checks of [requestHallCall], as one proposition. *)
Definition validHallCall (N floor : Z) (dir : Direction.t) : Prop :=
  1 <= floor <= N /\ dir <> Direction.Idle
  /\ ~ (floor = 1 /\ dir = Direction.Down) /\ ~ (floor = N /\ dir = Direction.Up).

Global Instance validHallCall_dec N floor dir : Decision (validHallCall N floor dir).
Proof. unfold validHallCall. apply _. Defined.


(** [best] is a car of minimum cost for the call, and the first such car. *)
Definition cheapestCar (b : Building.t) (floor : Z) (dir : Direction.t) (best : Z) : Prop :=
  exists e, Building.getElevator b best = Some e
    /\ forall (j : nat) ej, Building.elevators_ b !! j = Some ej ->
         MasterController.calculateCost b e floor dir
           <= MasterController.calculateCost b ej floor dir
         /\ (Z.of_nat j < best ->
             MasterController.calculateCost b e floor dir
               < MasterController.calculateCost b ej floor dir).

(** Successive blocking pops up to the first [None]; the answer is [None]
    when a pop would block or [fuel] pops were not enough. *)
Fixpoint popUntilNone {T} (fuel : nat) (q : EventQueue.t T) : option (list T) :=
  match fuel with
  | O => None
  | S fuel' =>
      match EventQueue.pop q with
      | EventQueue.Blocked => None
      | EventQueue.Returned None _ => Some []
      | EventQueue.Returned (Some x) q' => (x ::.) <$> popUntilNone fuel' q'
      end
  end.

Definition pushAll {T} (items : list T) (q : EventQueue.t T) : EventQueue.t T :=
  foldl (fun q x => EventQueue.push x q) q items.

(** ** The literal scenarios of the specification *)

Definition scenarioConfig (elevators : Z) (kind : ControllerType.t) : Config :=
  {| numFloors := 10; numElevators := elevators; carCapacity := 6; tickDurationMs := 500;
     doorOpenTicks := 3; floorTravelTicks := 2; controllerType := kind |}.

(** Scenario C: car 0 at floor 2, moving in direction [dir0] with car call
    7; car 1 idle at floor 6. *)
Definition scenarioC (dir0 : Direction.t) : Building.t :=
  {| Building.floors_ := Floor.new <$> seqZ 1 10;
     Building.elevators_ :=
       [ Elevator.addCarCall 7 (Elevator.startMoving dir0 2 (Elevator.new 0 6 2));
         Elevator.new 1 6 6 ];
     Building.config_ := scenarioConfig 2 ControllerType.Master |}.

(** Scenarios B and D start from a freshly constructed building with two
    cars, both idle at floor 1. *)
Definition twoCars (kind : ControllerType.t) : option Building.t :=
  Building.new (scenarioConfig 2 kind).

(** Scenario D, step by step. *)
Definition scenarioD_first : option (Building.t * DistributedController.t) :=
  b ← twoCars ControllerType.Distributed;
  s ← DistributedController.handleHallCall 5 Direction.Up (b, DistributedController.new);
  DistributedController.tick s.

Definition scenarioD_second : option (Building.t * DistributedController.t) :=
  s ← scenarioD_first;
  s ← DistributedController.handleHallCall 6 Direction.Up s;
  DistributedController.tick s.

(** An engine with a single car in the given condition and nothing queued. *)
Definition oneCarEngine (car : Elevator.t) : SimulationEngine.t :=
  {| SimulationEngine.building_ :=
       {| Building.floors_ := Floor.new <$> seqZ 1 10;
          Building.elevators_ := [car];
          Building.config_ := scenarioConfig 1 ControllerType.Master |};
     SimulationEngine.scheduler_ := MasterSched MasterController.new;
     SimulationEngine.eventQueue_ := EventQueue.new;
     SimulationEngine.logger_ := Logger.new;
     SimulationEngine.config_ := scenarioConfig 1 ControllerType.Master;
     SimulationEngine.running_ := true;
     SimulationEngine.currentTick_ := 0 |}.

(** A car one tick away from the next floor, going up from floor 1. *)
Definition arrivingCar : Elevator.t :=
  Elevator.startMoving Direction.Up 1 (Elevator.new 0 6 1).

(** [n] iterations of the engine loop. *)
Definition loopIterations (n : nat) (s : SimulationEngine.t) : option SimulationEngine.t :=
  repeatCall n SimulationEngine.loopIteration s.

Definition carState (i : nat) (s : SimulationEngine.t) : option ElevatorState.t :=
  Elevator.state_ <$> Building.elevators_ (SimulationEngine.building_ s) !! i.

(** Scenario A: one car, five floors, and the hall call (3, Up) requested
    before the first tick. *)
Definition scenarioAConfig : Config :=
  {| numFloors := 5; numElevators := 1; carCapacity := 6; tickDurationMs := 500;
     doorOpenTicks := 3; floorTravelTicks := 2; controllerType := ControllerType.Master |}.


(** The engine of Scenario A with the car call (0, 3) requested before the
    first tick, in place of the hall call. *)
Definition carCallToThree : option SimulationEngine.t :=
  SimulationEngine.requestCarCall 0 3 <$> SimulationEngine.new scenarioAConfig.

(** That engine after [n] iterations of the engine loop. *)
Definition runCarCallToThree (n : nat) : option SimulationEngine.t :=
  s ← carCallToThree; loopIterations n s.

(** What an observer of that run looks at: where car 0 is, the state it is
    in, and whether its car call for floor 3 is still pending. *)
Definition observeCar (s : SimulationEngine.t) : option (Z * ElevatorState.t * bool) :=
  e ← Building.getElevator (SimulationEngine.building_ s) 0;
  Some (Elevator.currentFloor_ e, Elevator.state_ e, Elevator.hasCarCallAt 3 e).

(** The engine of that run once the doors of car 0 are closing at floor 2:
    only the closing timer, the tick counter and the log still vary. *)
Definition closingAtTwo (timer tickCount : Z) (out : list LogLine) : SimulationEngine.t :=
  {| SimulationEngine.building_ :=
       {| Building.floors_ := Floor.new <$> seqZ 1 5;
          Building.elevators_ :=
            [ Elevator.closeDoors timer
                (Elevator.arriveAtFloor 2
                   (Elevator.startMoving Direction.Up 0
                      (Elevator.addCarCall 3 (Elevator.new 0 6 1)))) ];
          Building.config_ := scenarioAConfig |};
     SimulationEngine.scheduler_ := MasterSched MasterController.new;
     SimulationEngine.eventQueue_ := EventQueue.new;
     SimulationEngine.logger_ := {| Logger.out_ := out; Logger.enabled_ := true |};
     SimulationEngine.config_ := scenarioAConfig;
     SimulationEngine.running_ := false;
     SimulationEngine.currentTick_ := tickCount |}.

(** ** How a building changes

    A car only ever changes through the operations of [Elevator]; a
    callback that leaves the landing buttons alone changes nothing but
    cars. *)

Definition evolves (e e' : Elevator.t) : Prop := exists ops, e' = applyOps ops e.

Definition carsStep (b b' : Building.t) : Prop :=
  Building.config_ b' = Building.config_ b
  /\ Building.floors_ b' = Building.floors_ b
  /\ Forall2 evolves (Building.elevators_ b) (Building.elevators_ b').

(** A property of cars that every operation keeps. *)
Definition keptByOps (P : Elevator.t -> Prop) : Prop :=
  forall op e, P e -> P (applyOp op e).

(** What a callback may do to the building: change cars, after possibly
    lighting the landing button it was called for ([reg]) or switching a
    landing button off. *)
Definition changes (reg : option (Z * Direction.t)) (b b' : Building.t) : Prop :=
  carsStep b b'
  \/ (exists f d, reg = Some (f, d) /\ carsStep (Building.registerHallCall f d b) b')
  \/ (exists f d, carsStep (Building.clearHallCall f d b) b').

(** Invariant 4 on the vector of floors of a building with [N] floors. *)
Definition floorsBoundaryClear (N : Z) (floors : list Floor.t) : Prop :=
  (forall fl, floors !! 0%nat = Some fl -> Floor.downButtonPressed_ fl = false)
  /\ (1 <= N -> forall fl, floors !! Z.to_nat (N - 1) = Some fl ->
                 Floor.upButtonPressed_ fl = false).

(** A queued [HallCall] passed the checks of [requestHallCall]. *)
Definition hallEventValid (N : Z) (event : Event) : Prop :=
  ev_type event = EventType.HallCall ->
  validHallCall N (ev_floor event) (ev_direction event).

(** The landing button a queued event will light, if any. *)
Definition registers (event : Event) : option (Z * Direction.t) :=
  if decide (ev_type event = EventType.HallCall)
  then Some (ev_floor event, ev_direction event) else None.

(** What every step of a run keeps, for a property [P] of cars that the
    operations of [Elevator] keep. *)
Definition buildingInv (P : Elevator.t -> Prop) (b : Building.t) : Prop :=
  Building.wf b
  /\ Forall P (Building.elevators_ b)
  /\ floorsBoundaryClear (numFloors (Building.config_ b)) (Building.floors_ b).

Definition engineInv (P : Elevator.t -> Prop) (s : SimulationEngine.t) : Prop :=
  buildingInv P (SimulationEngine.building_ s)
  /\ Forall (hallEventValid (numFloors (Building.config_ (SimulationEngine.building_ s))))
            (EventQueue.queue_ (SimulationEngine.eventQueue_ s)).

(** A short run used to exercise the run invariants: two rejected hall
    calls, a car call that sets car 0 moving, a hall call that is assigned
    to the moving car, and a tick. *)
Definition sampleSteps : list Step :=
  [ StepRequestHallCall 1 Direction.Down; StepRequestHallCall 5 Direction.Up;
    StepRequestCarCall 0 5; StepProcessEvent;
    StepRequestHallCall 3 Direction.Up; StepProcessEvent; StepProcessTick ].

Definition sampleRun : option SimulationEngine.t :=
  s ← SimulationEngine.new scenarioAConfig; run sampleSteps s.

(** ** Further predicates and observers *)

(** Invariant 1 of the specification, for a car built with a capacity
    that is not negative. *)
Definition passengersInRange (e : Elevator.t) : Prop :=
  0 <= Elevator.capacity_ e ->
  0 <= Elevator.passengerCount_ e <= Elevator.capacity_ e.

(** Successive [tryPop]s up to the first [None]: the items handed out and
    the queue that is left. *)
Fixpoint tryPopAll {T} (fuel : nat) (q : EventQueue.t T) : list T * EventQueue.t T :=
  match fuel with
  | O => ([], q)
  | S fuel' =>
      match EventQueue.tryPop q with
      | (None, q') => ([], q')
      | (Some x, q') => prod_map (x ::.) id (tryPopAll fuel' q')
      end
  end.

(** The floor stored at position [i] carries the number [i + 1], as the
    constructor of [Building] numbers them. *)
Definition floorsNumbered (b : Building.t) : Prop :=
  forall (i : nat) fl, Building.floors_ b !! i = Some fl ->
    Floor.floorNumber_ fl = Z.of_nat i + 1.

(** What a run keeps for every car of a building configured by [cfg]:
    the car is at a floor of the building (there is none when [numFloors]
    is below 1), its car calls are floors of the building, a moving car
    has a direction and a floor left to go in that direction, and the
    timer is not negative when the configured durations are not. *)
Definition carInv (cfg : Config) (e : Elevator.t) : Prop :=
  (1 <= numFloors cfg -> 1 <= Elevator.currentFloor_ e <= numFloors cfg)
  /\ (forall f, f ∈ Elevator.carCalls_ e -> 1 <= f <= numFloors cfg)
  /\ (Elevator.state_ e = ElevatorState.Moving ->
        (Elevator.direction_ e = Direction.Up /\ Elevator.currentFloor_ e < numFloors cfg)
        \/ (Elevator.direction_ e = Direction.Down /\ 1 < Elevator.currentFloor_ e))
  /\ (0 <= doorOpenTicks cfg -> 0 <= floorTravelTicks cfg ->
        0 <= Elevator.ticksRemaining_ e).

Definition fleetInv (cfg : Config) (b : Building.t) : Prop :=
  Building.config_ b = cfg /\ Building.wf b /\ Forall (carInv cfg) (Building.elevators_ b).

(** An entry of a scheduler's table is for a floor of the building and
    names a car of the building; [lowest] is [-1] for the claim board,
    where that value marks an unclaimed call, and [0] for the table of
    assignments. *)
Definition entryInv (cfg : Config) (lowest : Z) (entry : HallCallKey * Z) : Prop :=
  1 <= entry.1.1 <= numFloors cfg
  /\ lowest <= entry.2
  /\ (0 <= entry.2 -> entry.2 < numElevators cfg).

Definition tableInv (cfg : Config) (lowest : Z) (m : HallMap.t) : Prop :=
  Forall (entryInv cfg lowest) m /\ HallMap.sorted m.

Definition schedulerInv (cfg : Config) (sched : Scheduler) : Prop :=
  match sched with
  | MasterSched m => tableInv cfg 0 (MasterController.assignments_ m)
  | DistributedSched d => tableInv cfg (-1) (DistributedController.claimBoard_ d)
  end.

(** A queued event that a callback will use to reach a car names a car of
    the building, and a queued hall call is for a floor of the building
    and has a direction. *)
Definition eventInv (cfg : Config) (event : Event) : Prop :=
  match ev_type event with
  | EventType.HallCall =>
      1 <= ev_floor event <= numFloors cfg /\ ev_direction event <> Direction.Idle
  | EventType.ElevatorArrived | EventType.DoorsOpened | EventType.DoorsClosed =>
      0 <= ev_elevatorId event < numElevators cfg
  | _ => True
  end.

Definition runInv (cfg : Config) (s : SimulationEngine.t) : Prop :=
  SimulationEngine.config_ s = cfg
  /\ fleetInv cfg (SimulationEngine.building_ s)
  /\ schedulerInv cfg (SimulationEngine.scheduler_ s)
  /\ Forall (eventInv cfg) (EventQueue.queue_ (SimulationEngine.eventQueue_ s)).

(** [handleHallCall] reaches the dispatch of an idle car: the call is new
    to the table and the car picked by [selectElevator] is idle, so that
    [dispatchElevator] asks for [mutex_] while the caller holds it. *)
Definition hallCallBlocks (floor : Z) (dir : Direction.t)
    (s : Building.t * MasterController.t) : bool :=
  match MasterController.assignHallCall floor dir s with
  | Some (b, _, Some elevatorId) =>
      match Building.getElevator b elevatorId with
      | Some elev => bool_decide (Elevator.getState elev = ElevatorState.Idle)
      | None => false
      end
  | _ => false
  end.

(** The delivery of [event] is such a hall call to the master controller. *)
Definition eventBlocks (event : Event) (s : SimulationEngine.t) : bool :=
  match SimulationEngine.scheduler_ s with
  | MasterSched m =>
      bool_decide (ev_type event = EventType.HallCall)
      && hallCallBlocks (ev_floor event) (ev_direction event)
           (SimulationEngine.building_ s, m)
  | DistributedSched _ => false
  end.

(** The step delivers such a hall call. *)
Definition stepBlocks (st : Step) (s : SimulationEngine.t) : bool :=
  match st with
  | StepProcessEvent =>
      match EventQueue.tryPop (SimulationEngine.eventQueue_ s) with
      | (Some event, _) => eventBlocks event s
      | (None, _) => false
      end
  | _ => false
  end.

Definition isDistributed (sched : Scheduler) : bool :=
  match sched with DistributedSched _ => true | MasterSched _ => false end.




(** The car [e] with [n] ticks left on its timer. *)
Definition withTimer (n : Z) (e : Elevator.t) : Elevator.t :=
  Elevator.mk (Elevator.id_ e) (Elevator.currentFloor_ e) (Elevator.direction_ e)
    (Elevator.state_ e) (Elevator.carCalls_ e) (Elevator.passengerCount_ e)
    (Elevator.capacity_ e) n.

(** Every car of [b] that is not idle is the same in [b']. *)
Definition busyCarsKept (b b' : Building.t) : Prop :=
  forall j e, Building.getElevator b j = Some e ->
    Elevator.getState e <> ElevatorState.Idle ->
    Building.getElevator b' j = Some e.

(** The table of pending hall calls of either controller. *)
Definition tableOf (sched : Scheduler) : HallMap.t :=
  match sched with
  | MasterSched m => MasterController.assignments_ m
  | DistributedSched d => DistributedController.claimBoard_ d
  end.

(** Every call in the table has its landing button lit, and every lit
    landing button is for a call in the table. *)
Definition callsLit (b : Building.t) (m : HallMap.t) : Prop :=
  forall f d, HallMap.find (f, d) m <> None -> Building.hasHallCall f d b = true.

Definition litCallsListed (b : Building.t) (m : HallMap.t) : Prop :=
  forall f d, Building.hasHallCall f d b = true -> HallMap.find (f, d) m <> None.

Definition buttonsMatch (b : Building.t) (sched : Scheduler) : Prop :=
  callsLit b (tableOf sched)
  /\ match sched with
     | MasterSched _ => True
     | DistributedSched d => litCallsListed b (DistributedController.claimBoard_ d)
     end.

(** Two tables with the same keys. *)
Definition sameKeys (m m' : HallMap.t) : Prop :=
  forall key, HallMap.find key m' = None <-> HallMap.find key m = None.

(** * Properties *)

(** ** Elevator: the idle invariant, operation by operation *)

Lemma new_idleInvariant id capacity startFloor :
  idleInvariant (Elevator.new id capacity startFloor).
Proof. intros _. done. Qed.

Lemma applyOp_idleInvariant op e : idleInvariant e -> idleInvariant (applyOp op e).
Proof.
  unfold idleInvariant.
  destruct op; simpl;
    unfold Elevator.decrementTick, Elevator.boardPassenger, Elevator.alightPassenger;
    repeat case_decide; simpl; intros Hinv Hidle;
    try discriminate; try (split; [done | lia]); auto.
  destruct (Hinv Hidle); lia.
Qed.

Lemma applyOps_idleInvariant ops e : idleInvariant e -> idleInvariant (applyOps ops e).
Proof.
  unfold applyOps. revert e.
  induction ops as [|op ops IH]; simpl; intros e He; [done|].
  apply IH, applyOp_idleInvariant, He.
Qed.

(** ** EventQueue *)

Section EventQueueFacts.
Context {T : Type}.
Implicit Types (q : EventQueue.t T) (x : T) (items : list T).

Lemma queue_pushAll items q :
  EventQueue.queue_ (pushAll items q) = EventQueue.queue_ q ++ items.
Proof.
  revert q. induction items as [|x items IH]; intros q; simpl.
  - by rewrite app_nil_r.
  - rewrite IH. simpl. by rewrite <- app_assoc.
Qed.

Lemma shutdown_pushAll items q :
  EventQueue.shutdown_ (pushAll items q) = EventQueue.shutdown_ q.
Proof. revert q. induction items as [|x items IH]; intros q; simpl; [done|]. by rewrite IH. Qed.

Lemma pop_closed_empty q :
  EventQueue.shutdown_ q = true -> EventQueue.queue_ q = [] ->
  EventQueue.pop q = EventQueue.Returned None q.
Proof.
  intros Hs Hq. unfold EventQueue.pop, EventQueue.empty. by rewrite Hs, Hq.
Qed.

Lemma pop_closed_front q x rest :
  EventQueue.shutdown_ q = true -> EventQueue.queue_ q = x :: rest ->
  EventQueue.pop q
  = EventQueue.Returned (Some x) {| EventQueue.queue_ := rest; EventQueue.shutdown_ := true |}.
Proof.
  intros Hs Hq. unfold EventQueue.pop, EventQueue.empty. by rewrite Hs, Hq.
Qed.

Lemma popUntilNone_S fuel q :
  popUntilNone (S fuel) q
  = match EventQueue.pop q with
    | EventQueue.Blocked => None
    | EventQueue.Returned None _ => Some []
    | EventQueue.Returned (Some x) q' => (x ::.) <$> popUntilNone fuel q'
    end.
Proof. done. Qed.

Lemma popUntilNone_closed q :
  EventQueue.shutdown_ q = true ->
  popUntilNone (S (length (EventQueue.queue_ q))) q = Some (EventQueue.queue_ q).
Proof.
  remember (EventQueue.queue_ q) as items eqn:Hq.
  revert q Hq. induction items as [|x items IH]; intros q Hq Hs.
  - rewrite popUntilNone_S. by rewrite pop_closed_empty.
  - rewrite popUntilNone_S, (pop_closed_front q x items) by done.
    change (length (x :: items)) with (S (length items)).
    by rewrite IH.
Qed.
End EventQueueFacts.

(** C9. Once [shutdown] has been signalled, [pop] never blocks: it hands
    out the buffered items - those pushed before the shutdown and those
    pushed after it - front first, in the order of the pushes; it answers
    [None] exactly when the buffer is empty; and a second [shutdown]
    changes nothing. *)
Theorem C9_shutdown_delivers_in_order_then_none :
  forall (T : Type) (q0 : EventQueue.t T) (before after : list T),
    let closed := pushAll after (EventQueue.shutdown (pushAll before q0)) in
    (* every buffered item comes out, in push order, and then [None] *)
    popUntilNone (S (length (EventQueue.queue_ closed))) closed
      = Some (EventQueue.queue_ q0 ++ before ++ after)
    (* one pop: the front item while there is one, [None] otherwise *)
    /\ (forall q : EventQueue.t T, EventQueue.shutdown_ q = true ->
          match EventQueue.pop q with
          | EventQueue.Blocked => False
          | EventQueue.Returned None q' => EventQueue.queue_ q = [] /\ q' = q
          | EventQueue.Returned (Some x) q' =>
              EventQueue.queue_ q = x :: EventQueue.queue_ q'
              /\ EventQueue.shutdown_ q' = true
          end)
    (* [shutdown] is idempotent *)
    /\ EventQueue.shutdown (EventQueue.shutdown q0) = EventQueue.shutdown q0.
Proof.
  intros T q0 before after closed. split; [|split].
  - rewrite popUntilNone_closed.
    + subst closed. rewrite queue_pushAll. simpl. rewrite queue_pushAll.
      by rewrite <- app_assoc.
    + subst closed. by rewrite shutdown_pushAll.
  - intros q Hs. destruct (EventQueue.queue_ q) as [|x rest] eqn:Hq.
    + by rewrite pop_closed_empty.
    + by rewrite (pop_closed_front q x rest).
  - done.
Qed.

Lemma C9_witness :
  match EventQueue.pop (EventQueue.shutdown (pushAll [1; 2] EventQueue.new)) with
  | EventQueue.Blocked => False
  | EventQueue.Returned None q' =>
      EventQueue.queue_ (EventQueue.shutdown (pushAll [1; 2] EventQueue.new)) = []
      /\ q' = EventQueue.shutdown (pushAll [1; 2] EventQueue.new)
  | EventQueue.Returned (Some x) q' =>
      EventQueue.queue_ (EventQueue.shutdown (pushAll [1; 2] EventQueue.new))
        = x :: EventQueue.queue_ q'
      /\ EventQueue.shutdown_ q' = true
  end.
Proof.
  apply (proj1 (proj2 (C9_shutdown_delivers_in_order_then_none Z EventQueue.new [] []))).
  reflexivity.
Defined.

(** ** Building: reading back what was written *)

Lemma getElevator_Some b id e :
  Building.getElevator b id = Some e ->
  0 <= id < numElevators (Building.config_ b)
  /\ Building.elevators_ b !! Z.to_nat id = Some e.
Proof.
  unfold Building.getElevator, Building.isValidElevator.
  repeat case_bool_decide; simpl; intros Hlookup; try discriminate. split; [lia | done].
Qed.

Lemma getElevator_setElevator b id e0 e :
  Building.getElevator b id = Some e0 ->
  Building.getElevator (Building.setElevator b id e) id = Some e.
Proof.
  intros H. pose proof (getElevator_Some _ _ _ H) as [Hid Hl].
  unfold Building.getElevator, Building.isValidElevator in *. simpl.
  repeat case_bool_decide; simpl in *; try lia.
  apply list_lookup_insert_eq. by eapply lookup_lt_Some.
Qed.

Lemma repeatCall_add {S} (a b : nat) (call : S -> option S) (s : S) :
  repeatCall (a + b) call s = s' ← repeatCall a call s; repeatCall b call s'.
Proof.
  revert s. induction a as [|a IH]; intros s; simpl; [done|].
  destruct (call s) as [s1|]; simpl; [apply IH | done].
Qed.

(** ** The state-machine driver *)

(** C1. What the driver does for a car in [Moving] whose timer reaches 0
    on this tick: the car is put one floor further in its direction, in
    state [DoorsOpening], and [ElevatorArrived] with the car's id and the
    new floor is queued - but [arriveAtFloor] does not touch the timer,
    which therefore stays at 0 instead of being set to [doorOpenTicks]
    (as [openDoors] does on the dispatch path). *)
Theorem C1_arrival_leaves_timer_at_zero (s : SimulationEngine.t) (i : Z) (e : Elevator.t) :
  Building.getElevator (SimulationEngine.building_ s) i = Some e ->
  Elevator.state_ e = ElevatorState.Moving ->
  Elevator.ticksRemaining_ (Elevator.decrementTick e) = 0 ->
  let next := if decide (Elevator.direction_ e = Direction.Up)
              then Elevator.currentFloor_ e + 1 else Elevator.currentFloor_ e - 1 in
  exists s' e',
    SimulationEngine.updateElevator i s = Some s'
    /\ Building.getElevator (SimulationEngine.building_ s') i = Some e'
    /\ Elevator.currentFloor_ e' = next
    /\ Elevator.state_ e' = ElevatorState.DoorsOpening
    /\ Elevator.ticksRemaining_ e' = 0
    /\ EventQueue.queue_ (SimulationEngine.eventQueue_ s')
       = EventQueue.queue_ (SimulationEngine.eventQueue_ s)
         ++ [ {| ev_type := EventType.ElevatorArrived; ev_floor := next;
                 ev_elevatorId := i; ev_direction := Direction.Idle |} ].
Proof.
  intros Hget Hmoving Hzero next.
  unfold SimulationEngine.updateElevator. rewrite Hget. simpl.
  unfold Elevator.getState, Elevator.getTicksRemaining.
  rewrite decide_True by done. rewrite decide_True by done.
  eexists _, _. split; [reflexivity|]. simpl.
  split; [by eapply getElevator_setElevator|].
  assert (Elevator.direction_ (Elevator.decrementTick e) = Elevator.direction_ e
          /\ Elevator.currentFloor_ (Elevator.decrementTick e) = Elevator.currentFloor_ e)
    as [Hd Hf] by (unfold Elevator.decrementTick; by case_decide).
  unfold Elevator.getDirection, Elevator.getCurrentFloor. simpl.
  rewrite Hd, Hf. done.
Qed.

Lemma C1_failing_input :
  exists s' e',
    SimulationEngine.updateElevator 0 (oneCarEngine arrivingCar) = Some s'
    /\ Building.getElevator (SimulationEngine.building_ s') 0 = Some e'
    /\ Elevator.currentFloor_ e' = 2
    /\ Elevator.state_ e' = ElevatorState.DoorsOpening
    /\ Elevator.ticksRemaining_ e' = 0
    /\ EventQueue.queue_ (SimulationEngine.eventQueue_ s')
       = [ {| ev_type := EventType.ElevatorArrived; ev_floor := 2;
              ev_elevatorId := 0; ev_direction := Direction.Idle |} ].
Proof.
  apply (C1_arrival_leaves_timer_at_zero (oneCarEngine arrivingCar) 0 arrivingCar);
    reflexivity.
Defined.

(** The door timer after an arrival differs from the configured
    [doorOpenTicks], and the next tick already reports the doors open. *)
Lemma arrival_then_doors_open_next_tick :
  (s ← SimulationEngine.updateElevators (oneCarEngine arrivingCar);
   Elevator.ticksRemaining_ <$> Building.getElevator (SimulationEngine.building_ s) 0)
    = Some 0
  /\ doorOpenTicks (SimulationEngine.config_ (oneCarEngine arrivingCar)) = 3
  /\ (s ← SimulationEngine.updateElevators (oneCarEngine arrivingCar);
      s ← SimulationEngine.updateElevators s;
      carState 0 s) = Some ElevatorState.DoorsOpen.
Proof. repeat split; vm_compute; reflexivity. Qed.

(** What holds of the closing phase: when the timer of a car in
    [DoorsClosing] reaches 0, [DoorsClosed] is queued if the car has car
    calls or some landing button is lit, and the car is set idle
    otherwise. *)
Lemma doorsClosing_expiry (s : SimulationEngine.t) (i : Z) (e : Elevator.t) :
  Building.getElevator (SimulationEngine.building_ s) i = Some e ->
  Elevator.state_ e = ElevatorState.DoorsClosing ->
  Elevator.ticksRemaining_ (Elevator.decrementTick e) = 0 ->
  SimulationEngine.updateElevator i s
  = if Elevator.hasAnyCarCalls e
       || negb (bool_decide (Building.getAllHallCalls (SimulationEngine.building_ s) = []))
    then Some (SimulationEngine.pushEvent
                 {| ev_type := EventType.DoorsClosed; ev_floor := -1;
                    ev_elevatorId := i; ev_direction := Direction.Idle |}
                 (SimulationEngine.withBuilding
                    (Building.setElevator (SimulationEngine.building_ s) i
                       (Elevator.decrementTick e)) s))
    else Some (SimulationEngine.withBuilding
                 (Building.setElevator (SimulationEngine.building_ s) i
                    (Elevator.setIdle (Elevator.decrementTick e))) s).
Proof.
  intros Hget Hclosing Hzero.
  unfold SimulationEngine.updateElevator. rewrite Hget. simpl.
  unfold Elevator.getState, Elevator.getTicksRemaining. rewrite Hclosing.
  repeat (rewrite decide_False by discriminate).
  rewrite decide_True by done. rewrite decide_True by done.
  assert (Elevator.hasAnyCarCalls (Elevator.decrementTick e) = Elevator.hasAnyCarCalls e) as ->
    by (unfold Elevator.decrementTick; by case_decide).
  done.
Qed.

(** The open-to-closing transition sets the timer to 1. *)
Lemma doorsOpen_expiry (s : SimulationEngine.t) (i : Z) (e : Elevator.t) :
  Building.getElevator (SimulationEngine.building_ s) i = Some e ->
  Elevator.state_ e = ElevatorState.DoorsOpen ->
  Elevator.ticksRemaining_ (Elevator.decrementTick e) = 0 ->
  SimulationEngine.updateElevator i s
  = Some (SimulationEngine.withBuilding
            (Building.setElevator (SimulationEngine.building_ s) i
               (Elevator.closeDoors 1 (Elevator.decrementTick e))) s).
Proof.
  intros Hget Hopen Hzero.
  unfold SimulationEngine.updateElevator. rewrite Hget. simpl.
  unfold Elevator.getState, Elevator.getTicksRemaining. rewrite Hopen.
  repeat (rewrite decide_False by discriminate).
  rewrite decide_True by done. by rewrite decide_True by done.
Qed.

Lemma runCarCallToThree_seven :
  runCarCallToThree 7
  = Some (closingAtTwo 1 7
            [ LogInitialized 5 1; LogController ControllerType.Master;
              LogCarCall 0 3;
              LogEvent (SimulationEngine.carCallEvent 0 3);
              LogElevatorState
                (Elevator.arriveAtFloor 2
                   (Elevator.startMoving Direction.Up 0
                      (Elevator.addCarCall 3 (Elevator.new 0 6 1))));
              LogEvent {| ev_type := EventType.ElevatorArrived; ev_floor := 2;
                          ev_elevatorId := 0; ev_direction := Direction.Idle |};
              LogEvent {| ev_type := EventType.DoorsOpened; ev_floor := 2;
                          ev_elevatorId := 0; ev_direction := Direction.Idle |} ]).
Proof. vm_compute. reflexivity. Qed.

Lemma runCarCallToThree_add a b :
  runCarCallToThree (a + b) = s ← runCarCallToThree a; loopIterations b s.
Proof.
  unfold runCarCallToThree. destruct carCallToThree as [s|]; [|done].
  apply repeatCall_add.
Qed.

Lemma closingAtTwo_loopIteration timer tickCount out :
  timer = 0 \/ timer = 1 ->
  SimulationEngine.loopIteration (closingAtTwo timer tickCount out)
  = Some (closingAtTwo 0 (tickCount + 1)
            (out ++ [ LogEvent {| ev_type := EventType.DoorsClosed; ev_floor := -1;
                                  ev_elevatorId := 0; ev_direction := Direction.Idle |} ])).
Proof. intros [-> | ->]; reflexivity. Qed.

Lemma closingAtTwo_forever n : forall timer tickCount out,
  timer = 0 \/ timer = 1 ->
  exists timer' tickCount' out',
    loopIterations n (closingAtTwo timer tickCount out)
    = Some (closingAtTwo timer' tickCount' out').
Proof.
  induction n as [|n IH]; intros timer tickCount out Ht.
  - by eexists _, _, _.
  - unfold loopIterations. cbn [repeatCall].
    rewrite closingAtTwo_loopIteration by done.
    apply IH. by left.
Qed.

Lemma observeCar_closingAtTwo timer tickCount out :
  observeCar (closingAtTwo timer tickCount out) = Some (2, ElevatorState.DoorsClosing, true).
Proof. reflexivity. Qed.

(** C6. The engine of Scenario A (one car, five floors, Master), with the
    car call (0, 3) requested before the first tick and run by the engine
    loop.  After seven iterations the doors of car 0 are closing at floor
    2 with one tick to go.  From then on every iteration finds the timer
    at 0 and the car call pending, queues [DoorsClosed], and the
    re-dispatch that answers it returns at once because the car is not
    [Idle]: the car stays in [DoorsClosing] at floor 2 for every later
    iteration, and the call for floor 3 is never served. *)
Theorem C6_doors_closing_never_ends :
  forall n : nat,
    (s ← runCarCallToThree (7 + n); observeCar s)
    = Some (2, ElevatorState.DoorsClosing, true).
Proof.
  intros n. rewrite runCarCallToThree_add, runCarCallToThree_seven.
  cbn [mbind option_bind].
  edestruct closingAtTwo_forever as (timer' & tickCount' & out' & ->); [by right|].
  apply observeCar_closingAtTwo.
Qed.

(** ** The literal scenarios *)

(** C2 as the specification words it does not hold: with car 0 moving up
    the controller picks car 1, not car 0. *)
Lemma C2_counterexample :
  MasterController.selectElevator (scenarioC Direction.Up) 5 Direction.Up = Some 1
  /\ Some 1 <> Some 0.
Proof. split; [vm_compute; reflexivity | discriminate]. Qed.

(** C2, amended.  In Scenario C (ten floors, car 0 at floor 2 moving with
    car call 7, car 1 idle at floor 6, hall call (5, Up)) the costs are 3
    for car 0 moving up (on the way) and 1 for car 1, so [selectElevator]
    returns car 1.  With car 0 moving down its cost is 3 + 2 * 10 = 23 and
    [selectElevator] returns car 1 again. *)
Theorem C2_scenarioC_selects_the_idle_car :
  (let b := scenarioC Direction.Up in
   ((fun e => MasterController.calculateCost b e 5 Direction.Up) <$> Building.elevators_ b)
     = [3; 1]
   /\ MasterController.selectElevator b 5 Direction.Up = Some 1)
  /\ (let b := scenarioC Direction.Down in
      ((fun e => MasterController.calculateCost b e 5 Direction.Up) <$> Building.elevators_ b)
        = [3 + 2 * 10; 1]
      /\ MasterController.selectElevator b 5 Direction.Up = Some 1).
Proof. repeat split; vm_compute; reflexivity. Qed.

(** C3 as the specification words it does not hold: after the second
    round the claim for (6, Up) is held by car 0, not by car 1. *)
Lemma C3_counterexample :
  (HallMap.find (6, Direction.Up) ∘ DistributedController.claimBoard_ ∘ snd
     <$> scenarioD_second) = Some (Some 0)
  /\ Some 0 <> Some 1.
Proof. split; [vm_compute; reflexivity | discriminate]. Qed.

(** C3, amended.  In Scenario D the first [handleHallCall (5, Up)] and
    [tick] leave the claim board as {(5, Up) -> 0}, with car 0 moving up
    and car 1 idle.  After [handleHallCall (6, Up)] and a second [tick]
    the board is {(5, Up) -> 0, (6, Up) -> 0}: car 0, which is not idle
    but has no car calls, is asked first and claims the new call as well;
    car 1 holds no claim and is still idle. *)
Theorem C3_scenarioD_car0_claims_both :
  (DistributedController.claimBoard_ ∘ snd <$> scenarioD_first)
    = Some [((5, Direction.Up), 0)]
  /\ ((fun s => (fun e => (Elevator.state_ e, Elevator.carCalls_ e))
                  <$> Building.elevators_ s.1) <$> scenarioD_first)
     = Some [(ElevatorState.Moving, []); (ElevatorState.Idle, [])]
  /\ (DistributedController.claimBoard_ ∘ snd <$> scenarioD_second)
     = Some [((5, Direction.Up), 0); ((6, Direction.Up), 0)]
  /\ ((fun s => DistributedController.getClaimsFor s.2 1) <$> scenarioD_second) = Some []
  /\ ((fun s => Elevator.state_ <$> Building.elevators_ s.1) <$> scenarioD_second)
     = Some [ElevatorState.Moving; ElevatorState.Idle].
Proof. repeat split; vm_compute; reflexivity. Qed.

(** ** std::set<int> and std::map: the facts the controllers rely on *)

Lemma IntSet_insert_idem x s : IntSet.insert x (IntSet.insert x s) = IntSet.insert x s.
Proof.
  induction s as [|y r IH]; simpl.
  - rewrite decide_False by lia. by rewrite decide_True.
  - destruct (decide (x < y)) as [Hlt|Hge]; simpl.
    + rewrite decide_False by lia. by rewrite decide_True.
    + destruct (decide (x = y)) as [->|Hne]; simpl.
      * rewrite decide_False by lia. by rewrite decide_True.
      * rewrite decide_False by done. rewrite decide_False by done. by rewrite IH.
Qed.

Lemma IntSet_elem_insert x s : x ∈ IntSet.insert x s.
Proof.
  induction s as [|y r IH]; simpl; [apply list_elem_of_here|].
  repeat case_decide; subst;
    first [apply list_elem_of_here | by apply list_elem_of_further].
Qed.

Lemma IntSet_elem_insert_mono x y s : y ∈ s -> y ∈ IntSet.insert x s.
Proof.
  induction s as [|z r IH]; simpl; intros Hy; [by apply list_elem_of_further|].
  repeat case_decide; subst; [by apply list_elem_of_further | done |].
  apply elem_of_cons in Hy as [->|Hy];
    [apply list_elem_of_here | by apply list_elem_of_further, IH].
Qed.

Lemma IntSet_count_below x y r :
  IntSet.sorted (y :: r) -> x < y -> IntSet.count x (y :: r) = 0.
Proof.
  revert y. induction r as [|z r IH]; intros y Hs Hxy; simpl in *.
  - rewrite decide_False by lia. done.
  - rewrite decide_False by lia. destruct Hs as [Hyz Hs].
    specialize (IH z Hs ltac:(lia)). simpl in IH. lia.
Qed.

Lemma IntSet_sorted_tail y r : IntSet.sorted (y :: r) -> IntSet.sorted r.
Proof. simpl. tauto. Qed.

Lemma IntSet_count_cons x y r :
  IntSet.count x (y :: r) = (if decide (x = y) then 1 else 0) + IntSet.count x r.
Proof. done. Qed.

Lemma IntSet_count_insert x s :
  IntSet.sorted s -> IntSet.count x (IntSet.insert x s) = 1.
Proof.
  induction s as [|y r IH]; intros Hs.
  - simpl. by rewrite decide_True.
  - cbn [IntSet.insert].
    destruct (decide (x < y)) as [Hlt|Hge].
    + rewrite IntSet_count_cons, decide_True by done.
      rewrite (IntSet_count_below x y r) by done. done.
    + destruct (decide (x = y)) as [->|Hne].
      * rewrite IntSet_count_cons, decide_True by done.
        destruct r as [|z r']; [done|].
        rewrite (IntSet_count_below y z r'); [done| |].
        -- by eapply IntSet_sorted_tail.
        -- simpl in Hs. tauto.
      * rewrite IntSet_count_cons, decide_False by done.
        rewrite IH; [done|]. by eapply IntSet_sorted_tail.
Qed.

Lemma IntSet_sorted_insert x s : IntSet.sorted s -> IntSet.sorted (IntSet.insert x s).
Proof.
  induction s as [|y r IH]; intros Hs; [done|].
  cbn [IntSet.insert].
  destruct (decide (x < y)) as [Hlt|Hge]; [by split|].
  destruct (decide (x = y)) as [->|Hne]; [done|].
  specialize (IH (IntSet_sorted_tail _ _ Hs)).
  split; [|done].
  destruct r as [|z r']; simpl; [lia|].
  simpl in Hs. repeat case_decide; lia.
Qed.

Lemma IntSet_sorted_erase x s : IntSet.sorted s -> IntSet.sorted (IntSet.erase x s).
Proof.
  induction s as [|y r IH]; intros Hs; [done|].
  cbn [IntSet.erase]. case_decide; [by eapply IntSet_sorted_tail|].
  specialize (IH (IntSet_sorted_tail _ _ Hs)).
  split; [|done].
  destruct r as [|z r']; [done|].
  cbn [IntSet.erase]. case_decide.
  - destruct r' as [|w r'']; [done|]. simpl in Hs. lia.
  - simpl in Hs. tauto.
Qed.

Lemma HallMap_find_assign key v m : HallMap.find key (HallMap.assign key v m) = Some v.
Proof.
  induction m as [|[k w] r IH]; simpl.
  - by rewrite decide_True.
  - destruct (HallMap.key_lt key k); simpl.
    + by rewrite decide_True.
    + destruct (decide (key = k)) as [->|Hne]; simpl.
      * by rewrite decide_True.
      * by rewrite decide_False.
Qed.

Lemma HallMap_elem_assign key v m : (key, v) ∈ HallMap.assign key v m.
Proof.
  induction m as [|[k w] r IH]; simpl; [apply list_elem_of_here|].
  destruct (HallMap.key_lt key k); [apply list_elem_of_here|].
  case_decide; subst; [apply list_elem_of_here | by apply list_elem_of_further].
Qed.

(** ** Building: frames *)

Lemma alter_idem {A} (g : A -> A) (i : nat) (l : list A) :
  (forall x, g (g x) = g x) -> alter g i (alter g i l) = alter g i l.
Proof.
  intros Hg. revert i. induction l as [|x l IH]; intros [|i]; simpl; [done..| |].
  - by rewrite Hg.
  - f_equal. apply IH.
Qed.

Lemma registerHallCall_elevators floor dir b :
  Building.elevators_ (Building.registerHallCall floor dir b) = Building.elevators_ b.
Proof. unfold Building.registerHallCall. by destruct (negb _), dir. Qed.

Lemma registerHallCall_config floor dir b :
  Building.config_ (Building.registerHallCall floor dir b) = Building.config_ b.
Proof. unfold Building.registerHallCall. by destruct (negb _), dir. Qed.

Lemma clearHallCall_elevators floor dir b :
  Building.elevators_ (Building.clearHallCall floor dir b) = Building.elevators_ b.
Proof. unfold Building.clearHallCall. by destruct (negb _), dir. Qed.

Lemma clearHallCall_config floor dir b :
  Building.config_ (Building.clearHallCall floor dir b) = Building.config_ b.
Proof. unfold Building.clearHallCall. by destruct (negb _), dir. Qed.

Lemma registerHallCall_floors_length floor dir b :
  length (Building.floors_ (Building.registerHallCall floor dir b))
  = length (Building.floors_ b).
Proof.
  unfold Building.registerHallCall. destruct (negb _), dir; simpl; try done;
    apply length_alter.
Qed.

Lemma clearHallCall_floors_length floor dir b :
  length (Building.floors_ (Building.clearHallCall floor dir b))
  = length (Building.floors_ b).
Proof.
  unfold Building.clearHallCall. destruct (negb _), dir; simpl; try done;
    apply length_alter.
Qed.

Lemma registerHallCall_invalid floor dir b :
  Building.isValidFloor b floor = false -> Building.registerHallCall floor dir b = b.
Proof. unfold Building.registerHallCall. by intros ->. Qed.

Lemma registerHallCall_idem floor dir b :
  Building.registerHallCall floor dir (Building.registerHallCall floor dir b)
  = Building.registerHallCall floor dir b.
Proof.
  unfold Building.registerHallCall.
  destruct (Building.isValidFloor b floor) eqn:Hv; simpl; [|by rewrite Hv].
  destruct dir; simpl; unfold Building.isValidFloor in *; simpl; rewrite ?Hv; simpl;
    [| |done]; unfold Building.updateFloor; simpl; f_equal; by apply alter_idem.
Qed.

Lemma getElevator_frame b b' id :
  Building.elevators_ b' = Building.elevators_ b ->
  Building.config_ b' = Building.config_ b ->
  Building.getElevator b' id = Building.getElevator b id.
Proof.
  intros He Hc. unfold Building.getElevator, Building.isValidElevator. by rewrite He, Hc.
Qed.

Lemma getElevator_wf b id :
  Building.wf b -> 0 <= id < numElevators (Building.config_ b) ->
  exists e, Building.getElevator b id = Some e.
Proof.
  intros [_ Hlen] Hid. unfold Building.getElevator, Building.isValidElevator.
  rewrite !bool_decide_eq_true_2 by lia. simpl.
  apply lookup_lt_is_Some_2. lia.
Qed.

(** ** Cars change by their operations only *)

Lemma applyOps_app ops1 ops2 e :
  applyOps (ops1 ++ ops2) e = applyOps ops2 (applyOps ops1 e).
Proof. unfold applyOps. apply foldl_app. Qed.

Lemma evolves_refl e : evolves e e.
Proof. by exists []. Qed.

Lemma evolves_trans e1 e2 e3 : evolves e1 e2 -> evolves e2 e3 -> evolves e1 e3.
Proof.
  intros [ops1 ->] [ops2 ->]. exists (ops1 ++ ops2). by rewrite applyOps_app.
Qed.

Lemma evolves_kept P e e' : keptByOps P -> evolves e e' -> P e -> P e'.
Proof.
  intros HP [ops ->]. unfold applyOps. revert e.
  induction ops as [|op ops IH]; simpl; intros e He; [done|].
  apply IH, HP, He.
Qed.

Lemma carsStep_refl b : carsStep b b.
Proof.
  repeat split. apply Forall_Forall2_diag, Forall_forall. intros; apply evolves_refl.
Qed.

Lemma carsStep_trans b1 b2 b3 : carsStep b1 b2 -> carsStep b2 b3 -> carsStep b1 b3.
Proof.
  intros (Hc1 & Hf1 & He1) (Hc2 & Hf2 & He2). split; [congruence|]. split; [congruence|].
  eapply Forall2_trans; [|exact He1|exact He2]. apply evolves_trans.
Qed.

Lemma carsStep_setElevator ops b id e e' :
  Building.getElevator b id = Some e -> e' = applyOps ops e ->
  carsStep b (Building.setElevator b id e').
Proof.
  intros Hget ->. apply getElevator_Some in Hget as [_ Hl].
  repeat split. simpl.
  rewrite <- (list_insert_id _ _ _ Hl) at 1.
  apply Forall2_insert; [|by exists ops].
  apply Forall_Forall2_diag, Forall_forall. intros; apply evolves_refl.
Qed.

Lemma carsStep_Forall P b b' :
  keptByOps P -> carsStep b b' ->
  Forall P (Building.elevators_ b) -> Forall P (Building.elevators_ b').
Proof.
  intros HP (_ & _ & He) HF. rewrite Forall_lookup in HF |- *.
  intros i e' Hl'. destruct (Forall2_lookup_r _ _ _ _ _ He Hl') as (e & Hl & Hev).
  eapply evolves_kept; eauto.
Qed.

Lemma carsStep_wf b b' : carsStep b b' -> Building.wf b -> Building.wf b'.
Proof.
  intros (Hc & Hf & He) [Hfl Hel]. unfold Building.wf.
  apply Forall2_length in He. rewrite Hc, Hf, <- He. done.
Qed.

Lemma goToClosest_carsStep id e destinations b :
  Building.getElevator b id = Some e -> carsStep b (goToClosest id e destinations b).
Proof.
  intros Hget. unfold goToClosest.
  destruct (IntSet.empty destinations); [apply carsStep_refl|].
  destruct (min_element _ _) as [target|]; [|apply carsStep_refl].
  case_decide.
  - by eapply (carsStep_setElevator [OpOpenDoors _]).
  - by eapply (carsStep_setElevator [OpStartMoving _ _]).
Qed.

Lemma dispatchElevator_carsStep m id b b' :
  MasterController.dispatchElevator m id b = Some b' -> carsStep b b'.
Proof.
  unfold MasterController.dispatchElevator.
  destruct (Building.getElevator b id) as [e|] eqn:Hget; simpl; [|done].
  case_decide; intros [= <-]; [apply carsStep_refl | by apply goToClosest_carsStep].
Qed.

Lemma decideNextAction_carsStep d id b b' :
  DistributedController.decideNextAction d id b = Some b' -> carsStep b b'.
Proof.
  unfold DistributedController.decideNextAction.
  destruct (Building.getElevator b id) as [e|] eqn:Hget; simpl; [|done].
  case_decide; intros [= <-]; [apply carsStep_refl | by apply goToClosest_carsStep].
Qed.

(** ** MasterController: selection *)

Lemma selectElevator_loop_spec b floor dir (k : nat) : forall i best bestCost,
  Building.wf b -> 0 <= i ->
  (Z.to_nat i + k)%nat = Z.to_nat (numElevators (Building.config_ b)) ->
  exists r,
    MasterController.selectElevator_loop b floor dir k i best bestCost = Some r
    /\ ((r = best
         /\ forall (j : nat) ej, i <= Z.of_nat j -> Building.elevators_ b !! j = Some ej ->
              bestCost <= MasterController.calculateCost b ej floor dir)
        \/ (i <= r
            /\ exists er, Building.getElevator b r = Some er
                 /\ MasterController.calculateCost b er floor dir < bestCost
                 /\ forall (j : nat) ej, i <= Z.of_nat j ->
                      Building.elevators_ b !! j = Some ej ->
                      MasterController.calculateCost b er floor dir
                        <= MasterController.calculateCost b ej floor dir
                      /\ (Z.of_nat j < r ->
                          MasterController.calculateCost b er floor dir
                            < MasterController.calculateCost b ej floor dir))).
Proof.
  induction k as [|k IH]; intros i best bestCost Hwf Hi Hk.
  - exists best. split; [done|]. left. split; [done|].
    intros j ej Hij Hj. apply lookup_lt_Some in Hj. destruct Hwf as [_ Hlen]. lia.
  - destruct (getElevator_wf b i Hwf ltac:(lia)) as [e He].
    pose proof (getElevator_Some _ _ _ He) as [_ Hle].
    cbn [MasterController.selectElevator_loop]. rewrite He. cbn [mbind option_bind].
    assert (forall (j : nat) ej, Z.of_nat j = i -> Building.elevators_ b !! j = Some ej ->
              ej = e) as Hat.
    { intros j ej <- Hj. rewrite Nat2Z.id in Hle. congruence. }
    case_decide as Hlt.
    + destruct (IH (i + 1) i (MasterController.calculateCost b e floor dir) Hwf
                  ltac:(lia) ltac:(lia)) as (r & -> & Hr).
      exists r. split; [done|]. right.
      destruct Hr as [[-> Hall] | (Hir & er & Her & Hcost & Hall)].
      * split; [lia|]. exists e. split; [done|]. split; [done|].
        intros j ej Hij Hj. destruct (decide (Z.of_nat j = i)) as [Heq|Hne].
        -- rewrite (Hat j ej Heq Hj). lia.
        -- specialize (Hall j ej ltac:(lia) Hj). lia.
      * split; [lia|]. exists er. split; [done|]. split; [lia|].
        intros j ej Hij Hj. destruct (decide (Z.of_nat j = i)) as [Heq|Hne].
        -- rewrite (Hat j ej Heq Hj). lia.
        -- apply (Hall j ej); [lia | done].
    + destruct (IH (i + 1) best bestCost Hwf ltac:(lia) ltac:(lia)) as (r & -> & Hr).
      exists r. split; [done|].
      destruct Hr as [[-> Hall] | (Hir & er & Her & Hcost & Hall)].
      * left. split; [done|].
        intros j ej Hij Hj. destruct (decide (Z.of_nat j = i)) as [Heq|Hne].
        -- rewrite (Hat j ej Heq Hj). lia.
        -- apply (Hall j ej); [lia | done].
      * right. split; [lia|]. exists er. split; [done|]. split; [done|].
        intros j ej Hij Hj. destruct (decide (Z.of_nat j = i)) as [Heq|Hne].
        -- rewrite (Hat j ej Heq Hj). lia.
        -- apply (Hall j ej); [lia | done].
Qed.

Lemma selectElevator_spec b floor dir :
  Building.wf b ->
  exists r,
    MasterController.selectElevator b floor dir = Some r
    /\ ((r = -1
         /\ forall (j : nat) ej, Building.elevators_ b !! j = Some ej ->
              INT_MAX <= MasterController.calculateCost b ej floor dir)
        \/ (0 <= r /\ cheapestCar b floor dir r)).
Proof.
  intros Hwf. unfold MasterController.selectElevator, Building.getNumElevators.
  destruct (selectElevator_loop_spec b floor dir
              (Z.to_nat (numElevators (Building.config_ b))) 0 (-1) INT_MAX Hwf
              ltac:(lia) ltac:(lia)) as (r & -> & Hr).
  exists r. split; [done|].
  destruct Hr as [[-> Hall] | (Hir & er & Her & Hcost & Hall)].
  - left. split; [done|]. intros j ej Hj. apply (Hall j ej); [lia | done].
  - right. split; [done|]. exists er. split; [done|].
    intros j ej Hj. apply (Hall j ej); [lia | done].
Qed.

Lemma selectElevator_loop_frame b b' floor dir (k : nat) :
  Building.elevators_ b' = Building.elevators_ b ->
  Building.config_ b' = Building.config_ b ->
  forall i best bestCost,
    MasterController.selectElevator_loop b' floor dir k i best bestCost
    = MasterController.selectElevator_loop b floor dir k i best bestCost.
Proof.
  intros He Hc. induction k as [|k IH]; intros i best bestCost; [done|].
  cbn [MasterController.selectElevator_loop].
  rewrite (getElevator_frame b b' i He Hc).
  destruct (Building.getElevator b i) as [e|]; cbn [mbind option_bind]; [|reflexivity].
  unfold MasterController.calculateCost, Building.getNumFloors. rewrite Hc.
  case_decide; apply IH.
Qed.

Lemma selectElevator_frame b b' floor dir :
  Building.elevators_ b' = Building.elevators_ b ->
  Building.config_ b' = Building.config_ b ->
  MasterController.selectElevator b' floor dir = MasterController.selectElevator b floor dir.
Proof.
  intros He Hc. unfold MasterController.selectElevator, Building.getNumElevators.
  rewrite Hc. by apply selectElevator_loop_frame.
Qed.

(** [handleHallCall] is [assignHallCall] followed by the dispatch under
    the lock. *)
Lemma handleHallCall_assignHallCall floor dir s :
  MasterController.handleHallCall floor dir s
  = r ← MasterController.assignHallCall floor dir s;
    match r.2 with
    | Some elevatorId =>
        b ← MasterController.dispatchElevator_locked elevatorId r.1.1; Some (b, r.1.2)
    | None => Some r.1
    end.
Proof.
  destruct s as [b m].
  unfold MasterController.handleHallCall, MasterController.assignHallCall.
  case_decide; [reflexivity|].
  destruct (MasterController.selectElevator _ _ _) as [r|]; cbn [mbind option_bind];
    [|reflexivity].
  case_decide; reflexivity.
Qed.

Lemma dispatchElevator_locked_spec id b e :
  Building.getElevator b id = Some e ->
  MasterController.dispatchElevator_locked id b
  = if decide (Elevator.state_ e = ElevatorState.Idle) then None else Some b.
Proof.
  intros He. unfold MasterController.dispatchElevator_locked, Elevator.getState.
  rewrite He. cbn [mbind option_bind].
  destruct (decide (Elevator.state_ e = ElevatorState.Idle)) as [Hs|Hs].
  - rewrite decide_False; [reflexivity | tauto].
  - by rewrite decide_True.
Qed.

Lemma dispatchElevator_locked_Some id b b' :
  MasterController.dispatchElevator_locked id b = Some b' ->
  b' = b /\ exists e, Building.getElevator b id = Some e
                      /\ Elevator.state_ e <> ElevatorState.Idle.
Proof.
  unfold MasterController.dispatchElevator_locked, Elevator.getState.
  destruct (Building.getElevator b id) as [e|]; cbn [mbind option_bind]; [|done].
  case_decide; [|done]. intros [= <-]. split; [done|]. by exists e.
Qed.

(** A call that is not assigned yet goes to the first car of minimum cost,
    provided some car costs less than the initial [bestCost]; the call
    returns when that car is busy and never returns when it is idle. *)
Lemma handleHallCall_assigns b m floor dir :
  Building.wf b ->
  HallMap.find (floor, dir) (MasterController.assignments_ m) = None ->
  (exists (j : nat) ej, Building.elevators_ b !! j = Some ej
     /\ MasterController.calculateCost b ej floor dir < INT_MAX) ->
  exists best e,
    0 <= best /\ cheapestCar b floor dir best
    /\ Building.getElevator b best = Some e
    /\ MasterController.assignHallCall floor dir (b, m)
       = Some (Building.registerHallCall floor dir b,
               {| MasterController.assignments_ :=
                    HallMap.assign (floor, dir) best (MasterController.assignments_ m) |},
               Some best)
    /\ MasterController.handleHallCall floor dir (b, m)
       = if decide (Elevator.state_ e = ElevatorState.Idle) then None
         else Some (Building.registerHallCall floor dir b,
                    {| MasterController.assignments_ :=
                         HallMap.assign (floor, dir) best (MasterController.assignments_ m) |}).
Proof.
  intros Hwf Hnew (j & ej & Hj & Hcost).
  rewrite handleHallCall_assignHallCall.
  unfold MasterController.assignHallCall. rewrite Hnew.
  rewrite decide_False by (intros Hne; by apply Hne).
  rewrite (selectElevator_frame b) by
    (apply registerHallCall_elevators || apply registerHallCall_config).
  destruct (selectElevator_spec b floor dir Hwf) as (r & -> & Hr).
  cbn [mbind option_bind].
  destruct Hr as [[-> Hall] | [Hr Hcheap]].
  { specialize (Hall j ej Hj). lia. }
  rewrite decide_True by lia.
  pose proof Hcheap as (er & Her & Hmin).
  assert (Building.getElevator (Building.registerHallCall floor dir b) r = Some er) as Her'.
  { rewrite (getElevator_frame b); [done|..];
      [apply registerHallCall_elevators | apply registerHallCall_config]. }
  exists r, er. split; [done|]. split; [done|]. split; [done|]. split; [done|].
  cbn [mbind option_bind fst snd].
  rewrite (dispatchElevator_locked_spec _ _ _ Her').
  by case_decide.
Qed.

Lemma wrapInt_id z : INT_MIN <= z <= INT_MAX -> wrapInt z = z.
Proof.
  unfold wrapInt, INT_MIN, INT_MAX. intros Hz.
  rewrite Z.mod_small by lia. lia.
Qed.

Lemma costToServe_bound floor dir N e :
  0 <= N ->
  Z.abs (Elevator.currentFloor_ e - floor) + 2 * N <= INT_MAX ->
  Z.abs (Elevator.currentFloor_ e - floor) <= Elevator.costToServe floor dir N e
  /\ Elevator.costToServe floor dir N e <= Z.abs (Elevator.currentFloor_ e - floor) + 2 * N.
Proof.
  intros HN Hfit. unfold Elevator.costToServe.
  rewrite (wrapInt_id (Elevator.currentFloor_ e - floor))
    by (unfold INT_MIN, INT_MAX in *; lia).
  rewrite (wrapInt_id (Z.abs _)) by (unfold INT_MIN, INT_MAX in *; lia).
  rewrite (wrapInt_id (2 * N)) by (unfold INT_MIN, INT_MAX in *; lia).
  rewrite (wrapInt_id (_ + _)) by (unfold INT_MIN, INT_MAX in *; lia).
  case_decide; [lia|]. destruct (_ && _); lia.
Qed.

(** C4. A hall call on a valid floor that the assignment table does not
    hold yet is recorded for a car of minimum cost, the lowest-numbered
    one among the cars of that cost.  (The building is well formed, has
    at least one car, every car stands on one of its floors, and the
    costs fit in an [int].)  [handleHallCall] then dispatches that car
    with [mutex_] still held: the call returns, with the table updated
    and the button lit, when the car is busy, and it never returns when
    the car is idle.  In Scenario B - two cars idle at floor 1, hall call
    (8, Up) - car 0 is selected, the table maps (8, Up) to car 0 with
    both cars still idle when the dispatch starts, and the call never
    returns. *)
Theorem C4_hall_call_goes_to_cheapest_car_and_blocks_if_idle :
  (forall b m floor dir,
     Building.wf b ->
     1 <= numElevators (Building.config_ b) ->
     1 <= floor <= numFloors (Building.config_ b) ->
     3 * numFloors (Building.config_ b) <= INT_MAX ->
     Forall (fun e => 1 <= Elevator.currentFloor_ e <= numFloors (Building.config_ b))
            (Building.elevators_ b) ->
     HallMap.find (floor, dir) (MasterController.assignments_ m) = None ->
     exists best e m',
       MasterController.assignHallCall floor dir (b, m)
       = Some (Building.registerHallCall floor dir b, m', Some best)
       /\ MasterController.assignments_ m'
          = HallMap.assign (floor, dir) best (MasterController.assignments_ m)
       /\ HallMap.find (floor, dir) (MasterController.assignments_ m') = Some best
       /\ cheapestCar b floor dir best
       /\ Building.getElevator b best = Some e
       /\ MasterController.handleHallCall floor dir (b, m)
          = if decide (Elevator.state_ e = ElevatorState.Idle) then None
            else Some (Building.registerHallCall floor dir b, m'))
  /\ (exists b,
        twoCars ControllerType.Master = Some b
        /\ MasterController.selectElevator b 8 Direction.Up = Some 0
        /\ ((fun r => (MasterController.assignments_ r.1.2,
                       Elevator.state_ <$> Building.elevators_ r.1.1, r.2))
              <$> MasterController.assignHallCall 8 Direction.Up (b, MasterController.new))
           = Some ([((8, Direction.Up), 0)],
                   [ElevatorState.Idle; ElevatorState.Idle], Some 0)
        /\ MasterController.handleHallCall 8 Direction.Up (b, MasterController.new) = None).
Proof.
  split; [|eexists; repeat split; vm_compute; reflexivity].
  intros b m floor dir Hwf Hcars Hfloor Hfit Hin Hnew.
  destruct (getElevator_wf b 0 Hwf ltac:(lia)) as [e0 He0].
  apply getElevator_Some in He0 as [_ He0].
  destruct (handleHallCall_assigns b m floor dir Hwf Hnew)
    as (best & e & _ & Hcheap & He & Hassign & Hcall).
  { exists (Z.to_nat 0), e0. split; [done|].
    rewrite Forall_lookup in Hin. specialize (Hin _ _ He0). simpl in Hin.
    unfold MasterController.calculateCost, Building.getNumFloors.
    pose proof (costToServe_bound floor dir (numFloors (Building.config_ b)) e0
                  ltac:(lia) ltac:(lia)). lia. }
  eexists best, e, _. split; [exact Hassign|]. split; [done|].
  split; [apply HallMap_find_assign|]. split; [done|]. split; [done|]. exact Hcall.
Qed.

Lemma C4_witness :
  exists best e m',
    MasterController.assignHallCall 3 Direction.Up (scenarioC Direction.Up, MasterController.new)
    = Some (Building.registerHallCall 3 Direction.Up (scenarioC Direction.Up), m', Some best)
    /\ MasterController.assignments_ m' = HallMap.assign (3, Direction.Up) best []
    /\ HallMap.find (3, Direction.Up) (MasterController.assignments_ m') = Some best
    /\ cheapestCar (scenarioC Direction.Up) 3 Direction.Up best
    /\ Building.getElevator (scenarioC Direction.Up) best = Some e
    /\ MasterController.handleHallCall 3 Direction.Up
         (scenarioC Direction.Up, MasterController.new)
       = if decide (Elevator.state_ e = ElevatorState.Idle) then None
         else Some (Building.registerHallCall 3 Direction.Up (scenarioC Direction.Up), m').
Proof.
  apply (proj1 C4_hall_call_goes_to_cheapest_car_and_blocks_if_idle
           (scenarioC Direction.Up) MasterController.new 3 Direction.Up).
  - split; reflexivity.
  - vm_compute. discriminate.
  - split; vm_compute; discriminate.
  - vm_compute. discriminate.
  - repeat constructor; vm_compute; discriminate.
  - reflexivity.
Defined.

(** ** MasterController: destinations *)

Lemma destinations_step_mono id (l : HallMap.t) : forall acc x,
  x ∈ acc ->
  x ∈ foldl (fun destinations (entry : HallCallKey * Z) =>
               if decide (entry.2 = id) then IntSet.insert entry.1.1 destinations
               else destinations) acc l.
Proof.
  induction l as [|entry l IH]; intros acc x Hx; [done|].
  cbn [foldl]. apply IH. case_decide; [by apply IntSet_elem_insert_mono | done].
Qed.

Lemma destinations_step_elem id key (l : HallMap.t) : forall acc,
  (key, id) ∈ l ->
  key.1 ∈ foldl (fun destinations (entry : HallCallKey * Z) =>
                   if decide (entry.2 = id) then IntSet.insert entry.1.1 destinations
                   else destinations) acc l.
Proof.
  induction l as [|entry l IH]; intros acc Hin; [by apply elem_of_nil in Hin|].
  cbn [foldl]. apply elem_of_cons in Hin as [<-|Hin]; [|by apply IH].
  apply destinations_step_mono. simpl. rewrite decide_True by done.
  apply IntSet_elem_insert.
Qed.

Lemma destinations_step_skip id (l : HallMap.t) : forall acc,
  (forall entry, entry ∈ l -> entry.2 <> id) ->
  foldl (fun destinations (entry : HallCallKey * Z) =>
           if decide (entry.2 = id) then IntSet.insert entry.1.1 destinations
           else destinations) acc l = acc.
Proof.
  induction l as [|entry l IH]; intros acc Hl; [done|].
  cbn [foldl]. rewrite decide_False by (apply Hl, list_elem_of_here).
  apply IH. intros entry' Hin. by apply Hl, list_elem_of_further.
Qed.

Lemma destinations_step_assign id key (l : HallMap.t) : forall acc,
  (forall entry, entry ∈ l -> entry.2 <> id) ->
  foldl (fun destinations (entry : HallCallKey * Z) =>
           if decide (entry.2 = id) then IntSet.insert entry.1.1 destinations
           else destinations) acc (HallMap.assign key id l)
  = IntSet.insert key.1 acc.
Proof.
  induction l as [|[k w] l IH]; intros acc Hl.
  - simpl. by rewrite decide_True.
  - assert (forall entry, entry ∈ l -> entry.2 <> id) as Hl'
      by (intros entry Hin; by apply Hl, list_elem_of_further).
    assert (w <> id) as Hw by (apply (Hl (k, w)), list_elem_of_here).
    cbn [HallMap.assign]. destruct (HallMap.key_lt key k).
    + cbn [foldl]. simpl. repeat case_decide; try congruence.
      by apply destinations_step_skip.
    + case_decide as Hk.
      * subst k. cbn [foldl]. simpl. repeat case_decide; try congruence.
        by apply destinations_step_skip.
      * cbn [foldl]. simpl. repeat case_decide; try congruence. by apply IH.
Qed.

(** C10 as it is worded does not hold for every floor outside the
    building, nor for every car.  With one idle car at floor 1, the call
    for floor [1 - INT_MAX] costs exactly [INT_MAX], which is not below
    the initial [bestCost]: [selectElevator] answers [-1] and nothing is
    assigned.  And with one car that is moving up from floor 1, the call
    (0, Down) is assigned to it, but the dispatch that follows returns at
    once because the car is busy: the building is left as it was and the
    car keeps moving up. *)
Lemma C10_counterexample :
  (exists b,
     Building.new (scenarioConfig 1 ControllerType.Master) = Some b
     /\ Building.isValidFloor b (1 - INT_MAX) = false
     /\ MasterController.selectElevator b (1 - INT_MAX) Direction.Down = Some (-1)
     /\ MasterController.handleHallCall (1 - INT_MAX) Direction.Down (b, MasterController.new)
        = Some (b, MasterController.new)
     /\ HallMap.find (1 - INT_MAX, Direction.Down)
          (MasterController.assignments_ MasterController.new) = None)
  /\ (let b := SimulationEngine.building_ (oneCarEngine arrivingCar) in
      Building.isValidFloor b 0 = false
      /\ MasterController.handleHallCall 0 Direction.Down (b, MasterController.new)
         = Some (b, {| MasterController.assignments_ := [((0, Direction.Down), 0)] |})
      /\ Building.getElevator b 0 = Some arrivingCar
      /\ Elevator.direction_ arrivingCar = Direction.Up).
Proof.
  split; [eexists|]; repeat split; vm_compute; reflexivity.
Qed.

(** C10, amended.  [handleHallCall] does not validate the floor.  For a
    floor [f] (an [int]) outside the building that is not assigned yet, and
    as long as some car costs less than [INT_MAX], the call is assigned to
    the cheapest car and the building is left as it was, landing buttons
    included.  When that car is busy the call returns with the car left as
    it is; [f] is among the destinations of the car from then on, and a
    later [dispatchElevator] that finds the car idle with nothing else to
    do opens its doors if it happens to stand at that floor number and
    otherwise starts it moving towards [f]. *)
Theorem C10_invalid_floor_is_assigned b m f dir :
  Building.wf b ->
  INT_MIN <= f <= INT_MAX ->
  Building.isValidFloor b f = false ->
  HallMap.find (f, dir) (MasterController.assignments_ m) = None ->
  (exists (j : nat) ej, Building.elevators_ b !! j = Some ej
     /\ MasterController.calculateCost b ej f dir < INT_MAX) ->
  exists best e m',
    MasterController.assignHallCall f dir (b, m) = Some (b, m', Some best)
    /\ HallMap.find (f, dir) (MasterController.assignments_ m') = Some best
    /\ cheapestCar b f dir best
    /\ Building.getElevator b best = Some e
    /\ f ∈ MasterController.destinationsOf m' best e
    /\ (Elevator.state_ e <> ElevatorState.Idle ->
        MasterController.handleHallCall f dir (b, m) = Some (b, m'))
    /\ (forall b2 e2,
          Building.getElevator b2 best = Some e2 ->
          Elevator.state_ e2 = ElevatorState.Idle ->
          Elevator.carCalls_ e2 = [] ->
          (forall entry, entry ∈ MasterController.assignments_ m -> entry.2 <> best) ->
          MasterController.dispatchElevator m' best b2
          = Some (Building.setElevator b2 best
                    (if decide (f = Elevator.currentFloor_ e2)
                     then Elevator.openDoors (doorOpenTicks (Building.config_ b2)) e2
                     else Elevator.startMoving
                            (if decide (f > Elevator.currentFloor_ e2)
                             then Direction.Up else Direction.Down)
                            (floorTravelTicks (Building.config_ b2)) e2))).
Proof.
  intros Hwf _ Hinvalid Hnew Hcheap.
  destruct (handleHallCall_assigns b m f dir Hwf Hnew Hcheap)
    as (best & e & Hbest & Hmin & He & Hassign & Hcall).
  rewrite (registerHallCall_invalid f dir b Hinvalid) in Hassign, Hcall.
  eexists best, e, _. split; [exact Hassign|].
  split; [apply HallMap_find_assign|]. split; [done|]. split; [done|].
  split.
  { unfold MasterController.destinationsOf. cbn [MasterController.assignments_].
    apply (destinations_step_elem best (f, dir)), HallMap_elem_assign. }
  split.
  { intros Hbusy. rewrite Hcall. by rewrite decide_False. }
  intros b2 e2 He2 Hidle Hcalls Hfree.
  unfold MasterController.dispatchElevator.
  rewrite He2. cbn [mbind option_bind].
  rewrite decide_False by (unfold Elevator.getState; rewrite Hidle; tauto).
  unfold MasterController.destinationsOf, Elevator.getCarCalls.
  cbn [MasterController.assignments_].
  rewrite (destinations_step_assign best (f, dir)) by done.
  rewrite Hcalls. unfold goToClosest. cbn.
  unfold Elevator.getCurrentFloor, Building.getConfig.
  destruct (decide (f = Elevator.currentFloor_ e2)); reflexivity.
Qed.

Lemma C10_witness :
  let b := SimulationEngine.building_ (oneCarEngine arrivingCar) in
  exists best e m',
    MasterController.assignHallCall 11 Direction.Up (b, MasterController.new)
    = Some (b, m', Some best)
    /\ HallMap.find (11, Direction.Up) (MasterController.assignments_ m') = Some best
    /\ cheapestCar b 11 Direction.Up best
    /\ Building.getElevator b best = Some e
    /\ 11 ∈ MasterController.destinationsOf m' best e
    /\ (Elevator.state_ e <> ElevatorState.Idle ->
        MasterController.handleHallCall 11 Direction.Up (b, MasterController.new)
        = Some (b, m'))
    /\ (forall b2 e2,
          Building.getElevator b2 best = Some e2 ->
          Elevator.state_ e2 = ElevatorState.Idle ->
          Elevator.carCalls_ e2 = [] ->
          (forall entry, entry ∈ MasterController.assignments_ MasterController.new ->
                         entry.2 <> best) ->
          MasterController.dispatchElevator m' best b2
          = Some (Building.setElevator b2 best
                    (if decide (11 = Elevator.currentFloor_ e2)
                     then Elevator.openDoors (doorOpenTicks (Building.config_ b2)) e2
                     else Elevator.startMoving
                            (if decide (11 > Elevator.currentFloor_ e2)
                             then Direction.Up else Direction.Down)
                            (floorTravelTicks (Building.config_ b2)) e2))).
Proof.
  apply (C10_invalid_floor_is_assigned
           (SimulationEngine.building_ (oneCarEngine arrivingCar))
           MasterController.new 11 Direction.Up).
  - split; reflexivity.
  - split; vm_compute; discriminate.
  - reflexivity.
  - reflexivity.
  - exists 0%nat, arrivingCar. split; [reflexivity|]. vm_compute. reflexivity.
Defined.

(** ** Repeated calls *)

Lemma repeatCall_fixed {S} (call : S -> option S) :
  (forall s s1, call s = Some s1 -> call s1 = Some s1) ->
  forall (K : nat) s, (1 <= K)%nat -> repeatCall K call s = call s.
Proof.
  intros Hfix K s HK. destruct K as [|K]; [lia|]. clear HK.
  cbn [repeatCall]. destruct (call s) as [s1|] eqn:Hs; [|done]. cbn [mbind option_bind].
  specialize (Hfix s s1 Hs). clear Hs.
  induction K as [|K IH]; [done|].
  cbn [repeatCall]. rewrite Hfix. cbn [mbind option_bind]. exact IH.
Qed.

Lemma Master_handleHallCall_fixed floor dir s s1 :
  MasterController.handleHallCall floor dir s = Some s1 ->
  MasterController.handleHallCall floor dir s1 = Some s1.
Proof.
  destruct s as [b m]. unfold MasterController.handleHallCall at 1.
  case_decide as Hassigned.
  - intros [= <-]. unfold MasterController.handleHallCall. by rewrite decide_True.
  - destruct (MasterController.selectElevator _ floor dir) as [r|] eqn:Hsel;
      cbn [mbind option_bind]; [|done].
    case_decide as Hr.
    + destruct (MasterController.dispatchElevator_locked r _) as [b2|];
        cbn [mbind option_bind]; [|done].
      intros [= <-]. unfold MasterController.handleHallCall.
      cbn [MasterController.assignments_]. rewrite HallMap_find_assign.
      by rewrite decide_True.
    + intros [= <-]. unfold MasterController.handleHallCall.
      rewrite decide_False by congruence. rewrite registerHallCall_idem, Hsel.
      cbn [mbind option_bind]. by rewrite decide_False.
Qed.

Lemma Distributed_handleHallCall_fixed floor dir s s1 :
  DistributedController.handleHallCall floor dir s = Some s1 ->
  DistributedController.handleHallCall floor dir s1 = Some s1.
Proof.
  destruct s as [b d]. unfold DistributedController.handleHallCall at 1.
  case_decide as Hnew; intros [= <-]; unfold DistributedController.handleHallCall;
    rewrite registerHallCall_idem.
  - cbn [DistributedController.claimBoard_]. rewrite HallMap_find_assign.
    by rewrite decide_False.
  - by rewrite decide_False.
Qed.

Lemma handleHallCall_MasterSched floor dir b m :
  handleHallCall floor dir (b, MasterSched m)
  = prod_map id MasterSched <$> MasterController.handleHallCall floor dir (b, m).
Proof. reflexivity. Qed.

Lemma handleHallCall_DistributedSched floor dir b d :
  handleHallCall floor dir (b, DistributedSched d)
  = prod_map id DistributedSched <$> DistributedController.handleHallCall floor dir (b, d).
Proof. reflexivity. Qed.

Lemma handleCarCall_MasterSched c f b m :
  handleCarCall c f (b, MasterSched m)
  = prod_map id MasterSched <$> MasterController.handleCarCall c f (b, m).
Proof. reflexivity. Qed.

Lemma handleCarCall_DistributedSched c f b d :
  handleCarCall c f (b, DistributedSched d)
  = prod_map id DistributedSched <$> DistributedController.handleCarCall c f (b, d).
Proof. reflexivity. Qed.

Lemma Scheduler_handleHallCall_fixed floor dir (s s1 : Building.t * Scheduler) :
  handleHallCall floor dir s = Some s1 -> handleHallCall floor dir s1 = Some s1.
Proof.
  destruct s as [b [m|d]].
  - rewrite handleHallCall_MasterSched.
    destruct (MasterController.handleHallCall floor dir (b, m)) as [[b1 m1]|] eqn:Hcall;
      [|done].
    intros [= <-]. cbn [prod_map fst snd id].
    by rewrite handleHallCall_MasterSched, (Master_handleHallCall_fixed _ _ _ _ Hcall).
  - rewrite handleHallCall_DistributedSched.
    destruct (DistributedController.handleHallCall floor dir (b, d)) as [[b1 d1]|] eqn:Hcall;
      [|done].
    intros [= <-]. cbn [prod_map fst snd id].
    by rewrite handleHallCall_DistributedSched,
         (Distributed_handleHallCall_fixed _ _ _ _ Hcall).
Qed.

Lemma getElevator_valid b id e :
  Building.getElevator b id = Some e -> Building.isValidElevator b id = true.
Proof.
  unfold Building.getElevator. by destruct (Building.isValidElevator b id).
Qed.

Lemma goToClosest_getElevator id e destinations b :
  Building.getElevator b id = Some e ->
  exists e', Building.getElevator (goToClosest id e destinations b) id = Some e'
    /\ Elevator.carCalls_ e' = Elevator.carCalls_ e.
Proof.
  intros He. unfold goToClosest.
  destruct (IntSet.empty destinations); [by exists e|].
  destruct (min_element _ _) as [target|]; [|by exists e].
  case_decide; eexists; (split; [by eapply getElevator_setElevator | done]).
Qed.

Lemma Master_handleCarCall_carCalls c f b m e :
  Building.isValidFloor b f = true ->
  Building.getElevator b c = Some e ->
  exists b' e',
    MasterController.handleCarCall c f (b, m) = Some (b', m)
    /\ Building.getElevator b' c = Some e'
    /\ Elevator.carCalls_ e' = IntSet.insert f (Elevator.carCalls_ e)
    /\ Building.config_ b' = Building.config_ b.
Proof.
  intros Hf He. unfold MasterController.handleCarCall.
  rewrite (getElevator_valid _ _ _ He), Hf, He. cbn [negb orb mbind option_bind].
  pose proof (getElevator_setElevator b c e (Elevator.addCarCall f e) He) as He1.
  unfold MasterController.dispatchElevator. rewrite He1. cbn [mbind option_bind].
  case_decide.
  - eexists _, _. split; [done|]. split; [exact He1|]. done.
  - edestruct goToClosest_getElevator as (e' & He' & Hcalls); [exact He1|].
    eexists _, e'. split; [done|]. split; [exact He'|]. split; [by rewrite Hcalls|].
    by destruct (goToClosest_carsStep c _ (MasterController.destinationsOf m c
                   (Elevator.addCarCall f e)) _ He1) as (-> & _).
Qed.

Lemma Distributed_handleCarCall_carCalls c f b d e :
  Building.isValidFloor b f = true ->
  Building.getElevator b c = Some e ->
  exists b' e',
    DistributedController.handleCarCall c f (b, d) = Some (b', d)
    /\ Building.getElevator b' c = Some e'
    /\ Elevator.carCalls_ e' = IntSet.insert f (Elevator.carCalls_ e)
    /\ Building.config_ b' = Building.config_ b.
Proof.
  intros Hf He. unfold DistributedController.handleCarCall.
  rewrite (getElevator_valid _ _ _ He), Hf, He. cbn [negb orb mbind option_bind].
  pose proof (getElevator_setElevator b c e (Elevator.addCarCall f e) He) as He1.
  unfold DistributedController.decideNextAction. rewrite He1. cbn [mbind option_bind].
  case_decide.
  - eexists _, _. split; [done|]. split; [exact He1|]. done.
  - edestruct goToClosest_getElevator as (e' & He' & Hcalls); [exact He1|].
    eexists _, e'. split; [done|]. split; [exact He'|]. split; [by rewrite Hcalls|].
    match goal with
    | |- Building.config_ (goToClosest c ?e1 ?ds ?b1) = _ =>
        by destruct (goToClosest_carsStep c e1 ds b1 He1) as (-> & _)
    end.
Qed.

Lemma Scheduler_handleCarCall_carCalls c f b (sched : Scheduler) e :
  Building.isValidFloor b f = true ->
  Building.getElevator b c = Some e ->
  exists b' e',
    handleCarCall c f (b, sched) = Some (b', sched)
    /\ Building.getElevator b' c = Some e'
    /\ Elevator.carCalls_ e' = IntSet.insert f (Elevator.carCalls_ e)
    /\ Building.config_ b' = Building.config_ b.
Proof.
  intros Hf He. destruct sched as [m|d].
  - rewrite handleCarCall_MasterSched.
    destruct (Master_handleCarCall_carCalls c f b m e Hf He) as (b' & e' & -> & H').
    by exists b', e'.
  - rewrite handleCarCall_DistributedSched.
    destruct (Distributed_handleCarCall_carCalls c f b d e Hf He) as (b' & e' & -> & H').
    by exists b', e'.
Qed.

Lemma repeated_handleCarCall c f (sched : Scheduler) (K : nat) : forall b e,
  Building.isValidFloor b f = true ->
  Building.getElevator b c = Some e ->
  exists b' e',
    repeatCall (S K) (handleCarCall c f) (b, sched) = Some (b', sched)
    /\ Building.getElevator b' c = Some e'
    /\ Elevator.carCalls_ e' = IntSet.insert f (Elevator.carCalls_ e).
Proof.
  induction K as [|K IH]; intros b e Hf He.
  - destruct (Scheduler_handleCarCall_carCalls c f b sched e Hf He)
      as (b' & e' & Hcall & He' & Hcalls & _).
    exists b', e'. cbn [repeatCall]. rewrite Hcall. done.
  - destruct (Scheduler_handleCarCall_carCalls c f b sched e Hf He)
      as (b1 & e1 & Hcall & He1 & Hcalls1 & Hcfg).
    assert (Building.isValidFloor b1 f = true) as Hf1
      by (unfold Building.isValidFloor in *; by rewrite Hcfg).
    destruct (IH b1 e1 Hf1 He1) as (b' & e' & Hrest & He' & Hcalls).
    exists b', e'. split; [|split; [done|]].
    + change (repeatCall (S (S K)) (handleCarCall c f) (b, sched))
        with (s ← handleCarCall c f (b, sched); repeatCall (S K) (handleCarCall c f) s).
      rewrite Hcall. exact Hrest.
    + rewrite Hcalls, Hcalls1. apply IntSet_insert_idem.
Qed.

(** C5. For every K >= 1: [K] calls of [handleHallCall f d] in a row
    leave the fleet and the scheduler - assignment table or claim board,
    landing buttons, cars - exactly as one call does, in either
    scheduler; and after [K] calls of [handleCarCall c f], for a car [c]
    of the building and a floor [f] of the building, the car-call set of
    car [c] holds [f] exactly once (it is the set car [c] had, with [f]
    inserted). *)
Theorem C5_repeated_calls (K : nat) :
  (1 <= K)%nat ->
  (forall f d (s : Building.t * MasterController.t),
     repeatCall K (MasterController.handleHallCall f d) s
     = MasterController.handleHallCall f d s)
  /\ (forall f d (s : Building.t * DistributedController.t),
        repeatCall K (DistributedController.handleHallCall f d) s
        = DistributedController.handleHallCall f d s)
  /\ (forall f d (s : Building.t * Scheduler),
        repeatCall K (handleHallCall f d) s = handleHallCall f d s)
  /\ (forall c f b (sched : Scheduler) e,
        Building.isValidFloor b f = true ->
        Building.getElevator b c = Some e ->
        IntSet.sorted (Elevator.carCalls_ e) ->
        exists b' e',
          repeatCall K (handleCarCall c f) (b, sched) = Some (b', sched)
          /\ Building.getElevator b' c = Some e'
          /\ Elevator.carCalls_ e' = IntSet.insert f (Elevator.carCalls_ e)
          /\ IntSet.count f (Elevator.carCalls_ e') = 1).
Proof.
  intros HK. repeat split.
  - intros f d s. apply repeatCall_fixed; [|done]. apply Master_handleHallCall_fixed.
  - intros f d s. apply repeatCall_fixed; [|done]. apply Distributed_handleHallCall_fixed.
  - intros f d s. apply repeatCall_fixed; [|done]. apply Scheduler_handleHallCall_fixed.
  - intros c f b sched e Hf He Hsorted.
    destruct K as [|K]; [lia|].
    destruct (repeated_handleCarCall c f sched K b e Hf He) as (b' & e' & Hrun & He' & Hcalls).
    exists b', e'. split; [done|]. split; [done|]. split; [done|].
    rewrite Hcalls. by apply IntSet_count_insert.
Qed.

Lemma C5_witness :
  exists b' e',
    repeatCall 3 (handleCarCall 0 4) (scenarioC Direction.Up, MasterSched MasterController.new)
    = Some (b', MasterSched MasterController.new)
    /\ Building.getElevator b' 0 = Some e'
    /\ Elevator.carCalls_ e'
       = IntSet.insert 4 (Elevator.carCalls_
                            (Elevator.addCarCall 7
                               (Elevator.startMoving Direction.Up 2 (Elevator.new 0 6 2))))
    /\ IntSet.count 4 (Elevator.carCalls_ e') = 1.
Proof.
  apply (proj2 (proj2 (proj2 (C5_repeated_calls 3 ltac:(lia))))
           0 4 (scenarioC Direction.Up) (MasterSched MasterController.new)).
  - reflexivity.
  - reflexivity.
  - vm_compute. tauto.
Defined.

(** ** What the callbacks change *)

Lemma Master_handleHallCall_changes f d b m b' m' :
  MasterController.handleHallCall f d (b, m) = Some (b', m') -> changes (Some (f, d)) b b'.
Proof.
  unfold MasterController.handleHallCall.
  case_decide; [intros [= <- <-]; left; apply carsStep_refl|].
  destruct (MasterController.selectElevator _ f d) as [r|]; cbn [mbind option_bind]; [|done].
  case_decide.
  - destruct (MasterController.dispatchElevator_locked r _) as [b2|] eqn:Hd;
      cbn [mbind option_bind]; [|done].
    apply dispatchElevator_locked_Some in Hd as [-> _].
    intros [= <- <-]. right; left. exists f, d. split; [done|]. apply carsStep_refl.
  - intros [= <- <-]. right; left. exists f, d. split; [done|]. apply carsStep_refl.
Qed.

Lemma Master_handleCarCall_changes c f b m b' m' :
  MasterController.handleCarCall c f (b, m) = Some (b', m') -> carsStep b b'.
Proof.
  unfold MasterController.handleCarCall.
  destruct (_ || _); [intros [= <- <-]; apply carsStep_refl|].
  destruct (Building.getElevator b c) as [e|] eqn:He; cbn [mbind option_bind]; [|done].
  destruct (MasterController.dispatchElevator _ c _) as [b2|] eqn:Hd;
    cbn [mbind option_bind]; [|done].
  intros [= <- <-]. eapply carsStep_trans; [|by eapply dispatchElevator_carsStep].
  by eapply (carsStep_setElevator [OpAddCarCall f]).
Qed.

Lemma Master_onElevatorArrived_changes c f b m b' m' :
  MasterController.onElevatorArrived c f (b, m) = Some (b', m') -> changes None b b'.
Proof.
  unfold MasterController.onElevatorArrived.
  destruct (Building.getElevator b c) as [e|] eqn:He; cbn [mbind option_bind]; [|done].
  case_decide; intros [= <- <-].
  - right; right. exists f, (Elevator.getDirection e).
    eapply (carsStep_setElevator [OpRemoveCarCall f]); [|done].
    rewrite (getElevator_frame b); [done|..];
      [apply clearHallCall_elevators | apply clearHallCall_config].
  - left. by eapply (carsStep_setElevator [OpRemoveCarCall f]).
Qed.

Lemma Master_onDoorsClosed_changes c b m b' m' :
  MasterController.onDoorsClosed c (b, m) = Some (b', m') -> carsStep b b'.
Proof.
  unfold MasterController.onDoorsClosed.
  destruct (MasterController.dispatchElevator m c b) as [b2|] eqn:Hd;
    cbn [mbind option_bind]; [|done].
  intros [= <- <-]. by eapply dispatchElevator_carsStep.
Qed.

Lemma Master_tick_loop_carsStep m (n : nat) : forall i b b',
  MasterController.tick_loop m n i b = Some b' -> carsStep b b'.
Proof.
  induction n as [|n IH]; intros i b b'; cbn [MasterController.tick_loop].
  - intros [= <-]. apply carsStep_refl.
  - destruct (Building.getElevator b i) as [e|]; cbn [mbind option_bind]; [|done].
    case_decide.
    + destruct (MasterController.dispatchElevator m i b) as [b1|] eqn:Hd;
        cbn [mbind option_bind]; [|done].
      intros Hrest. eapply carsStep_trans; [by eapply dispatchElevator_carsStep|].
      by eapply IH.
    + cbn [mbind option_bind]. apply IH.
Qed.

Lemma Master_tick_changes b m b' m' :
  MasterController.tick (b, m) = Some (b', m') -> carsStep b b'.
Proof.
  unfold MasterController.tick.
  destruct (MasterController.tick_loop m _ 0 b) as [b1|] eqn:Hl;
    cbn [mbind option_bind]; [|done].
  intros [= <- <-]. by eapply Master_tick_loop_carsStep.
Qed.

Lemma Distributed_handleHallCall_changes f d b dc b' dc' :
  DistributedController.handleHallCall f d (b, dc) = Some (b', dc') ->
  changes (Some (f, d)) b b'.
Proof.
  unfold DistributedController.handleHallCall.
  case_decide; intros [= <- <-]; right; left; exists f, d; (split; [done|]);
    apply carsStep_refl.
Qed.

Lemma Distributed_handleCarCall_changes c f b dc b' dc' :
  DistributedController.handleCarCall c f (b, dc) = Some (b', dc') -> carsStep b b'.
Proof.
  unfold DistributedController.handleCarCall.
  destruct (_ || _); [intros [= <- <-]; apply carsStep_refl|].
  destruct (Building.getElevator b c) as [e|] eqn:He; cbn [mbind option_bind]; [|done].
  destruct (DistributedController.decideNextAction _ c _) as [b2|] eqn:Hd;
    cbn [mbind option_bind]; [|done].
  intros [= <- <-]. eapply carsStep_trans; [|by eapply decideNextAction_carsStep].
  by eapply (carsStep_setElevator [OpAddCarCall f]).
Qed.

Lemma Distributed_onElevatorArrived_changes c f b dc b' dc' :
  DistributedController.onElevatorArrived c f (b, dc) = Some (b', dc') -> changes None b b'.
Proof.
  unfold DistributedController.onElevatorArrived.
  destruct (Building.getElevator b c) as [e|] eqn:He; cbn [mbind option_bind]; [|done].
  destruct (DistributedController.hasClaim _ _ _ _); intros [= <- <-].
  - right; right. exists f, (Elevator.getDirection e).
    eapply (carsStep_setElevator [OpRemoveCarCall f]); [|done].
    rewrite (getElevator_frame b); [done|..];
      [apply clearHallCall_elevators | apply clearHallCall_config].
  - left. by eapply (carsStep_setElevator [OpRemoveCarCall f]).
Qed.

Lemma Distributed_onDoorsClosed_changes c b dc b' dc' :
  DistributedController.onDoorsClosed c (b, dc) = Some (b', dc') -> carsStep b b'.
Proof.
  unfold DistributedController.onDoorsClosed.
  destruct (DistributedController.decideNextAction dc c b) as [b2|] eqn:Hd;
    cbn [mbind option_bind]; [|done].
  intros [= <- <-]. by eapply decideNextAction_carsStep.
Qed.

Lemma Distributed_tick_loop_carsStep (n : nat) : forall i b dc b' dc',
  DistributedController.tick_loop n i (b, dc) = Some (b', dc') -> carsStep b b'.
Proof.
  induction n as [|n IH]; intros i b dc b' dc'; cbn [DistributedController.tick_loop].
  - intros [= <- <-]. apply carsStep_refl.
  - destruct (DistributedController.tryClaimCalls i b dc) as [dc1|];
      cbn [mbind option_bind]; [|done].
    destruct (Building.getElevator b i) as [e|]; cbn [mbind option_bind]; [|done].
    case_decide.
    + destruct (DistributedController.decideNextAction dc1 i b) as [b1|] eqn:Hd;
        cbn [mbind option_bind]; [|done].
      intros Hrest. eapply carsStep_trans; [by eapply decideNextAction_carsStep|].
      by eapply IH.
    + cbn [mbind option_bind]. apply IH.
Qed.

Lemma Distributed_tick_changes b dc b' dc' :
  DistributedController.tick (b, dc) = Some (b', dc') -> carsStep b b'.
Proof. unfold DistributedController.tick. apply Distributed_tick_loop_carsStep. Qed.

Lemma virtualCall_changes (R : Building.t -> Building.t -> Prop) viaMaster viaDistributed :
  (forall b m b' m', viaMaster (b, m) = Some (b', m') -> R b b') ->
  (forall b d b' d', viaDistributed (b, d) = Some (b', d') -> R b b') ->
  forall b sched b' sched',
    virtualCall viaMaster viaDistributed (b, sched) = Some (b', sched') -> R b b'.
Proof.
  intros HM HD b [m|d] b' sched'; unfold virtualCall; cbn [fst snd].
  - destruct (viaMaster (b, m)) as [[b1 m1]|] eqn:Hcall; [|done].
    intros [= <- <-]. by eapply HM.
  - destruct (viaDistributed (b, d)) as [[b1 d1]|] eqn:Hcall; [|done].
    intros [= <- <-]. by eapply HD.
Qed.

(** ** What the engine changes *)

Lemma Scheduler_handleHallCall_changes f d b (sched : Scheduler) b' sched' :
  handleHallCall f d (b, sched) = Some (b', sched') -> changes (Some (f, d)) b b'.
Proof.
  exact (virtualCall_changes (changes (Some (f, d)))
           (handleHallCall f d) (handleHallCall f d)
           (fun b m b' m' => Master_handleHallCall_changes f d b m b' m')
           (fun b dc b' dc' => Distributed_handleHallCall_changes f d b dc b' dc')
           b sched b' sched').
Qed.

Lemma Scheduler_handleCarCall_changes c f b (sched : Scheduler) b' sched' :
  handleCarCall c f (b, sched) = Some (b', sched') -> carsStep b b'.
Proof.
  exact (virtualCall_changes carsStep (handleCarCall c f) (handleCarCall c f)
           (fun b m b' m' => Master_handleCarCall_changes c f b m b' m')
           (fun b dc b' dc' => Distributed_handleCarCall_changes c f b dc b' dc')
           b sched b' sched').
Qed.

Lemma Scheduler_onElevatorArrived_changes c f b (sched : Scheduler) b' sched' :
  onElevatorArrived c f (b, sched) = Some (b', sched') -> changes None b b'.
Proof.
  exact (virtualCall_changes (changes None) (onElevatorArrived c f) (onElevatorArrived c f)
           (fun b m b' m' => Master_onElevatorArrived_changes c f b m b' m')
           (fun b dc b' dc' => Distributed_onElevatorArrived_changes c f b dc b' dc')
           b sched b' sched').
Qed.

Lemma Scheduler_onDoorsOpened_changes c f b (sched : Scheduler) b' sched' :
  onDoorsOpened c f (b, sched) = Some (b', sched') -> carsStep b b'.
Proof.
  apply (virtualCall_changes carsStep (onDoorsOpened c f) (onDoorsOpened c f)).
  - intros ???? [= <- <-]. apply carsStep_refl.
  - intros ???? [= <- <-]. apply carsStep_refl.
Qed.

Lemma Scheduler_onDoorsClosed_changes c b (sched : Scheduler) b' sched' :
  onDoorsClosed c (b, sched) = Some (b', sched') -> carsStep b b'.
Proof.
  exact (virtualCall_changes carsStep (onDoorsClosed c) (onDoorsClosed c)
           (fun b m b' m' => Master_onDoorsClosed_changes c b m b' m')
           (fun b dc b' dc' => Distributed_onDoorsClosed_changes c b dc b' dc')
           b sched b' sched').
Qed.

Lemma Scheduler_tick_changes b (sched : Scheduler) b' sched' :
  tick (b, sched) = Some (b', sched') -> carsStep b b'.
Proof.
  exact (virtualCall_changes carsStep tick tick
           (fun b m b' m' => Master_tick_changes b m b' m')
           (fun b dc b' dc' => Distributed_tick_changes b dc b' dc')
           b sched b' sched').
Qed.

Lemma processEvent_changes event s s' :
  SimulationEngine.processEvent event s = Some s' ->
  changes (registers event) (SimulationEngine.building_ s) (SimulationEngine.building_ s')
  /\ SimulationEngine.eventQueue_ s' = SimulationEngine.eventQueue_ s.
Proof.
  unfold SimulationEngine.processEvent, registers.
  cbn [SimulationEngine.building_ SimulationEngine.log SimulationEngine.scheduler_].
  destruct (ev_type event) eqn:Hty.
  - destruct (handleHallCall _ _ _) as [[b1 sched1]|] eqn:Hcall;
      cbn [mbind option_bind]; [|done].
    intros [= <-]. split; [|done]. cbn. rewrite decide_True by done.
    by eapply Scheduler_handleHallCall_changes.
  - destruct (handleCarCall _ _ _) as [[b1 sched1]|] eqn:Hcall;
      cbn [mbind option_bind]; [|done].
    intros [= <-]. split; [|done]. cbn. left.
    by eapply Scheduler_handleCarCall_changes.
  - destruct (onElevatorArrived _ _ _) as [[b1 sched1]|] eqn:Hcall;
      cbn [mbind option_bind]; [|done].
    intros [= <-]. split; [|done]. cbn. rewrite decide_False by done.
    by eapply Scheduler_onElevatorArrived_changes.
  - destruct (onDoorsOpened _ _ _) as [[b1 sched1]|] eqn:Hcall;
      cbn [mbind option_bind]; [|done].
    intros [= <-]. split; [|done]. cbn. left.
    by eapply Scheduler_onDoorsOpened_changes.
  - destruct (onDoorsClosed _ _) as [[b1 sched1]|] eqn:Hcall;
      cbn [mbind option_bind]; [|done].
    intros [= <-]. split; [|done]. cbn. left.
    by eapply Scheduler_onDoorsClosed_changes.
  - intros [= <-]. split; [|done]. left. apply carsStep_refl.
  - intros [= <-]. split; [|done]. left. apply carsStep_refl.
Qed.

Lemma updateElevator_step i s s' :
  SimulationEngine.updateElevator i s = Some s' ->
  carsStep (SimulationEngine.building_ s) (SimulationEngine.building_ s')
  /\ SimulationEngine.scheduler_ s' = SimulationEngine.scheduler_ s
  /\ exists events,
       EventQueue.queue_ (SimulationEngine.eventQueue_ s')
       = EventQueue.queue_ (SimulationEngine.eventQueue_ s) ++ events
       /\ Forall (fun event => ev_type event <> EventType.HallCall) events.
Proof.
  unfold SimulationEngine.updateElevator.
  destruct (Building.getElevator _ i) as [e|] eqn:He; cbn [mbind option_bind]; [|done].
  assert (forall ops x, x = applyOps ops e ->
            carsStep (SimulationEngine.building_ s)
                     (Building.setElevator (SimulationEngine.building_ s) i x)) as Hset
    by (intros ops x Hx; by eapply carsStep_setElevator).
  repeat case_decide; try destruct (_ || _); intros [= <-];
    cbn [SimulationEngine.building_ SimulationEngine.scheduler_ SimulationEngine.eventQueue_
         SimulationEngine.withBuilding SimulationEngine.pushEvent SimulationEngine.log
         SimulationEngine.withQueue EventQueue.push EventQueue.queue_];
    (split; [first [ apply carsStep_refl
                   | apply (Hset [OpDecrementTick]); reflexivity
                   | eapply (Hset [OpDecrementTick; OpArriveAtFloor _]); reflexivity
                   | eapply (Hset [OpDecrementTick; OpSetDoorsOpen _]); reflexivity
                   | eapply (Hset [OpDecrementTick; OpCloseDoors _]); reflexivity
                   | apply (Hset [OpDecrementTick; OpSetIdle]); reflexivity ]
           | split; [done|] ]);
    first [ by (exists []; rewrite app_nil_r)
          | eexists [_]; split; [done|]; by repeat constructor ].
Qed.

Lemma updateElevators_loop_step (n : nat) : forall i s s',
  SimulationEngine.updateElevators_loop n i s = Some s' ->
  carsStep (SimulationEngine.building_ s) (SimulationEngine.building_ s')
  /\ SimulationEngine.scheduler_ s' = SimulationEngine.scheduler_ s
  /\ exists events,
       EventQueue.queue_ (SimulationEngine.eventQueue_ s')
       = EventQueue.queue_ (SimulationEngine.eventQueue_ s) ++ events
       /\ Forall (fun event => ev_type event <> EventType.HallCall) events.
Proof.
  induction n as [|n IH]; intros i s s'; cbn [SimulationEngine.updateElevators_loop].
  - intros [= <-]. split; [apply carsStep_refl|]. split; [done|].
    exists []. by rewrite app_nil_r.
  - destruct (SimulationEngine.updateElevator i s) as [s1|] eqn:H1;
      cbn [mbind option_bind]; [|done].
    intros Hrest.
    destruct (updateElevator_step _ _ _ H1) as (Hc1 & Hs1 & ev1 & Hq1 & Hev1).
    destruct (IH _ _ _ Hrest) as (Hc2 & Hs2 & ev2 & Hq2 & Hev2).
    split; [by eapply carsStep_trans|]. split; [congruence|].
    exists (ev1 ++ ev2). split; [by rewrite Hq2, Hq1, app_assoc|].
    by apply Forall_app.
Qed.

Lemma processTick_step s s' :
  SimulationEngine.processTick s = Some s' ->
  carsStep (SimulationEngine.building_ s) (SimulationEngine.building_ s')
  /\ exists events,
       EventQueue.queue_ (SimulationEngine.eventQueue_ s')
       = EventQueue.queue_ (SimulationEngine.eventQueue_ s) ++ events
       /\ Forall (fun event => ev_type event <> EventType.HallCall) events.
Proof.
  unfold SimulationEngine.processTick, SimulationEngine.updateElevators.
  destruct (SimulationEngine.updateElevators_loop _ 0 s) as [s1|] eqn:H1;
    cbn [mbind option_bind]; [|done].
  destruct (updateElevators_loop_step _ _ _ _ H1) as (Hc1 & _ & events & Hq & Hev).
  destruct (tick _) as [[b2 sched2]|] eqn:Htick; cbn [mbind option_bind]; [|done].
  intros [= <-]. cbn. split; [|by exists events].
  eapply carsStep_trans; [exact Hc1|]. by eapply Scheduler_tick_changes.
Qed.

(** ** The invariants of a run *)

Lemma register_boundary N f d b :
  N = numFloors (Building.config_ b) ->
  validHallCall N f d ->
  floorsBoundaryClear N (Building.floors_ b) ->
  floorsBoundaryClear N (Building.floors_ (Building.registerHallCall f d b)).
Proof.
  intros -> (Hf & Hd & Hlow & Htop) [Hdown Hup].
  unfold Building.registerHallCall. destruct (negb _); [done|].
  destruct d; [| |done]; cbn; split.
  - intros fl. rewrite list_lookup_alter. case_decide as Hi; [|apply Hdown].
    destruct (Building.floors_ b !! Z.to_nat (f - 1)) as [fl0|] eqn:Hl; cbn; [|done].
    intros [= <-]. cbn. apply Hdown. by rewrite <- Hi.
  - intros HN fl. assert (f <> numFloors (Building.config_ b)) by tauto.
    rewrite list_lookup_alter_ne by lia. by apply Hup.
  - intros fl. assert (f <> 1) by tauto.
    rewrite list_lookup_alter_ne by lia. apply Hdown.
  - intros HN fl. rewrite list_lookup_alter. case_decide as Hi; [|by apply Hup].
    destruct (Building.floors_ b !! Z.to_nat (f - 1)) as [fl0|] eqn:Hl; cbn; [|done].
    intros [= <-]. cbn. apply Hup; [done|]. by rewrite <- Hi.
Qed.

Lemma clear_boundary N f d b :
  floorsBoundaryClear N (Building.floors_ b) ->
  floorsBoundaryClear N (Building.floors_ (Building.clearHallCall f d b)).
Proof.
  intros [Hdown Hup].
  unfold Building.clearHallCall. destruct (negb _); [done|].
  destruct d; [| |done]; cbn; split.
  - intros fl. rewrite list_lookup_alter. case_decide as Hi; [|apply Hdown].
    destruct (Building.floors_ b !! Z.to_nat (f - 1)) as [fl0|] eqn:Hl; cbn; [|done].
    intros [= <-]. cbn. apply Hdown. by rewrite <- Hi.
  - intros HN fl. rewrite list_lookup_alter. case_decide as Hi; [|by apply Hup].
    destruct (Building.floors_ b !! Z.to_nat (f - 1)) as [fl0|] eqn:Hl; cbn; [|done].
    by intros [= <-].
  - intros fl. rewrite list_lookup_alter. case_decide as Hi; [|apply Hdown].
    destruct (Building.floors_ b !! Z.to_nat (f - 1)) as [fl0|] eqn:Hl; cbn; [|done].
    by intros [= <-].
  - intros HN fl. rewrite list_lookup_alter. case_decide as Hi; [|by apply Hup].
    destruct (Building.floors_ b !! Z.to_nat (f - 1)) as [fl0|] eqn:Hl; cbn; [|done].
    intros [= <-]. cbn. apply Hup; [done|]. by rewrite <- Hi.
Qed.

Lemma carsStep_buildingInv P b b' :
  keptByOps P -> carsStep b b' -> buildingInv P b -> buildingInv P b'.
Proof.
  intros HP Hstep (Hwf & Hcars & Hfloors).
  pose proof Hstep as (Hc & Hf & _).
  split; [by eapply carsStep_wf|]. split; [by eapply carsStep_Forall|].
  by rewrite Hc, Hf.
Qed.

Lemma changes_buildingInv P reg b b' :
  keptByOps P ->
  changes reg b b' ->
  (forall f d, reg = Some (f, d) -> validHallCall (numFloors (Building.config_ b)) f d) ->
  buildingInv P b ->
  buildingInv P b' /\ Building.config_ b' = Building.config_ b.
Proof.
  intros HP Hch Hreg Hinv.
  destruct Hch as [Hstep | [(f & d & -> & Hstep) | (f & d & Hstep)]].
  - split; [by eapply carsStep_buildingInv|]. by destruct Hstep.
  - destruct Hinv as ([Hfl Hel] & Hcars & Hfloors).
    split; [|destruct Hstep as (-> & _); apply registerHallCall_config].
    eapply carsStep_buildingInv; [done|exact Hstep|].
    split; [|split].
    + unfold Building.wf.
      by rewrite registerHallCall_config, registerHallCall_elevators,
           registerHallCall_floors_length.
    + by rewrite registerHallCall_elevators.
    + rewrite registerHallCall_config. apply register_boundary; [done| |done].
      by apply Hreg.
  - destruct Hinv as ([Hfl Hel] & Hcars & Hfloors).
    split; [|destruct Hstep as (-> & _); apply clearHallCall_config].
    eapply carsStep_buildingInv; [done|exact Hstep|].
    split; [|split].
    + unfold Building.wf.
      by rewrite clearHallCall_config, clearHallCall_elevators, clearHallCall_floors_length.
    + by rewrite clearHallCall_elevators.
    + rewrite clearHallCall_config. by apply clear_boundary.
Qed.

Lemma requestHallCall_accepts s floor dir :
  validHallCall (Building.getNumFloors (SimulationEngine.building_ s)) floor dir ->
  SimulationEngine.requestHallCall floor dir s
  = SimulationEngine.pushEvent (SimulationEngine.hallCallEvent floor dir)
      (SimulationEngine.log (LogHallCall floor dir) s).
Proof.
  intros (Hf & Hd & Hlow & Htop). unfold SimulationEngine.requestHallCall.
  unfold Building.isValidFloor, Building.getNumFloors in *.
  rewrite !bool_decide_eq_true_2 by lia. cbn [andb negb].
  by rewrite !decide_False by done.
Qed.

Lemma requestHallCall_rejects s floor dir :
  ~ validHallCall (Building.getNumFloors (SimulationEngine.building_ s)) floor dir ->
  exists line, SimulationEngine.requestHallCall floor dir s = SimulationEngine.log line s.
Proof.
  intros Hinvalid. unfold SimulationEngine.requestHallCall.
  destruct (negb _) eqn:Hfloor; [by eexists|].
  repeat (case_decide; [by eexists|]).
  exfalso. apply Hinvalid.
  apply negb_false_iff in Hfloor. unfold Building.isValidFloor in Hfloor.
  apply andb_true_iff in Hfloor as [?%bool_decide_eq_true ?%bool_decide_eq_true].
  unfold Building.getNumFloors in *. repeat split; [lia|lia|done..].
Qed.

Lemma new_engineInv P config s :
  (forall id capacity, P (Elevator.new id capacity 1)) ->
  SimulationEngine.new config = Some s -> engineInv P s.
Proof.
  intros HP. unfold SimulationEngine.new, Building.new.
  case_decide; [done|]. cbn [mbind option_bind]. intros [= <-]. cbn.
  split; [|constructor]. split; [|split].
  - split; cbn; by rewrite length_fmap, length_seqZ.
  - cbn. apply Forall_fmap, Forall_forall. intros i _. apply HP.
  - split; [|intros _]; cbn; intros fl; rewrite list_lookup_fmap;
      destruct (seqZ 1 (numFloors config) !! _); cbn; [|done| |done]; by intros [= <-].
Qed.

Lemma step_engineInv P st s s' :
  keptByOps P -> engineInv P s -> step st s = Some s' -> engineInv P s'.
Proof.
  intros HP [Hb Hq]. destruct st as [floor dir | elevatorId floor | | ]; cbn [step].
  - intros [= <-].
    destruct (decide (validHallCall
                        (Building.getNumFloors (SimulationEngine.building_ s)) floor dir))
      as [Hvalid|Hinvalid].
    + rewrite requestHallCall_accepts by done. split; [done|]. cbn.
      apply Forall_app. split; [done|]. apply Forall_singleton. intros _. exact Hvalid.
    + destruct (requestHallCall_rejects s floor dir Hinvalid) as [line ->]. by split.
  - intros [= <-]. unfold SimulationEngine.requestCarCall.
    repeat (destruct (negb _); [by split|]).
    split; [done|]. cbn. apply Forall_app. split; [done|].
    apply Forall_singleton. intros Hty. discriminate Hty.
  - destruct (SimulationEngine.processTick s) as [s1|] eqn:Htick;
      cbn [mbind option_bind]; [|done].
    intros [= <-]. unfold engineInv.
    cbn [SimulationEngine.building_ SimulationEngine.eventQueue_ SimulationEngine.withTick].
    destruct (processTick_step _ _ Htick) as (Hstep & events & Hqueue & Hevents).
    split; [by eapply carsStep_buildingInv|].
    destruct Hstep as (-> & _). rewrite Hqueue. apply Forall_app. split; [done|].
    eapply Forall_impl; [|exact Hevents]. by intros event Hne Heq.
  - destruct (EventQueue.tryPop _) as [[event|] q] eqn:Hpop; [|by intros [= <-]].
    unfold EventQueue.tryPop in Hpop.
    destruct (EventQueue.queue_ (SimulationEngine.eventQueue_ s))
      as [|event' rest] eqn:Hqueue; [done|].
    injection Hpop as <- <-.
    pose proof (Forall_inv Hq) as Hevent. pose proof (Forall_inv_tail Hq) as Hrest.
    intros Hproc. apply processEvent_changes in Hproc as [Hch Hq'].
    cbn in Hch, Hq'.
    destruct (changes_buildingInv P _ _ _ HP Hch) as [Hb' Hcfg]; [|done|].
    { intros f d. unfold registers. case_decide as Hty; [|done].
      intros [= <- <-]. by apply Hevent. }
    split; [done|]. rewrite Hq', Hcfg. done.
Qed.

Lemma run_engineInv P steps : forall s s',
  keptByOps P -> engineInv P s -> run steps s = Some s' -> engineInv P s'.
Proof.
  induction steps as [|st steps IH]; intros s s' HP Hinv; cbn [run].
  - by intros [= <-].
  - destruct (step st s) as [s1|] eqn:Hstep; cbn [mbind option_bind]; [|done].
    apply IH; [done|]. by eapply step_engineInv.
Qed.

Lemma reachable_engineInv P s :
  keptByOps P -> (forall id capacity, P (Elevator.new id capacity 1)) ->
  reachable s -> engineInv P s.
Proof.
  intros HP Hnew (config & s0 & steps & Hs0 & Hrun).
  eapply run_engineInv; [done| |exact Hrun]. by eapply new_engineInv.
Qed.




(** Every state of a run has a well-formed building whose cars keep their
    car calls as a set (strictly increasing): the side conditions under
    which the controllers are specified hold throughout. *)
Lemma reachable_wellFormed s :
  reachable s ->
  Building.wf (SimulationEngine.building_ s)
  /\ Forall (fun e => IntSet.sorted (Elevator.carCalls_ e))
            (Building.elevators_ (SimulationEngine.building_ s)).
Proof.
  intros Hs.
  destruct (reachable_engineInv (fun e => IntSet.sorted (Elevator.carCalls_ e)) s)
    as [(Hwf & Hcars & _) _]; [| |done|done].
  - intros op e He.
    destruct op; cbn;
      unfold Elevator.decrementTick, Elevator.boardPassenger, Elevator.alightPassenger;
      repeat case_decide; cbn;
      first [ by apply IntSet_sorted_insert | by apply IntSet_sorted_erase | done ].
  - intros id capacity. exact I.
Qed.

(** C7. A car that is [Idle] has direction [Idle] and timer 0: a new car
    satisfies it, each operation of [Elevator] keeps it, so it holds after
    any sequence of operations on a new car, and every car of every
    engine state reached from a fresh engine - by requests, ticks and
    event deliveries in any order - satisfies it. *)
Theorem C7_idle_means_no_direction_no_timer :
  (forall id capacity startFloor, idleInvariant (Elevator.new id capacity startFloor))
  /\ (forall op e, idleInvariant e -> idleInvariant (applyOp op e))
  /\ (forall ops id capacity startFloor,
        idleInvariant (applyOps ops (Elevator.new id capacity startFloor)))
  /\ (forall s, reachable s ->
        Forall idleInvariant (Building.elevators_ (SimulationEngine.building_ s))).
Proof.
  split; [apply new_idleInvariant|]. split; [apply applyOp_idleInvariant|]. split.
  - intros. apply applyOps_idleInvariant, new_idleInvariant.
  - intros s Hs.
    apply (reachable_engineInv idleInvariant s); [|intros; apply new_idleInvariant|done].
    intros op e. apply applyOp_idleInvariant.
Qed.

Lemma C7_witness :
  idleInvariant (applyOp OpDecrementTick (applyOp OpSetIdle arrivingCar)).
Proof.
  apply (proj1 (proj2 C7_idle_means_no_direction_no_timer)).
  intros _. split; reflexivity.
Defined.



(** * Further properties *)

(** ** Elevator: passengers *)

Lemma passengers_kept cap :
  0 <= cap ->
  keptByOps (fun e => Elevator.capacity_ e = cap
                      /\ 0 <= Elevator.passengerCount_ e <= cap).
Proof.
  intros Hcap op e [Hc Hp].
  destruct op; cbn;
    unfold Elevator.decrementTick, Elevator.boardPassenger, Elevator.alightPassenger;
    repeat case_decide; cbn; split; lia.
Qed.

(** The passenger counter never leaves [0, capacity]: not after any
    sequence of operations on a new car, and not in any car of a run of
    the engine.  [boardPassenger] on a full car and [alightPassenger] on
    an empty one change nothing, and otherwise move the counter by one. *)
Theorem passengerCount_stays_in_range :
  (forall ops id capacity startFloor,
     0 <= capacity ->
     0 <= Elevator.passengerCount_ (applyOps ops (Elevator.new id capacity startFloor))
       <= capacity
     /\ Elevator.capacity_ (applyOps ops (Elevator.new id capacity startFloor)) = capacity)
  /\ (forall s, reachable s ->
        Forall passengersInRange (Building.elevators_ (SimulationEngine.building_ s)))
  /\ (forall e,
        (Elevator.canBoard e = true ->
           Elevator.passengerCount_ (Elevator.boardPassenger e)
           = Elevator.passengerCount_ e + 1)
        /\ (Elevator.canBoard e = false -> Elevator.boardPassenger e = e)
        /\ (Elevator.passengerCount_ e <= 0 -> Elevator.alightPassenger e = e)
        /\ (Elevator.passengerCount_ e > 0 ->
              Elevator.passengerCount_ (Elevator.alightPassenger e)
              = Elevator.passengerCount_ e - 1)).
Proof.
  split; [|split].
  - intros ops id capacity startFloor Hcap.
    pose proof (evolves_kept _ (Elevator.new id capacity startFloor)
                  (applyOps ops (Elevator.new id capacity startFloor))
                  (passengers_kept capacity Hcap)) as H.
    destruct H as [Hc Hp]; [by exists ops | cbn; lia | done].
  - intros s Hs.
    destruct (reachable_engineInv passengersInRange s) as [(_ & Hcars & _) _]; [| |done|done].
    + intros op e He Hcap.
      assert (Elevator.capacity_ (applyOp op e) = Elevator.capacity_ e) as Hsame.
      { destruct op; cbn;
          unfold Elevator.decrementTick, Elevator.boardPassenger, Elevator.alightPassenger;
          repeat case_decide; done. }
      rewrite Hsame in *. specialize (He Hcap).
      destruct (passengers_kept (Elevator.capacity_ e) Hcap op e) as [_ Hp]; [done|].
      exact Hp.
    + intros id capacity Hcap. cbn in *. lia.
  - intros e. unfold Elevator.canBoard, Elevator.boardPassenger, Elevator.alightPassenger.
    repeat split; intros H; repeat case_decide; cbn; try done; try lia;
      try (apply bool_decide_eq_true in H; lia);
      try (apply bool_decide_eq_false in H; lia).
Qed.

Lemma passengerCount_stays_in_range_witness :
  0 <= Elevator.passengerCount_
         (applyOps [OpBoardPassenger; OpBoardPassenger; OpBoardPassenger; OpAlightPassenger]
                   (Elevator.new 0 2 1)) <= 2
  /\ Elevator.capacity_
       (applyOps [OpBoardPassenger; OpBoardPassenger; OpBoardPassenger; OpAlightPassenger]
                 (Elevator.new 0 2 1)) = 2.
Proof.
  apply (proj1 passengerCount_stays_in_range
           [OpBoardPassenger; OpBoardPassenger; OpBoardPassenger; OpAlightPassenger] 0 2 1).
  lia.
Defined.

(** ** Elevator: the set of car calls *)

Lemma IntSet_count_nonneg x s : 0 <= IntSet.count x s.
Proof.
  induction s as [|y r IH]; [done|]. rewrite IntSet_count_cons. case_decide; lia.
Qed.

Lemma IntSet_count_insert_ne x y s :
  x <> y -> IntSet.count x (IntSet.insert y s) = IntSet.count x s.
Proof.
  intros Hne. induction s as [|z r IH]; cbn [IntSet.insert].
  - rewrite IntSet_count_cons. by rewrite decide_False.
  - repeat case_decide; rewrite ?IntSet_count_cons, ?IH; try done.
    by rewrite (decide_False (P := x = y)).
Qed.

Lemma IntSet_count_erase_ne x y s :
  x <> y -> IntSet.count x (IntSet.erase y s) = IntSet.count x s.
Proof.
  intros Hne. induction s as [|z r IH]; [done|]. cbn [IntSet.erase].
  case_decide as Hz.
  - subst z. rewrite IntSet_count_cons. by rewrite decide_False.
  - by rewrite !IntSet_count_cons, IH.
Qed.

Lemma IntSet_count_erase x s :
  IntSet.sorted s -> IntSet.count x (IntSet.erase x s) = 0.
Proof.
  induction s as [|y r IH]; intros Hs; [done|]. cbn [IntSet.erase].
  case_decide as Hy.
  - subst y. destruct r as [|z r']; [done|].
    apply IntSet_count_below; [by eapply IntSet_sorted_tail | simpl in Hs; tauto].
  - rewrite IntSet_count_cons, decide_False by done.
    rewrite IH; [done | by eapply IntSet_sorted_tail].
Qed.

(** [addCarCall], [removeCarCall] and [hasCarCallAt] on a car: a floor
    that was added is there, a floor that was removed is not, and neither
    operation touches the calls for any other floor. *)
Theorem carCalls_add_remove_lookup (e : Elevator.t) (f g : Z) :
  IntSet.sorted (Elevator.carCalls_ e) ->
  Elevator.hasCarCallAt f (Elevator.addCarCall f e) = true
  /\ Elevator.hasAnyCarCalls (Elevator.addCarCall f e) = true
  /\ Elevator.hasCarCallAt f (Elevator.removeCarCall f e) = false
  /\ (g <> f ->
      Elevator.hasCarCallAt g (Elevator.addCarCall f e) = Elevator.hasCarCallAt g e
      /\ Elevator.hasCarCallAt g (Elevator.removeCarCall f e) = Elevator.hasCarCallAt g e)
  /\ IntSet.sorted (Elevator.carCalls_ (Elevator.addCarCall f e))
  /\ IntSet.sorted (Elevator.carCalls_ (Elevator.removeCarCall f e)).
Proof.
  intros Hs. unfold Elevator.hasCarCallAt, Elevator.hasAnyCarCalls. cbn.
  split; [by rewrite IntSet_count_insert|].
  split.
  { destruct (Elevator.carCalls_ e) as [|y r]; cbn; [done|]. by repeat case_decide. }
  split; [by rewrite IntSet_count_erase|].
  split.
  { intros Hne. by rewrite IntSet_count_insert_ne, IntSet_count_erase_ne. }
  split; [by apply IntSet_sorted_insert | by apply IntSet_sorted_erase].
Qed.

Lemma carCalls_add_remove_lookup_witness :
  Elevator.hasCarCallAt 5 (Elevator.addCarCall 5 arrivingCar) = true
  /\ Elevator.hasAnyCarCalls (Elevator.addCarCall 5 arrivingCar) = true
  /\ Elevator.hasCarCallAt 5 (Elevator.removeCarCall 5 arrivingCar) = false
  /\ (3 <> 5 ->
      Elevator.hasCarCallAt 3 (Elevator.addCarCall 5 arrivingCar)
      = Elevator.hasCarCallAt 3 arrivingCar
      /\ Elevator.hasCarCallAt 3 (Elevator.removeCarCall 5 arrivingCar)
         = Elevator.hasCarCallAt 3 arrivingCar)
  /\ IntSet.sorted (Elevator.carCalls_ (Elevator.addCarCall 5 arrivingCar))
  /\ IntSet.sorted (Elevator.carCalls_ (Elevator.removeCarCall 5 arrivingCar)).
Proof. apply (carCalls_add_remove_lookup arrivingCar 5 3). exact I. Defined.

(** ** Elevator: the next car call *)

Lemma IntSet_sorted_head y r g : IntSet.sorted (y :: r) -> g ∈ r -> y < g.
Proof.
  revert y. induction r as [|z r IH]; intros y Hs Hg; [by apply elem_of_nil in Hg|].
  change (y < z /\ IntSet.sorted (z :: r)) in Hs. destruct Hs as [Hyz Hs].
  apply elem_of_cons in Hg as [->|Hg]; [done|].
  specialize (IH z Hs Hg). lia.
Qed.

Lemma IntSet_upper_bound_spec x (s : list Z) :
  IntSet.sorted s ->
  match s !! IntSet.upper_bound x s with
  | Some f => f ∈ s /\ x < f /\ forall g, g ∈ s -> x < g -> f <= g
  | None => forall g, g ∈ s -> g <= x
  end.
Proof.
  induction s as [|y r IH]; intros Hs.
  - cbn. intros g Hg. by apply elem_of_nil in Hg.
  - cbn [IntSet.upper_bound]. case_decide as Hy.
    + change ((y :: r) !! S (IntSet.upper_bound x r)) with (r !! IntSet.upper_bound x r).
      specialize (IH (IntSet_sorted_tail _ _ Hs)).
      destruct (r !! IntSet.upper_bound x r) as [f|].
      * destruct IH as (Hf & Hx & Hmin).
        split; [by apply list_elem_of_further|]. split; [done|].
        intros g Hg Hxg. apply elem_of_cons in Hg as [->|Hg]; [lia | by apply Hmin].
      * intros g Hg. apply elem_of_cons in Hg as [->|Hg]; [done | by apply IH].
    + change ((y :: r) !! 0%nat) with (Some y).
      split; [apply list_elem_of_here|]. split; [lia|].
      intros g Hg _. apply elem_of_cons in Hg as [->|Hg]; [lia|].
      pose proof (IntSet_sorted_head _ _ _ Hs Hg). lia.
Qed.

Lemma IntSet_lower_bound_spec x (s : list Z) :
  IntSet.sorted s ->
  if decide (IntSet.lower_bound x s <> 0%nat)
  then exists f, s !! pred (IntSet.lower_bound x s) = Some f
                 /\ f ∈ s /\ f < x /\ forall g, g ∈ s -> g < x -> g <= f
  else forall g, g ∈ s -> x <= g.
Proof.
  induction s as [|y r IH]; intros Hs.
  - cbn. intros g Hg. by apply elem_of_nil in Hg.
  - specialize (IH (IntSet_sorted_tail _ _ Hs)).
    cbn [IntSet.lower_bound]. destruct (decide (y < x)) as [Hy|Hy].
    + rewrite decide_True by done. cbn [pred].
      destruct (IntSet.lower_bound x r) as [|k] eqn:Hlb.
      * rewrite decide_False in IH by (intros Hk; by apply Hk).
        exists y. split; [done|]. split; [apply list_elem_of_here|]. split; [done|].
        intros g Hg Hgx. apply elem_of_cons in Hg as [->|Hg]; [done|].
        specialize (IH g Hg). lia.
      * rewrite decide_True in IH by done. cbn [pred] in IH.
        destruct IH as (f & Hlook & Hf & Hfx & Hmax).
        exists f. split; [done|]. split; [by apply list_elem_of_further|]. split; [done|].
        intros g Hg Hgx. apply elem_of_cons in Hg as [->|Hg]; [|by apply Hmax].
        pose proof (IntSet_sorted_head _ _ _ Hs Hf). lia.
    + rewrite decide_False by (intros Hk; by apply Hk).
      intros g Hg. apply elem_of_cons in Hg as [->|Hg]; [lia|].
      pose proof (IntSet_sorted_head _ _ _ Hs Hg). lia.
Qed.

Section min_element_by_key.
Variable key : Z -> Z.


End min_element_by_key.



(** ** Building: construction and access *)

Lemma getAllHallCalls_elem b f d :
  (f, d) ∈ Building.getAllHallCalls b
  <-> exists fl, fl ∈ Building.floors_ b /\ Floor.floorNumber_ fl = f
        /\ ((d = Direction.Up /\ Floor.upButtonPressed_ fl = true)
            \/ (d = Direction.Down /\ Floor.downButtonPressed_ fl = true)).
Proof.
  unfold Building.getAllHallCalls.
  induction (Building.floors_ b) as [|fl r IH]; cbn [fmap list_fmap concat].
  - split; [intros H; by apply elem_of_nil in H|].
    intros (fl & H & _). by apply elem_of_nil in H.
  - rewrite elem_of_app, IH. unfold Floor.isUpPressed, Floor.isDownPressed, Floor.getNumber.
    split.
    + intros [H|(fl' & Hin & Hrest)].
      * exists fl. split; [apply list_elem_of_here|].
        apply elem_of_app in H as [H|H].
        -- destruct (Floor.upButtonPressed_ fl); [|by apply elem_of_nil in H].
           apply elem_of_cons in H as [[= -> ->]|H]; [|by apply elem_of_nil in H]. auto.
        -- destruct (Floor.downButtonPressed_ fl); [|by apply elem_of_nil in H].
           apply elem_of_cons in H as [[= -> ->]|H]; [|by apply elem_of_nil in H]. auto.
      * exists fl'. split; [by apply list_elem_of_further | done].
    + intros (fl' & Hin & Hnum & Hpressed).
      apply elem_of_cons in Hin as [->|Hin]; [left | right; by exists fl'].
      apply elem_of_app. subst f.
      destruct Hpressed as [[-> ->]|[-> ->]]; [left | right]; apply list_elem_of_here.
Qed.

Lemma Building_new_no_calls config b :
  Building.new config = Some b -> forall n d, Building.hasHallCall n d b = false.
Proof.
  unfold Building.new. case_decide; [done|]. intros [= <-] n d.
  unfold Building.hasHallCall. destruct (negb _); [done|]. cbn [Building.floors_].
  rewrite list_lookup_fmap.
  destruct (seqZ 1 (numFloors config) !! Z.to_nat (n - 1)); [|done]. by destruct d.
Qed.

(** The constructor fails exactly when one of the two counts is negative.
    Otherwise the building is well formed, floor [n] of [1..N] is floor
    number [n] with both buttons off, car [id] of [0..M-1] is a new car with
    that id at floor 1, and there is no hall call. *)
Theorem Building_constructor (config : Config) :
  (Building.new config = None <-> numFloors config < 0 \/ numElevators config < 0)
  /\ forall b, Building.new config = Some b ->
       Building.wf b /\ Building.getConfig b = config
       /\ (forall id, Building.isValidElevator b id = true ->
             Building.getElevator b id = Some (Elevator.new id (carCapacity config) 1))
       /\ (forall n, Building.isValidFloor b n = true ->
             Building.getFloor b n = Some (Floor.new n))
       /\ Building.getAllHallCalls b = []
       /\ forall n d, Building.hasHallCall n d b = false.
Proof.
  unfold Building.new. split; [case_decide; split; try done; tauto|].
  intros b Hb. case_decide as Hneg; [done|]. injection Hb as <-.
  assert (forall n, bool_decide (n >= 1) && bool_decide (n <= numFloors config) = true ->
            (Floor.new <$> seqZ 1 (numFloors config)) !! Z.to_nat (n - 1)
            = Some (Floor.new n)) as Hfloor.
  { intros n Hn. apply andb_true_iff in Hn as [H1 H2].
    apply bool_decide_eq_true in H1, H2.
    rewrite list_lookup_fmap, lookup_seqZ_lt by lia. cbn. do 2 f_equal. lia. }
  split; [|split; [done|]]; [|split; [|split; [|split]]].
  - split; cbn; rewrite length_fmap, length_seqZ; done.
  - intros id Hid. unfold Building.getElevator. rewrite Hid.
    unfold Building.isValidElevator in Hid. cbn in *.
    apply andb_true_iff in Hid as [H1 H2]. apply bool_decide_eq_true in H1, H2.
    rewrite list_lookup_fmap, lookup_seqZ_lt by lia. cbn. do 2 f_equal. lia.
  - intros n Hn. unfold Building.getFloor. rewrite Hn. by apply Hfloor.
  - destruct (Building.getAllHallCalls _) as [|[f d] r] eqn:Hcalls; [done|].
    assert ((f, d) ∈ (f, d) :: r) as Hin by apply list_elem_of_here.
    rewrite <- Hcalls in Hin. apply getAllHallCalls_elem in Hin as (fl & Hfl & _ & Hpressed).
    cbn in Hfl. apply list_elem_of_fmap in Hfl as (n & -> & _).
    destruct Hpressed as [[_ H]|[_ H]]; discriminate.
  - intros n d. unfold Building.hasHallCall.
    destruct (Building.isValidFloor _ n) eqn:Hn; [|done]. cbn [negb].
    cbn [Building.floors_]. rewrite Hfloor by exact Hn. by destruct d.
Qed.

(** On a well-formed building [getElevator] and [getFloor] throw exactly
    for the ids and numbers that [isValidElevator] and [isValidFloor]
    reject; what [getFloor] returns is what the hall-call queries read. *)
Theorem getElevator_getFloor_throw_iff_invalid (b : Building.t) :
  Building.wf b ->
  (forall id, Building.getElevator b id = None <-> Building.isValidElevator b id = false)
  /\ (forall n, Building.getFloor b n = None <-> Building.isValidFloor b n = false)
  /\ (forall id, Building.isValidElevator b id = true <-> 0 <= id < Building.getNumElevators b)
  /\ (forall n, Building.isValidFloor b n = true <-> 1 <= n <= Building.getNumFloors b)
  /\ (forall n fl, Building.getFloor b n = Some fl ->
        Building.hasHallCall n Direction.Up b = Floor.isUpPressed fl
        /\ Building.hasHallCall n Direction.Down b = Floor.isDownPressed fl).
Proof.
  intros [Hfloors Hcars].
  assert (forall id, Building.isValidElevator b id = true <-> 0 <= id < Building.getNumElevators b)
    as Hve.
  { intros id. unfold Building.isValidElevator, Building.getNumElevators.
    rewrite andb_true_iff, !bool_decide_eq_true. lia. }
  assert (forall n, Building.isValidFloor b n = true <-> 1 <= n <= Building.getNumFloors b)
    as Hvf.
  { intros n. unfold Building.isValidFloor, Building.getNumFloors.
    rewrite andb_true_iff, !bool_decide_eq_true. lia. }
  split; [|split; [|split; [done|split; [done|]]]].
  - intros id. unfold Building.getElevator.
    destruct (Building.isValidElevator b id) eqn:Hid; [|done].
    apply Hve in Hid. unfold Building.getNumElevators in Hid.
    split; [|done]. intros Hnone. apply lookup_ge_None in Hnone. lia.
  - intros n. unfold Building.getFloor.
    destruct (Building.isValidFloor b n) eqn:Hn; [|done].
    apply Hvf in Hn. unfold Building.getNumFloors in Hn.
    split; [|done]. intros Hnone. apply lookup_ge_None in Hnone. lia.
  - intros n fl. unfold Building.getFloor, Building.hasHallCall.
    destruct (Building.isValidFloor b n); [|done]. cbn [negb]. by intros ->.
Qed.

Lemma getElevator_getFloor_throw_iff_invalid_witness :
  (forall id, Building.getElevator (scenarioC Direction.Up) id = None
              <-> Building.isValidElevator (scenarioC Direction.Up) id = false)
  /\ Building.getElevator (scenarioC Direction.Up) 2 = None
  /\ Building.getFloor (scenarioC Direction.Up) 0 = None.
Proof.
  split; [|split; reflexivity].
  apply (getElevator_getFloor_throw_iff_invalid (scenarioC Direction.Up)).
  split; reflexivity.
Defined.

(** ** Building: hall calls *)

(** On a well-formed building, for a valid floor and a direction Up or
    Down: a registered call is seen by [hasHallCall], a cleared one is not,
    and neither operation changes the answer for any other floor or
    direction.  Both keep the building well formed. *)
Theorem hallCall_register_clear_query (b : Building.t) (f : Z) (d : Direction.t)
    (f' : Z) (d' : Direction.t) :
  Building.wf b ->
  Building.isValidFloor b f = true ->
  d <> Direction.Idle ->
  Building.hasHallCall f d (Building.registerHallCall f d b) = true
  /\ Building.hasHallCall f d (Building.clearHallCall f d b) = false
  /\ ((f', d') <> (f, d) ->
      Building.hasHallCall f' d' (Building.registerHallCall f d b)
      = Building.hasHallCall f' d' b
      /\ Building.hasHallCall f' d' (Building.clearHallCall f d b)
         = Building.hasHallCall f' d' b)
  /\ Building.wf (Building.registerHallCall f d b)
  /\ Building.wf (Building.clearHallCall f d b).
Proof.
  intros [Hfloors Hcars] Hf Hd.
  assert (1 <= f <= numFloors (Building.config_ b)) as Hrange.
  { unfold Building.isValidFloor in Hf. apply andb_true_iff in Hf as [H1 H2].
    apply bool_decide_eq_true in H1, H2. lia. }
  destruct (lookup_lt_is_Some_2 (Building.floors_ b) (Z.to_nat (f - 1))) as [fl Hfl]; [lia|].
  assert (forall g, Building.isValidFloor (Building.updateFloor b f g) = Building.isValidFloor b)
    as Hvalid by done.
  assert (forall g n, n <> f -> Building.isValidFloor b n = true ->
            Building.floors_ (Building.updateFloor b f g) !! Z.to_nat (n - 1)
            = Building.floors_ b !! Z.to_nat (n - 1)) as Hother.
  { intros g n Hn Hv. cbn. apply list_lookup_alter_ne.
    unfold Building.isValidFloor in Hv. apply andb_true_iff in Hv as [H1 H2].
    apply bool_decide_eq_true in H1, H2. lia. }
  unfold Building.registerHallCall, Building.clearHallCall, Building.hasHallCall.
  rewrite Hf. cbn [negb].
  destruct d; [| |done]; rewrite !Hvalid, ?Hf; cbn [negb Building.updateFloor Building.floors_];
    rewrite ?list_lookup_alter_eq, ?Hfl; cbn.
  all: split; [done|]; split; [done|].
  all: split; [|split; split; cbn; rewrite ?length_alter; done].
  all: intros Hne; destruct (Building.isValidFloor b f') eqn:Hf'; [|done]; cbn [negb].
  all: destruct (decide (f' = f)) as [->|Hff];
    [rewrite !list_lookup_alter_eq, Hfl; cbn; destruct d'; try done; congruence
    |rewrite !list_lookup_alter_ne; [done| |];
     unfold Building.isValidFloor in Hf'; apply andb_true_iff in Hf' as [H1 H2];
     apply bool_decide_eq_true in H1, H2; lia].
Qed.

Lemma hallCall_register_clear_query_witness :
  Building.hasHallCall 8 Direction.Up
    (Building.registerHallCall 8 Direction.Up (scenarioC Direction.Up)) = true
  /\ Building.hasHallCall 8 Direction.Up
       (Building.clearHallCall 8 Direction.Up (scenarioC Direction.Up)) = false
  /\ ((8, Direction.Down) <> (8, Direction.Up) ->
      Building.hasHallCall 8 Direction.Down
        (Building.registerHallCall 8 Direction.Up (scenarioC Direction.Up))
      = Building.hasHallCall 8 Direction.Down (scenarioC Direction.Up)
      /\ Building.hasHallCall 8 Direction.Down
           (Building.clearHallCall 8 Direction.Up (scenarioC Direction.Up))
         = Building.hasHallCall 8 Direction.Down (scenarioC Direction.Up))
  /\ Building.wf (Building.registerHallCall 8 Direction.Up (scenarioC Direction.Up))
  /\ Building.wf (Building.clearHallCall 8 Direction.Up (scenarioC Direction.Up)).
Proof.
  apply (hallCall_register_clear_query (scenarioC Direction.Up) 8 Direction.Up 8 Direction.Down).
  - split; reflexivity.
  - reflexivity.
  - discriminate.
Defined.

Lemma step_changes st s s' :
  step st s = Some s' ->
  exists reg, changes reg (SimulationEngine.building_ s) (SimulationEngine.building_ s').
Proof.
  destruct st as [floor dir|elevatorId floor| |]; cbn [step]; intros Hstep.
  - injection Hstep as <-. exists None. left.
    unfold SimulationEngine.requestHallCall.
    destruct (negb _); [apply carsStep_refl|].
    repeat case_decide; apply carsStep_refl.
  - injection Hstep as <-. exists None. left.
    unfold SimulationEngine.requestCarCall.
    repeat (destruct (negb _)); apply carsStep_refl.
  - destruct (SimulationEngine.processTick s) as [s1|] eqn:Htick; [|done].
    injection Hstep as <-. exists None. left.
    by destruct (processTick_step _ _ Htick) as [Hcars _].
  - destruct (EventQueue.tryPop _) as [[event|] q]; [|injection Hstep as <-].
    + exists (registers event). by destruct (processEvent_changes _ _ _ Hstep) as [Hch _].
    + exists None. left. apply carsStep_refl.
Qed.

Lemma floorsNumbered_updateFloor b f g :
  (forall fl, Floor.floorNumber_ (g fl) = Floor.floorNumber_ fl) ->
  floorsNumbered b -> floorsNumbered (Building.updateFloor b f g).
Proof.
  intros Hg Hb i fl. cbn. rewrite list_lookup_alter. case_decide as Hi; [|apply Hb].
  subst i. destruct (Building.floors_ b !! Z.to_nat (f - 1)) as [fl0|] eqn:Hfl; [|done].
  intros [= <-]. rewrite Hg. by apply Hb.
Qed.

Lemma floorsNumbered_changes reg b b' :
  changes reg b b' -> floorsNumbered b -> floorsNumbered b'.
Proof.
  assert (forall b1 b2, carsStep b1 b2 -> floorsNumbered b1 -> floorsNumbered b2) as Hcars.
  { intros b1 b2 (_ & Hfl & _) H1 i fl. rewrite Hfl. apply H1. }
  intros [H|[(f & d & _ & H)|(f & d & H)]] Hb; [by eapply Hcars| |].
  - eapply Hcars; [exact H|]. unfold Building.registerHallCall.
    destruct (negb _); [done|].
    destruct d; [| |done]; by apply floorsNumbered_updateFloor.
  - eapply Hcars; [exact H|]. unfold Building.clearHallCall.
    destruct (negb _); [done|].
    destruct d; [| |done]; by apply floorsNumbered_updateFloor.
Qed.

Lemma run_floorsNumbered steps : forall s s',
  run steps s = Some s' ->
  floorsNumbered (SimulationEngine.building_ s) ->
  floorsNumbered (SimulationEngine.building_ s').
Proof.
  induction steps as [|st steps IH]; intros s s' Hrun Hs; cbn [run] in Hrun.
  - by injection Hrun as <-.
  - destruct (step st s) as [s1|] eqn:Hstep; [|done]. cbn in Hrun.
    apply (IH _ _ Hrun). destruct (step_changes _ _ _ Hstep) as [reg Hch].
    by eapply floorsNumbered_changes.
Qed.

Lemma reachable_floorsNumbered s :
  reachable s -> floorsNumbered (SimulationEngine.building_ s).
Proof.
  intros (config & s0 & steps & Hnew & Hrun).
  apply (run_floorsNumbered _ _ _ Hrun).
  unfold SimulationEngine.new in Hnew.
  destruct (Building.new config) as [b|] eqn:Hb; [|done]. injection Hnew as <-. cbn.
  unfold Building.new in Hb. case_decide; [done|]. injection Hb as <-.
  intros i fl. cbn. rewrite list_lookup_fmap.
  destruct (seqZ 1 (numFloors config) !! i) as [n|] eqn:Hn; [|done].
  apply lookup_seqZ in Hn as [-> _]. intros [= <-]. cbn. lia.
Qed.

(** In every state of a run, [getAllHallCalls] lists exactly the pairs
    (floor, direction) for which [hasHallCall] answers true, and every
    listed floor is a floor of the building. *)
Theorem getAllHallCalls_lists_what_hasHallCall_sees (s : SimulationEngine.t) :
  reachable s ->
  forall f d,
    (f, d) ∈ Building.getAllHallCalls (SimulationEngine.building_ s)
    <-> Building.hasHallCall f d (SimulationEngine.building_ s) = true.
Proof.
  intros Hs f d.
  pose proof (reachable_floorsNumbered _ Hs) as Hnum.
  destruct (reachable_wellFormed _ Hs) as [[Hfloors _] _].
  rewrite getAllHallCalls_elem. unfold Building.hasHallCall, Building.isValidFloor.
  split.
  - intros (fl & Hin & Hf & Hpressed).
    apply list_elem_of_lookup in Hin as [i Hi].
    pose proof (Hnum _ _ Hi) as Hfi.
    pose proof (lookup_lt_Some _ _ _ Hi) as Hlt.
    rewrite !bool_decide_eq_true_2 by lia. cbn [andb negb].
    replace (Z.to_nat (f - 1)) with i by lia. rewrite Hi.
    unfold Floor.isUpPressed, Floor.isDownPressed.
    by destruct Hpressed as [[-> ->]|[-> ->]].
  - repeat case_bool_decide; cbn [andb negb]; try done.
    destruct (Building.floors_ _ !! Z.to_nat (f - 1)) as [fl|] eqn:Hfl; [|done].
    intros Hpressed. exists fl. split; [by eapply list_elem_of_lookup_2|].
    split; [rewrite (Hnum _ _ Hfl); lia|].
    destruct d; [by left | by right | done].
Qed.

Lemma getAllHallCalls_lists_what_hasHallCall_sees_witness :
  exists s, sampleRun = Some s
    /\ forall f d,
         (f, d) ∈ Building.getAllHallCalls (SimulationEngine.building_ s)
         <-> Building.hasHallCall f d (SimulationEngine.building_ s) = true.
Proof.
  eexists. split; [vm_compute; reflexivity|].
  apply getAllHallCalls_lists_what_hasHallCall_sees.
  eexists scenarioAConfig, _, sampleSteps.
  split; [vm_compute; reflexivity|]. vm_compute. reflexivity.
Defined.

(** ** EventQueue: the non-blocking side *)

Section EventQueueMore.
Context {T : Type}.
Implicit Types (q : EventQueue.t T) (x : T) (items : list T).

Lemma tryPopAll_drains items : forall q (fuel : nat),
  EventQueue.queue_ q = items -> (length items < fuel)%nat ->
  tryPopAll fuel q = (items, {| EventQueue.queue_ := []; EventQueue.shutdown_ := EventQueue.shutdown_ q |}).
Proof.
  induction items as [|x items IH]; intros [queue closed] fuel Hq Hfuel;
    cbn in Hq; subst queue; (destruct fuel as [|fuel]; [cbn in Hfuel; lia|]).
  - done.
  - cbn [tryPopAll EventQueue.tryPop EventQueue.queue_ EventQueue.shutdown_].
    rewrite (IH {| EventQueue.queue_ := items; EventQueue.shutdown_ := closed |} fuel eq_refl)
      by (cbn in Hfuel; lia).
    done.
Qed.

(** [tryPop] never blocks and does not look at the shutdown flag: after
    any pushes, successive [tryPop]s hand out what was queued, oldest
    first, then report the empty queue, and the flag is as it was. *)
Theorem tryPop_is_fifo q items :
  tryPopAll (S (EventQueue.size q + length items)) (pushAll items q)
  = (EventQueue.queue_ q ++ items,
     {| EventQueue.queue_ := []; EventQueue.shutdown_ := EventQueue.shutdown_ q |})
  /\ EventQueue.size (pushAll items q) = (EventQueue.size q + length items)%nat
  /\ (EventQueue.empty (pushAll items q) = true <-> EventQueue.size q = 0%nat /\ items = []).
Proof.
  split; [|split].
  - rewrite (tryPopAll_drains (EventQueue.queue_ q ++ items)).
    + by rewrite shutdown_pushAll.
    + apply queue_pushAll.
    + rewrite length_app. unfold EventQueue.size. lia.
  - unfold EventQueue.size. by rewrite queue_pushAll, length_app.
  - unfold EventQueue.empty, EventQueue.size. rewrite queue_pushAll.
    destruct (EventQueue.queue_ q) as [|y r]; destruct items as [|x items]; cbn;
      split; try done; intros [? ?]; done.
Qed.

(** The blocking [pop] suspends the caller exactly when the queue is empty
    and not shut down.  Whenever it returns, it returns what [tryPop]
    returns: the oldest event, or nothing from an empty queue that was shut
    down.  [shutdown] drops no event, and [reset] gives back a new queue. *)
Theorem pop_blocks_or_agrees_with_tryPop q :
  (EventQueue.pop q = EventQueue.Blocked
   <-> EventQueue.empty q = true /\ EventQueue.isShutdown q = false)
  /\ (EventQueue.empty q = false \/ EventQueue.isShutdown q = true ->
      EventQueue.pop q
      = EventQueue.Returned (EventQueue.tryPop q).1 (EventQueue.tryPop q).2)
  /\ (EventQueue.empty q = false ->
      EventQueue.pop (EventQueue.shutdown q)
      = EventQueue.Returned (EventQueue.tryPop q).1 (EventQueue.shutdown (EventQueue.tryPop q).2))
  /\ EventQueue.reset q = EventQueue.new.
Proof.
  destruct q as [[|x r] [|]]; cbn; repeat split; try done;
    try (intros [? ?]; done); try (intros [?|?]; done).
Qed.
End EventQueueMore.

(** ** std::map: the order of the keys *)

Lemma key_lt_spec a b :
  HallMap.key_lt a b = true
  <-> a.1 < b.1 \/ (a.1 = b.1 /\ Direction.rank a.2 < Direction.rank b.2).
Proof.
  unfold HallMap.key_lt. by rewrite orb_true_iff, andb_true_iff, !bool_decide_eq_true.
Qed.

Lemma key_lt_irrefl a : HallMap.key_lt a a = false.
Proof. apply not_true_iff_false. rewrite key_lt_spec. lia. Qed.

Lemma key_lt_trans a b c :
  HallMap.key_lt a b = true -> HallMap.key_lt b c = true -> HallMap.key_lt a c = true.
Proof. rewrite !key_lt_spec. lia. Qed.

Lemma key_lt_total a b : HallMap.key_lt a b = false -> a <> b -> HallMap.key_lt b a = true.
Proof.
  intros H Hne. apply not_true_iff_false in H. rewrite key_lt_spec in *.
  destruct a as [fa da], b as [fb db]; cbn in *.
  destruct (decide (fa = fb)) as [->|Hf]; [|lia].
  right. split; [done|]. destruct da, db; cbn in *; first [lia | congruence].
Qed.

Lemma HallMap_sorted_cons k w m :
  HallMap.sorted ((k, w) :: m)
  <-> (forall entry, entry ∈ m -> HallMap.key_lt k entry.1 = true) /\ HallMap.sorted m.
Proof.
  revert k w. induction m as [|[k' w'] r IH]; intros k w.
  - cbn. split; [|done]. intros _. split; [|done]. intros entry H. by apply elem_of_nil in H.
  - change (HallMap.sorted ((k, w) :: (k', w') :: r))
      with (HallMap.key_lt k k' = true /\ HallMap.sorted ((k', w') :: r)).
    split.
    + intros [Hk Hs]. split; [|done]. intros entry Hentry.
      apply elem_of_cons in Hentry as [->|Hentry]; [done|].
      apply IH in Hs as [Habove _]. eapply key_lt_trans; [exact Hk | by apply Habove].
    + intros [Habove Hs]. split; [|done]. apply (Habove (k', w')), list_elem_of_here.
Qed.

Lemma HallMap_find_Some key v m : HallMap.find key m = Some v -> (key, v) ∈ m.
Proof.
  induction m as [|[k w] r IH]; cbn [HallMap.find]; [done|].
  case_decide; [intros [= ->]; subst; apply list_elem_of_here|].
  intros Hfind. by apply list_elem_of_further, IH.
Qed.

Lemma HallMap_find_elem key v m :
  HallMap.sorted m -> (key, v) ∈ m -> HallMap.find key m = Some v.
Proof.
  induction m as [|[k w] r IH]; intros Hs Hin; [by apply elem_of_nil in Hin|].
  apply HallMap_sorted_cons in Hs as [Habove Hs]. cbn [HallMap.find].
  apply elem_of_cons in Hin as [[= -> ->]|Hin]; [by rewrite decide_True|].
  case_decide as Hk; [|by apply IH].
  subst k. specialize (Habove _ Hin). cbn in Habove. by rewrite key_lt_irrefl in Habove.
Qed.

Lemma HallMap_find_assign_ne key key' v m :
  key' <> key -> HallMap.find key' (HallMap.assign key v m) = HallMap.find key' m.
Proof.
  intros Hne. induction m as [|[k w] r IH]; cbn [HallMap.assign HallMap.find].
  - by rewrite decide_False.
  - destruct (HallMap.key_lt key k); cbn [HallMap.find].
    + by rewrite (decide_False (P := key' = key)).
    + destruct (decide (key = k)) as [->|Hk]; cbn [HallMap.find].
      * by rewrite !(decide_False (P := key' = k)).
      * by rewrite IH.
Qed.

Lemma HallMap_find_erase_ne key key' m :
  key' <> key -> HallMap.find key' (HallMap.erase key m) = HallMap.find key' m.
Proof.
  intros Hne. induction m as [|[k w] r IH]; cbn [HallMap.erase HallMap.find]; [done|].
  destruct (decide (key = k)) as [->|Hk]; cbn [HallMap.find].
  - by rewrite (decide_False (P := key' = k)).
  - by rewrite IH.
Qed.

Lemma HallMap_find_erase key m :
  HallMap.sorted m -> HallMap.find key (HallMap.erase key m) = None.
Proof.
  induction m as [|[k w] r IH]; intros Hs; [done|].
  apply HallMap_sorted_cons in Hs as [Habove Hs]. cbn [HallMap.erase].
  destruct (decide (key = k)) as [->|Hk].
  - destruct (HallMap.find k r) as [v|] eqn:Hfind; [|done].
    apply HallMap_find_Some, Habove in Hfind. cbn in Hfind.
    by rewrite key_lt_irrefl in Hfind.
  - cbn [HallMap.find]. rewrite decide_False by done. by apply IH.
Qed.

Lemma HallMap_elem_of_assign entry key v m :
  entry ∈ HallMap.assign key v m -> entry = (key, v) \/ entry ∈ m.
Proof.
  induction m as [|[k w] r IH]; cbn [HallMap.assign]; intros He.
  - apply elem_of_cons in He as [->|He]; [by left | by right].
  - destruct (HallMap.key_lt key k).
    { apply elem_of_cons in He as [->|He]; [by left | by right]. }
    case_decide as Hk.
    + subst k. apply elem_of_cons in He as [->|He];
        [by left | right; by apply list_elem_of_further].
    + apply elem_of_cons in He as [->|He]; [right; apply list_elem_of_here|].
      destruct (IH He) as [->|Hr]; [by left | right; by apply list_elem_of_further].
Qed.

Lemma HallMap_elem_of_erase entry key m : entry ∈ HallMap.erase key m -> entry ∈ m.
Proof.
  induction m as [|[k w] r IH]; cbn [HallMap.erase]; intros He; [done|].
  case_decide; [by apply list_elem_of_further|].
  apply elem_of_cons in He as [->|He];
    [apply list_elem_of_here | by apply list_elem_of_further, IH].
Qed.

Lemma HallMap_sorted_assign key v m :
  HallMap.sorted m -> HallMap.sorted (HallMap.assign key v m).
Proof.
  induction m as [|[k w] r IH]; intros Hs; cbn [HallMap.assign]; [done|].
  destruct (HallMap.key_lt key k) eqn:Hlt; [by split|].
  apply HallMap_sorted_cons in Hs as [Habove Hs].
  destruct (decide (key = k)) as [->|Hk]; apply HallMap_sorted_cons; [done|].
  split; [|by apply IH].
  intros entry Hentry. apply HallMap_elem_of_assign in Hentry as [->|Hentry];
    [by apply key_lt_total | by apply Habove].
Qed.

Lemma HallMap_sorted_erase key m :
  HallMap.sorted m -> HallMap.sorted (HallMap.erase key m).
Proof.
  induction m as [|[k w] r IH]; intros Hs; [done|]. cbn [HallMap.erase].
  apply HallMap_sorted_cons in Hs as [Habove Hs].
  case_decide; [done|]. apply HallMap_sorted_cons.
  split; [|by apply IH]. intros entry Hentry.
  by apply HallMap_elem_of_erase, Habove in Hentry.
Qed.

(** ** What a run keeps: cars, tables and queued events *)

Lemma IntSet_elem_of_insert g x s : g ∈ IntSet.insert x s -> g = x \/ g ∈ s.
Proof.
  induction s as [|y r IH]; cbn [IntSet.insert]; intros Hg.
  - apply elem_of_cons in Hg as [->|Hg]; [by left | by right].
  - repeat case_decide; [apply elem_of_cons in Hg as [->|Hg]; [by left | by right]
                        | by right |].
    apply elem_of_cons in Hg as [->|Hg]; [right; apply list_elem_of_here|].
    destruct (IH Hg) as [->|Hr]; [by left | right; by apply list_elem_of_further].
Qed.

Lemma IntSet_elem_of_erase g x s : g ∈ IntSet.erase x s -> g ∈ s.
Proof.
  induction s as [|y r IH]; cbn [IntSet.erase]; intros Hg; [done|].
  case_decide; [by apply list_elem_of_further|].
  apply elem_of_cons in Hg as [->|Hg];
    [apply list_elem_of_here | by apply list_elem_of_further, IH].
Qed.

Lemma min_element_from_elem {A} (comp : A -> A -> bool) l : forall m,
  min_element_from comp m l ∈ m :: l.
Proof.
  induction l as [|x l IH]; intros m; cbn [min_element_from]; [apply list_elem_of_here|].
  specialize (IH (if comp x m then x else m)).
  apply elem_of_cons in IH as [->|IH]; [|by do 2 apply list_elem_of_further].
  destruct (comp x m); [apply list_elem_of_further|]; apply list_elem_of_here.
Qed.

Lemma min_element_elem {A} (comp : A -> A -> bool) l r :
  min_element comp l = Some r -> r ∈ l.
Proof. destruct l as [|x l]; [done|]. intros [= <-]. apply min_element_from_elem. Qed.

Section RunInvariant.
Variable cfg : Config.

Lemma new_carInv id capacity : carInv cfg (Elevator.new id capacity 1).
Proof.
  split; [cbn; lia|]. split; [intros f Hf; by apply elem_of_nil in Hf|].
  split; [done | cbn; lia].
Qed.

Lemma fleetInv_getElevator b id e :
  fleetInv cfg b -> Building.getElevator b id = Some e ->
  carInv cfg e /\ 0 <= id < numElevators cfg.
Proof.
  intros (Hcfg & _ & Hcars) He. apply getElevator_Some in He as [Hid He].
  rewrite Hcfg in Hid. split; [|done]. by eapply Forall_lookup_1.
Qed.

Lemma fleetInv_getElevator_total b id :
  fleetInv cfg b -> 0 <= id < numElevators cfg ->
  exists e, Building.getElevator b id = Some e /\ carInv cfg e.
Proof.
  intros Hb Hid. destruct Hb as (Hcfg & Hwf & Hcars).
  destruct (getElevator_wf b id Hwf) as [e He]; [by rewrite Hcfg|].
  exists e. split; [done|]. by eapply fleetInv_getElevator.
Qed.

Lemma fleetInv_setElevator b id e :
  fleetInv cfg b -> carInv cfg e -> fleetInv cfg (Building.setElevator b id e).
Proof.
  intros (Hcfg & [Hfloors Hlen] & Hcars) He. split; [done|]. split.
  - split; cbn; [done|]. by rewrite length_insert.
  - cbn. by apply Forall_insert.
Qed.

Lemma fleetInv_registerHallCall f d b :
  fleetInv cfg b -> fleetInv cfg (Building.registerHallCall f d b).
Proof.
  intros (Hcfg & [Hfloors Hlen] & Hcars).
  split; [by rewrite registerHallCall_config|]. split.
  - split; [by rewrite registerHallCall_floors_length, registerHallCall_config
           | by rewrite registerHallCall_elevators, registerHallCall_config].
  - by rewrite registerHallCall_elevators.
Qed.

Lemma fleetInv_clearHallCall f d b :
  fleetInv cfg b -> fleetInv cfg (Building.clearHallCall f d b).
Proof.
  intros (Hcfg & [Hfloors Hlen] & Hcars).
  split; [by rewrite clearHallCall_config|]. split.
  - split; [by rewrite clearHallCall_floors_length, clearHallCall_config
           | by rewrite clearHallCall_elevators, clearHallCall_config].
  - by rewrite clearHallCall_elevators.
Qed.

Lemma goToClosest_fleetInv id e destinations b :
  fleetInv cfg b -> Building.getElevator b id = Some e ->
  (forall f, f ∈ destinations -> 1 <= f <= numFloors cfg) ->
  fleetInv cfg (goToClosest id e destinations b).
Proof.
  intros Hb He Hdest. destruct (fleetInv_getElevator _ _ _ Hb He) as [(Hcur & Hcalls & Hmov & Ht) _].
  unfold goToClosest. destruct (IntSet.empty destinations); [done|].
  destruct (min_element _ destinations) as [target|] eqn:Hmin; [|done].
  apply min_element_elem, Hdest in Hmin.
  destruct Hb as (Hcfg & Hb'). unfold Building.getConfig, Elevator.getCurrentFloor.
  rewrite Hcfg.
  repeat case_decide; apply fleetInv_setElevator; try done.
  all: split; [exact Hcur|]; split; [exact Hcalls|]; split; [|cbn; intros; lia].
  all: cbn; first [ done
                  | intros _; left; split; [done | lia]
                  | intros _; right; split; [done | lia] ].
Qed.
Lemma isValidElevator_iff b id :
  Building.isValidElevator b id = true <-> 0 <= id < numElevators (Building.config_ b).
Proof.
  unfold Building.isValidElevator. rewrite andb_true_iff, !bool_decide_eq_true. lia.
Qed.

Lemma isValidFloor_iff b n :
  Building.isValidFloor b n = true <-> 1 <= n <= numFloors (Building.config_ b).
Proof.
  unfold Building.isValidFloor. rewrite andb_true_iff, !bool_decide_eq_true. lia.
Qed.

Lemma carInv_addCarCall f e :
  1 <= f <= numFloors cfg -> carInv cfg e -> carInv cfg (Elevator.addCarCall f e).
Proof.
  intros Hf (Hcur & Hcalls & Hmov & Ht).
  split; [exact Hcur|]. split; [|split; [exact Hmov | exact Ht]].
  intros g Hg. cbn in Hg. apply IntSet_elem_of_insert in Hg as [->|Hg]; [done | by apply Hcalls].
Qed.

Lemma carInv_removeCarCall f e : carInv cfg e -> carInv cfg (Elevator.removeCarCall f e).
Proof.
  intros (Hcur & Hcalls & Hmov & Ht).
  split; [exact Hcur|]. split; [|split; [exact Hmov | exact Ht]].
  intros g Hg. cbn in Hg. by apply IntSet_elem_of_erase, Hcalls in Hg.
Qed.

Lemma tableInv_assign lowest key v m :
  1 <= key.1 <= numFloors cfg -> lowest <= v -> (0 <= v -> v < numElevators cfg) ->
  tableInv cfg lowest m -> tableInv cfg lowest (HallMap.assign key v m).
Proof.
  intros Hkey Hlow Hv [Hm Hs]. split; [|by apply HallMap_sorted_assign].
  apply list.Forall_forall. intros entry Hentry.
  apply HallMap_elem_of_assign in Hentry as [->|Hentry]; [done|].
  by eapply list.Forall_forall in Hm.
Qed.

Lemma tableInv_erase lowest key m :
  tableInv cfg lowest m -> tableInv cfg lowest (HallMap.erase key m).
Proof.
  intros [Hm Hs]. split; [|by apply HallMap_sorted_erase].
  apply list.Forall_forall. intros entry Hentry.
  apply HallMap_elem_of_erase in Hentry. by eapply list.Forall_forall in Hm.
Qed.

(** *** MasterController *)

Lemma destinations_step_range id lowest (l : HallMap.t) : forall acc,
  Forall (entryInv cfg lowest) l ->
  (forall f, f ∈ acc -> 1 <= f <= numFloors cfg) ->
  forall f,
    f ∈ foldl (fun destinations (entry : HallCallKey * Z) =>
                 if decide (entry.2 = id) then IntSet.insert entry.1.1 destinations
                 else destinations) acc l ->
    1 <= f <= numFloors cfg.
Proof.
  induction l as [|entry l IH]; intros acc Hl Hacc; cbn [foldl]; [done|].
  apply IH; [by eapply Forall_inv_tail|].
  intros f Hf. case_decide; [|by apply Hacc].
  apply IntSet_elem_of_insert in Hf as [->|Hf]; [|by apply Hacc].
  apply Forall_inv in Hl. apply Hl.
Qed.

Lemma Master_dispatchElevator_safe m id b :
  fleetInv cfg b -> tableInv cfg 0 (MasterController.assignments_ m) ->
  0 <= id < numElevators cfg ->
  exists b', MasterController.dispatchElevator m id b = Some b' /\ fleetInv cfg b'.
Proof.
  intros Hb Hm Hid. destruct (fleetInv_getElevator_total _ _ Hb Hid) as (e & He & Hinv).
  unfold MasterController.dispatchElevator. rewrite He. cbn [mbind option_bind].
  case_decide; (eexists; split; [reflexivity|]); [done|].
  apply goToClosest_fleetInv; [done|done|].
  apply destinations_step_range with (lowest := 0); [apply Hm|]. apply Hinv.
Qed.

Lemma Master_handleHallCall_safe floor dir b m :
  1 <= floor <= numFloors cfg ->
  fleetInv cfg b -> tableInv cfg 0 (MasterController.assignments_ m) ->
  (exists b' m',
     MasterController.handleHallCall floor dir (b, m) = Some (b', m')
     /\ fleetInv cfg b' /\ tableInv cfg 0 (MasterController.assignments_ m'))
  \/ (MasterController.handleHallCall floor dir (b, m) = None
      /\ hallCallBlocks floor dir (b, m) = true).
Proof.
  intros Hfloor Hb Hm. unfold hallCallBlocks. rewrite handleHallCall_assignHallCall.
  unfold MasterController.assignHallCall.
  case_decide; [left; by eexists _, _|].
  pose proof (fleetInv_registerHallCall floor dir b Hb) as Hb1.
  destruct (selectElevator_spec (Building.registerHallCall floor dir b) floor dir)
    as (r & Hsel & Hr); [apply Hb1|].
  rewrite Hsel. cbn [mbind option_bind].
  case_decide as Hge; [|left; by eexists _, _].
  destruct Hr as [[-> _]|[_ (e & He & _)]]; [lia|].
  destruct (fleetInv_getElevator _ _ _ Hb1 He) as [_ Hid].
  assert (tableInv cfg 0
            (HallMap.assign (floor, dir) r (MasterController.assignments_ m))) as Hm'
    by (apply tableInv_assign; [done | lia | lia | done]).
  cbn [mbind option_bind fst snd].
  rewrite (dispatchElevator_locked_spec _ _ _ He), He. unfold Elevator.getState.
  destruct (decide (Elevator.state_ e = ElevatorState.Idle)) as [Hidle|Hbusy].
  - right. split; [done|]. by apply bool_decide_eq_true.
  - left. cbn. by eexists _, _.
Qed.

Lemma hallCallBlocks_None floor dir s :
  hallCallBlocks floor dir s = true -> MasterController.handleHallCall floor dir s = None.
Proof.
  unfold hallCallBlocks. rewrite handleHallCall_assignHallCall.
  destruct (MasterController.assignHallCall floor dir s) as [[[b m] [id|]]|];
    cbn [mbind option_bind fst snd]; try done.
  unfold MasterController.dispatchElevator_locked.
  destruct (Building.getElevator b id) as [e|]; cbn [mbind option_bind]; [|done].
  intros Hidle. apply bool_decide_eq_true in Hidle.
  rewrite decide_False; [done | tauto].
Qed.

Lemma Master_handleCarCall_safe c f b m :
  fleetInv cfg b -> tableInv cfg 0 (MasterController.assignments_ m) ->
  exists b' m',
    MasterController.handleCarCall c f (b, m) = Some (b', m')
    /\ fleetInv cfg b' /\ tableInv cfg 0 (MasterController.assignments_ m').
Proof.
  intros Hb Hm. unfold MasterController.handleCarCall.
  destruct (negb (Building.isValidElevator b c) || negb (Building.isValidFloor b f))
    eqn:Hvalid; [by eexists _, _|].
  apply orb_false_iff in Hvalid as [Hc Hf]. apply negb_false_iff in Hc, Hf.
  apply isValidElevator_iff in Hc. apply isValidFloor_iff in Hf.
  pose proof Hb as (Hcfg & _). rewrite Hcfg in Hc, Hf.
  destruct (fleetInv_getElevator_total _ _ Hb Hc) as (e & He & Hinv).
  rewrite He. cbn [mbind option_bind].
  destruct (Master_dispatchElevator_safe m c
              (Building.setElevator b c (Elevator.addCarCall f e))) as (b' & Hd & Hb');
    [by apply fleetInv_setElevator, carInv_addCarCall | done | done |].
  rewrite Hd. cbn. by eexists _, _.
Qed.

Lemma Master_onElevatorArrived_safe c f b m :
  0 <= c < numElevators cfg ->
  fleetInv cfg b -> tableInv cfg 0 (MasterController.assignments_ m) ->
  exists b' m',
    MasterController.onElevatorArrived c f (b, m) = Some (b', m')
    /\ fleetInv cfg b' /\ tableInv cfg 0 (MasterController.assignments_ m').
Proof.
  intros Hc Hb Hm. unfold MasterController.onElevatorArrived.
  destruct (fleetInv_getElevator_total _ _ Hb Hc) as (e & He & Hinv).
  rewrite He. cbn [mbind option_bind].
  case_decide; (eexists _, _; split; [reflexivity|]); split.
  - by apply fleetInv_setElevator, carInv_removeCarCall; [apply fleetInv_clearHallCall|].
  - by apply tableInv_erase.
  - by apply fleetInv_setElevator, carInv_removeCarCall.
  - done.
Qed.

Lemma Master_onDoorsClosed_safe c b m :
  0 <= c < numElevators cfg ->
  fleetInv cfg b -> tableInv cfg 0 (MasterController.assignments_ m) ->
  exists b' m',
    MasterController.onDoorsClosed c (b, m) = Some (b', m')
    /\ fleetInv cfg b' /\ tableInv cfg 0 (MasterController.assignments_ m').
Proof.
  intros Hc Hb Hm. unfold MasterController.onDoorsClosed.
  destruct (Master_dispatchElevator_safe m c b Hb Hm Hc) as (b' & Hd & Hb').
  rewrite Hd. cbn. by eexists _, _.
Qed.

Lemma Master_tick_loop_safe m (n : nat) : forall i b,
  0 <= i -> Z.of_nat n <= Z.max 0 (numElevators cfg - i) ->
  fleetInv cfg b -> tableInv cfg 0 (MasterController.assignments_ m) ->
  exists b', MasterController.tick_loop m n i b = Some b' /\ fleetInv cfg b'.
Proof.
  induction n as [|n IH]; intros i b Hi Hn Hb Hm; cbn [MasterController.tick_loop].
  - by eexists.
  - assert (0 <= i < numElevators cfg) as Hid by lia.
    destruct (fleetInv_getElevator_total _ _ Hb Hid) as (e & He & Hinv).
    rewrite He. cbn [mbind option_bind].
    case_decide.
    + destruct (Master_dispatchElevator_safe m i b Hb Hm Hid) as (b1 & Hd & Hb1).
      rewrite Hd. cbn [mbind option_bind]. apply IH; [lia | lia | done | done].
    + cbn [mbind option_bind]. apply IH; [lia | lia | done | done].
Qed.

Lemma Master_tick_safe b m :
  fleetInv cfg b -> tableInv cfg 0 (MasterController.assignments_ m) ->
  exists b' m',
    MasterController.tick (b, m) = Some (b', m')
    /\ fleetInv cfg b' /\ tableInv cfg 0 (MasterController.assignments_ m').
Proof.
  intros Hb Hm. unfold MasterController.tick, Building.getNumElevators.
  pose proof Hb as (Hcfg & _). rewrite Hcfg.
  destruct (Master_tick_loop_safe m (Z.to_nat (numElevators cfg)) 0 b) as (b' & Ht & Hb');
    [lia | lia | done | done |].
  rewrite Ht. cbn. by eexists _, _.
Qed.
(** *** DistributedController *)

Lemma scanClaim_result current (l : HallMap.t) : forall best,
  (foldl (DistributedController.scanClaim current) best l).1 = best.1
  \/ exists entry,
       entry ∈ l /\ (foldl (DistributedController.scanClaim current) best l).1 = entry.1.
Proof.
  induction l as [|entry l IH]; intros best; cbn [foldl]; [by left|].
  destruct (IH (DistributedController.scanClaim current best entry))
    as [Heq|(en & Hin & Heq)].
  - rewrite Heq. unfold DistributedController.scanClaim.
    repeat case_decide; [|by left|by left].
    right. exists entry. split; [apply list_elem_of_here|]. by destruct entry as [[kf kd] v].
  - right. exists en. split; [by apply list_elem_of_further | done].
Qed.

Lemma Distributed_tryClaimCalls_safe id b d :
  0 <= id < numElevators cfg ->
  fleetInv cfg b -> tableInv cfg (-1) (DistributedController.claimBoard_ d) ->
  exists d', DistributedController.tryClaimCalls id b d = Some d'
    /\ tableInv cfg (-1) (DistributedController.claimBoard_ d').
Proof.
  intros Hid Hb Hd. destruct (fleetInv_getElevator_total _ _ Hb Hid) as (e & He & Hinv).
  unfold DistributedController.tryClaimCalls. rewrite He. cbn [mbind option_bind].
  destruct (_ && _); [by eexists|].
  pose proof (scanClaim_result (Elevator.getCurrentFloor e)
                (DistributedController.claimBoard_ d) (-1, Direction.Idle, INT_MAX)) as Hscan.
  destruct (foldl _ _ _) as [[bestFloor bestDir] bestDistance].
  case_decide as Hge; (eexists; split; [reflexivity|]); [|done].
  cbn [DistributedController.claimBoard_]. apply tableInv_assign; [|lia|lia|done].
  cbn in *. destruct Hscan as [[= -> ->]|(entry & Hin & Heq)]; [lia|].
  destruct Hd as [Hd _].
  eapply list.Forall_forall in Hd; [|exact Hin]. destruct Hd as [Hr _].
  destruct entry as [[kf kd] v]. cbn in Heq, Hr. by injection Heq as -> ->.
Qed.

Lemma claims_step_range (claims : list HallCallKey) : forall acc,
  (forall claim, claim ∈ claims -> 1 <= claim.1 <= numFloors cfg) ->
  (forall f, f ∈ acc -> 1 <= f <= numFloors cfg) ->
  forall f,
    f ∈ foldl (fun destinations (claim : HallCallKey) => IntSet.insert claim.1 destinations)
              acc claims ->
    1 <= f <= numFloors cfg.
Proof.
  induction claims as [|claim claims IH]; intros acc Hclaims Hacc; cbn [foldl]; [done|].
  apply IH; [intros c Hc; by apply Hclaims, list_elem_of_further|].
  intros f Hf. apply IntSet_elem_of_insert in Hf as [->|Hf]; [|by apply Hacc].
  apply Hclaims, list_elem_of_here.
Qed.

Lemma getClaimsFor_range d id :
  tableInv cfg (-1) (DistributedController.claimBoard_ d) ->
  forall claim, claim ∈ DistributedController.getClaimsFor d id ->
    1 <= claim.1 <= numFloors cfg.
Proof.
  intros Hd claim Hc. unfold DistributedController.getClaimsFor in Hc.
  apply list_elem_of_fmap in Hc as (entry & -> & Hin).
  apply list_elem_of_filter in Hin as [_ Hin]. destruct Hd as [Hd _].
  eapply list.Forall_forall in Hd; [|exact Hin]. apply Hd.
Qed.

Lemma Distributed_decideNextAction_safe d id b :
  fleetInv cfg b -> tableInv cfg (-1) (DistributedController.claimBoard_ d) ->
  0 <= id < numElevators cfg ->
  exists b', DistributedController.decideNextAction d id b = Some b' /\ fleetInv cfg b'.
Proof.
  intros Hb Hd Hid. destruct (fleetInv_getElevator_total _ _ Hb Hid) as (e & He & Hinv).
  unfold DistributedController.decideNextAction. rewrite He. cbn [mbind option_bind].
  case_decide; (eexists; split; [reflexivity|]); [done|].
  apply goToClosest_fleetInv; [done|done|].
  apply claims_step_range; [by apply getClaimsFor_range | apply Hinv].
Qed.

Lemma Distributed_handleHallCall_safe floor dir b d :
  1 <= floor <= numFloors cfg ->
  fleetInv cfg b -> tableInv cfg (-1) (DistributedController.claimBoard_ d) ->
  exists b' d',
    DistributedController.handleHallCall floor dir (b, d) = Some (b', d')
    /\ fleetInv cfg b' /\ tableInv cfg (-1) (DistributedController.claimBoard_ d').
Proof.
  intros Hfloor Hb Hd. unfold DistributedController.handleHallCall.
  case_decide; (eexists _, _; split; [reflexivity|]);
    (split; [by apply fleetInv_registerHallCall|]); [|done].
  cbn. apply tableInv_assign; [done | lia | lia | done].
Qed.

Lemma Distributed_handleCarCall_safe c f b d :
  fleetInv cfg b -> tableInv cfg (-1) (DistributedController.claimBoard_ d) ->
  exists b' d',
    DistributedController.handleCarCall c f (b, d) = Some (b', d')
    /\ fleetInv cfg b' /\ tableInv cfg (-1) (DistributedController.claimBoard_ d').
Proof.
  intros Hb Hd. unfold DistributedController.handleCarCall.
  destruct (negb (Building.isValidElevator b c) || negb (Building.isValidFloor b f))
    eqn:Hvalid; [by eexists _, _|].
  apply orb_false_iff in Hvalid as [Hc Hf]. apply negb_false_iff in Hc, Hf.
  apply isValidElevator_iff in Hc. apply isValidFloor_iff in Hf.
  pose proof Hb as (Hcfg & _). rewrite Hcfg in Hc, Hf.
  destruct (fleetInv_getElevator_total _ _ Hb Hc) as (e & He & Hinv).
  rewrite He. cbn [mbind option_bind].
  destruct (Distributed_decideNextAction_safe d c
              (Building.setElevator b c (Elevator.addCarCall f e))) as (b' & Hd' & Hb');
    [by apply fleetInv_setElevator, carInv_addCarCall | done | done |].
  rewrite Hd'. cbn. by eexists _, _.
Qed.

Lemma Distributed_onElevatorArrived_safe c f b d :
  0 <= c < numElevators cfg ->
  fleetInv cfg b -> tableInv cfg (-1) (DistributedController.claimBoard_ d) ->
  exists b' d',
    DistributedController.onElevatorArrived c f (b, d) = Some (b', d')
    /\ fleetInv cfg b' /\ tableInv cfg (-1) (DistributedController.claimBoard_ d').
Proof.
  intros Hc Hb Hd. unfold DistributedController.onElevatorArrived.
  destruct (fleetInv_getElevator_total _ _ Hb Hc) as (e & He & Hinv).
  rewrite He. cbn [mbind option_bind].
  destruct (DistributedController.hasClaim _ _ _ _);
    (eexists _, _; split; [reflexivity|]); split.
  - by apply fleetInv_setElevator, carInv_removeCarCall; [apply fleetInv_clearHallCall|].
  - by apply tableInv_erase.
  - by apply fleetInv_setElevator, carInv_removeCarCall.
  - done.
Qed.

Lemma Distributed_onDoorsClosed_safe c b d :
  0 <= c < numElevators cfg ->
  fleetInv cfg b -> tableInv cfg (-1) (DistributedController.claimBoard_ d) ->
  exists b' d',
    DistributedController.onDoorsClosed c (b, d) = Some (b', d')
    /\ fleetInv cfg b' /\ tableInv cfg (-1) (DistributedController.claimBoard_ d').
Proof.
  intros Hc Hb Hd. unfold DistributedController.onDoorsClosed.
  destruct (Distributed_decideNextAction_safe d c b Hb Hd Hc) as (b' & Hd' & Hb').
  rewrite Hd'. cbn. by eexists _, _.
Qed.

Lemma Distributed_tick_loop_safe (n : nat) : forall i b d,
  0 <= i -> Z.of_nat n <= Z.max 0 (numElevators cfg - i) ->
  fleetInv cfg b -> tableInv cfg (-1) (DistributedController.claimBoard_ d) ->
  exists b' d',
    DistributedController.tick_loop n i (b, d) = Some (b', d')
    /\ fleetInv cfg b' /\ tableInv cfg (-1) (DistributedController.claimBoard_ d').
Proof.
  induction n as [|n IH]; intros i b d Hi Hn Hb Hd; cbn [DistributedController.tick_loop].
  - by eexists _, _.
  - assert (0 <= i < numElevators cfg) as Hid by lia.
    destruct (Distributed_tryClaimCalls_safe i b d Hid Hb Hd) as (d1 & Hclaim & Hd1).
    rewrite Hclaim. cbn [mbind option_bind].
    destruct (fleetInv_getElevator_total _ _ Hb Hid) as (e & He & Hinv).
    rewrite He. cbn [mbind option_bind].
    case_decide.
    + destruct (Distributed_decideNextAction_safe d1 i b Hb Hd1 Hid) as (b1 & Hact & Hb1).
      rewrite Hact. cbn [mbind option_bind]. apply IH; [lia | lia | done | done].
    + cbn [mbind option_bind]. apply IH; [lia | lia | done | done].
Qed.

Lemma Distributed_tick_safe b d :
  fleetInv cfg b -> tableInv cfg (-1) (DistributedController.claimBoard_ d) ->
  exists b' d',
    DistributedController.tick (b, d) = Some (b', d')
    /\ fleetInv cfg b' /\ tableInv cfg (-1) (DistributedController.claimBoard_ d').
Proof.
  intros Hb Hd. unfold DistributedController.tick, Building.getNumElevators.
  pose proof Hb as (Hcfg & _). cbn [fst]. rewrite Hcfg.
  apply Distributed_tick_loop_safe; [lia | lia | done | done].
Qed.

(** *** The scheduler behind the interface *)

Lemma virtualCall_safe viaMaster viaDistributed :
  (forall b m,
     fleetInv cfg b -> tableInv cfg 0 (MasterController.assignments_ m) ->
     exists b' m', viaMaster (b, m) = Some (b', m')
       /\ fleetInv cfg b' /\ tableInv cfg 0 (MasterController.assignments_ m')) ->
  (forall b d,
     fleetInv cfg b -> tableInv cfg (-1) (DistributedController.claimBoard_ d) ->
     exists b' d', viaDistributed (b, d) = Some (b', d')
       /\ fleetInv cfg b'
       /\ tableInv cfg (-1) (DistributedController.claimBoard_ d')) ->
  forall b sched,
    fleetInv cfg b -> schedulerInv cfg sched ->
    exists b' sched',
      virtualCall viaMaster viaDistributed (b, sched) = Some (b', sched')
      /\ fleetInv cfg b' /\ schedulerInv cfg sched'.
Proof.
  intros HM HD b [m|d] Hb Hs; unfold virtualCall; cbn [fst snd].
  - destruct (HM b m Hb Hs) as (b' & m' & -> & Hb' & Hm'). cbn. by eexists _, _.
  - destruct (HD b d Hb Hs) as (b' & d' & -> & Hb' & Hd'). cbn. by eexists _, _.
Qed.

Lemma Scheduler_handleHallCall_safe f dir b (sched : Scheduler) :
  1 <= f <= numFloors cfg -> fleetInv cfg b -> schedulerInv cfg sched ->
  (exists b' sched', handleHallCall f dir (b, sched) = Some (b', sched')
     /\ fleetInv cfg b' /\ schedulerInv cfg sched')
  \/ (handleHallCall f dir (b, sched) = None
      /\ exists m, sched = MasterSched m /\ hallCallBlocks f dir (b, m) = true).
Proof.
  intros Hf Hb Hsched. destruct sched as [m|d].
  - rewrite handleHallCall_MasterSched.
    destruct (Master_handleHallCall_safe f dir b m Hf Hb Hsched)
      as [(b' & m' & -> & Hb' & Hm')|[-> Hblocks]].
    + left. by exists b', (MasterSched m').
    + right. split; [done|]. by exists m.
  - rewrite handleHallCall_DistributedSched.
    destruct (Distributed_handleHallCall_safe f dir b d Hf Hb Hsched)
      as (b' & d' & -> & Hb' & Hd').
    left. by exists b', (DistributedSched d').
Qed.

Lemma Scheduler_handleCarCall_safe c f b (sched : Scheduler) :
  fleetInv cfg b -> schedulerInv cfg sched ->
  exists b' sched', handleCarCall c f (b, sched) = Some (b', sched')
    /\ fleetInv cfg b' /\ schedulerInv cfg sched'.
Proof.
  exact (virtualCall_safe (handleCarCall c f) (handleCarCall c f)
           (fun b m => Master_handleCarCall_safe c f b m)
           (fun b d => Distributed_handleCarCall_safe c f b d) b sched).
Qed.

Lemma Scheduler_onElevatorArrived_safe c f b (sched : Scheduler) :
  0 <= c < numElevators cfg -> fleetInv cfg b -> schedulerInv cfg sched ->
  exists b' sched', onElevatorArrived c f (b, sched) = Some (b', sched')
    /\ fleetInv cfg b' /\ schedulerInv cfg sched'.
Proof.
  intros Hc.
  exact (virtualCall_safe (onElevatorArrived c f) (onElevatorArrived c f)
           (fun b m => Master_onElevatorArrived_safe c f b m Hc)
           (fun b d => Distributed_onElevatorArrived_safe c f b d Hc) b sched).
Qed.

Lemma Scheduler_onDoorsOpened_safe c f b (sched : Scheduler) :
  fleetInv cfg b -> schedulerInv cfg sched ->
  exists b' sched', onDoorsOpened c f (b, sched) = Some (b', sched')
    /\ fleetInv cfg b' /\ schedulerInv cfg sched'.
Proof.
  apply (virtualCall_safe (onDoorsOpened c f) (onDoorsOpened c f)).
  - intros b0 m Hb Hm. by exists b0, m.
  - intros b0 d Hb Hd. by exists b0, d.
Qed.

Lemma Scheduler_onDoorsClosed_safe c b (sched : Scheduler) :
  0 <= c < numElevators cfg -> fleetInv cfg b -> schedulerInv cfg sched ->
  exists b' sched', onDoorsClosed c (b, sched) = Some (b', sched')
    /\ fleetInv cfg b' /\ schedulerInv cfg sched'.
Proof.
  intros Hc.
  exact (virtualCall_safe (onDoorsClosed c) (onDoorsClosed c)
           (fun b m => Master_onDoorsClosed_safe c b m Hc)
           (fun b d => Distributed_onDoorsClosed_safe c b d Hc) b sched).
Qed.

Lemma Scheduler_tick_safe b (sched : Scheduler) :
  fleetInv cfg b -> schedulerInv cfg sched ->
  exists b' sched', tick (b, sched) = Some (b', sched')
    /\ fleetInv cfg b' /\ schedulerInv cfg sched'.
Proof.
  exact (virtualCall_safe tick tick
           (fun b m => Master_tick_safe b m)
           (fun b d => Distributed_tick_safe b d) b sched).
Qed.
(** *** The engine *)

Lemma carInv_decrementTick e : carInv cfg e -> carInv cfg (Elevator.decrementTick e).
Proof.
  intros (Hcur & Hcalls & Hmov & Ht). unfold Elevator.decrementTick.
  case_decide; [|done].
  split; [exact Hcur|]. split; [exact Hcalls|]. split; [exact Hmov|].
  cbn. intros Hdoor Htravel. lia.
Qed.

Lemma carInv_stationary e e' :
  Elevator.currentFloor_ e' = Elevator.currentFloor_ e ->
  Elevator.carCalls_ e' = Elevator.carCalls_ e ->
  Elevator.state_ e' <> ElevatorState.Moving ->
  (0 <= doorOpenTicks cfg -> 0 <= floorTravelTicks cfg -> 0 <= Elevator.ticksRemaining_ e') ->
  carInv cfg e -> carInv cfg e'.
Proof.
  intros Hc Hcalls' Hs Ht' (Hcur & Hcalls & _ & _).
  rewrite <- Hc in Hcur. rewrite <- Hcalls' in Hcalls.
  split; [exact Hcur|]. split; [exact Hcalls|]. split; [done | exact Ht'].
Qed.

Lemma carInv_arriveAtFloor e :
  carInv cfg e -> Elevator.state_ e = ElevatorState.Moving ->
  carInv cfg (Elevator.arriveAtFloor
                (if decide (Elevator.direction_ e = Direction.Up)
                 then Elevator.currentFloor_ e + 1 else Elevator.currentFloor_ e - 1) e).
Proof.
  intros (Hcur & Hcalls & Hmov & Ht) Hstate. specialize (Hmov Hstate).
  split; [|split; [exact Hcalls|split; [done | exact Ht]]].
  intros HN. specialize (Hcur HN). cbn.
  case_decide; destruct Hmov as [[Hd Hlt]|[Hd Hlt]]; try congruence; lia.
Qed.

Lemma runInv_update s s' :
  runInv cfg s -> fleetInv cfg (SimulationEngine.building_ s') ->
  SimulationEngine.config_ s' = SimulationEngine.config_ s ->
  SimulationEngine.scheduler_ s' = SimulationEngine.scheduler_ s ->
  (EventQueue.queue_ (SimulationEngine.eventQueue_ s')
   = EventQueue.queue_ (SimulationEngine.eventQueue_ s)
   \/ exists event,
        EventQueue.queue_ (SimulationEngine.eventQueue_ s')
        = EventQueue.queue_ (SimulationEngine.eventQueue_ s) ++ [event]
        /\ eventInv cfg event) ->
  runInv cfg s'.
Proof.
  intros (Hc & Hb & Hs & Hq) Hb' Hc' Hss Hqs.
  split; [congruence|]. split; [done|]. split; [by rewrite Hss|].
  destruct Hqs as [->|(event & -> & Hev)]; [done|].
  apply Forall_app_2; [done|]. by constructor.
Qed.

Lemma updateElevator_safe i s :
  0 <= i < numElevators cfg -> runInv cfg s ->
  exists s', SimulationEngine.updateElevator i s = Some s' /\ runInv cfg s'.
Proof.
  intros Hi Hs. pose proof Hs as (Hc & Hb & Hsched & Hq).
  destruct (fleetInv_getElevator_total _ _ Hb Hi) as (e & He & Hinv).
  unfold SimulationEngine.updateElevator. rewrite He. cbn [mbind option_bind].
  unfold Elevator.getState, Elevator.getTicksRemaining, Elevator.getCurrentFloor,
    Elevator.getDirection.
  rewrite Hc.
  pose proof (carInv_decrementTick _ Hinv) as Hdec.
  assert (Elevator.state_ (Elevator.decrementTick e) = Elevator.state_ e) as Hstate
    by (unfold Elevator.decrementTick; by case_decide).
  repeat case_decide; try destruct (_ || _); (eexists; split; [reflexivity|]);
    (eapply runInv_update;
       [ exact Hs
       | first [ exact Hb | apply fleetInv_setElevator; [exact Hb|] ]
       | reflexivity
       | reflexivity
       | first [ by left
               | right; eexists; split; [reflexivity | unfold eventInv; cbn; lia] ] ]).
  all: first [ exact Hdec
             | pose proof (carInv_arriveAtFloor _ Hdec) as Harr;
               first [ rewrite decide_True in Harr by done
                     | rewrite decide_False in Harr by done ];
               apply Harr; congruence
             | eapply (carInv_stationary (Elevator.decrementTick e));
               [reflexivity | reflexivity | cbn; done | cbn; intros; lia | exact Hdec] ].
Qed.

Lemma updateElevators_loop_safe (n : nat) : forall i s,
  0 <= i -> Z.of_nat n <= Z.max 0 (numElevators cfg - i) -> runInv cfg s ->
  exists s', SimulationEngine.updateElevators_loop n i s = Some s' /\ runInv cfg s'.
Proof.
  induction n as [|n IH]; intros i s Hi Hn Hs; cbn [SimulationEngine.updateElevators_loop].
  - by eexists.
  - destruct (updateElevator_safe i s) as (s1 & Hu & Hs1); [lia | done |].
    rewrite Hu. cbn [mbind option_bind]. apply IH; [lia | lia | done].
Qed.

Lemma processTick_safe s :
  runInv cfg s -> exists s', SimulationEngine.processTick s = Some s' /\ runInv cfg s'.
Proof.
  intros Hs. unfold SimulationEngine.processTick, SimulationEngine.updateElevators,
    Building.getNumElevators.
  pose proof Hs as (_ & (Hcfg & _) & _). rewrite Hcfg.
  destruct (updateElevators_loop_safe (Z.to_nat (numElevators cfg)) 0 s) as (s1 & Hu & Hs1);
    [lia | lia | done |].
  rewrite Hu. cbn [mbind option_bind].
  destruct Hs1 as (Hc1 & Hb1 & Hsched1 & Hq1).
  destruct (Scheduler_tick_safe _ _ Hb1 Hsched1) as (b' & sched' & Ht & Hb' & Hsched').
  rewrite Ht. cbn [mbind option_bind]. eexists. split; [reflexivity|].
  split; [done|]. split; [done|]. split; done.
Qed.

Lemma processEvent_safe event s :
  eventInv cfg event -> runInv cfg s ->
  (exists s', SimulationEngine.processEvent event s = Some s' /\ runInv cfg s')
  \/ (SimulationEngine.processEvent event s = None /\ eventBlocks event s = true).
Proof.
  intros Hev (Hc & Hb & Hsched & Hq).
  unfold SimulationEngine.processEvent, eventInv, eventBlocks in *.
  cbn [SimulationEngine.building_ SimulationEngine.log SimulationEngine.scheduler_].
  destruct (ev_type event) eqn:Hty.
  - destruct (Scheduler_handleHallCall_safe (ev_floor event) (ev_direction event) _ _
                (proj1 Hev) Hb Hsched)
      as [(b' & sched' & Hcall & Hb' & Hs')|(Hcall & m & Hm & Hblocks)].
    + left. rewrite Hcall. cbn [mbind option_bind]. eexists. split; [reflexivity|].
      split; [done|]. split; [done|]. split; done.
    + right. rewrite Hcall. split; [done|]. rewrite Hm.
      rewrite bool_decide_eq_true_2 by done. exact Hblocks.
  - left.
    destruct (Scheduler_handleCarCall_safe (ev_elevatorId event) (ev_floor event) _ _
                Hb Hsched) as (b' & sched' & Hcall & Hb' & Hs').
    rewrite Hcall. cbn [mbind option_bind]. eexists. split; [reflexivity|].
    split; [done|]. split; [done|]. split; done.
  - left.
    destruct (Scheduler_onElevatorArrived_safe (ev_elevatorId event) (ev_floor event) _ _
                Hev Hb Hsched) as (b' & sched' & Hcall & Hb' & Hs').
    rewrite Hcall. cbn [mbind option_bind]. eexists. split; [reflexivity|].
    split; [done|]. split; [done|]. split; done.
  - left.
    destruct (Scheduler_onDoorsOpened_safe (ev_elevatorId event) (ev_floor event) _ _
                Hb Hsched) as (b' & sched' & Hcall & Hb' & Hs').
    rewrite Hcall. cbn [mbind option_bind]. eexists. split; [reflexivity|].
    split; [done|]. split; [done|]. split; done.
  - left.
    destruct (Scheduler_onDoorsClosed_safe (ev_elevatorId event) _ _
                Hev Hb Hsched) as (b' & sched' & Hcall & Hb' & Hs').
    rewrite Hcall. cbn [mbind option_bind]. eexists. split; [reflexivity|].
    split; [done|]. split; [done|]. split; done.
  - left. eexists. split; [reflexivity|]. split; [done|]. split; [done|]. split; done.
  - left. eexists. split; [reflexivity|]. split; [done|]. split; [done|]. split; done.
Qed.

Lemma requestHallCall_safe floor dir s :
  runInv cfg s -> runInv cfg (SimulationEngine.requestHallCall floor dir s).
Proof.
  intros Hs. pose proof Hs as (Hc & Hb & Hsched & Hq).
  unfold SimulationEngine.requestHallCall.
  destruct (Building.isValidFloor _ floor) eqn:Hf; cbn [negb];
    repeat case_decide;
    (eapply runInv_update;
       [exact Hs | exact Hb | reflexivity | reflexivity
       | first [by left | right; eexists; split; [reflexivity|]]]).
  unfold eventInv. cbn. apply isValidFloor_iff in Hf. by rewrite (proj1 Hb) in Hf.
Qed.

Lemma requestCarCall_safe elevatorId floor s :
  runInv cfg s -> runInv cfg (SimulationEngine.requestCarCall elevatorId floor s).
Proof.
  intros Hs. pose proof Hs as (Hc & Hb & Hsched & Hq).
  unfold SimulationEngine.requestCarCall.
  repeat (destruct (negb _));
    (eapply runInv_update;
       [exact Hs | exact Hb | reflexivity | reflexivity
       | first [by left | right; eexists; split; [reflexivity | exact I]]]).
Qed.

Lemma step_safe st s :
  runInv cfg s ->
  (exists s', step st s = Some s' /\ runInv cfg s')
  \/ (step st s = None /\ stepBlocks st s = true).
Proof.
  intros Hs. destruct st as [floor dir|elevatorId floor| |]; cbn [step stepBlocks].
  - left. eexists. split; [reflexivity|]. by apply requestHallCall_safe.
  - left. eexists. split; [reflexivity|]. by apply requestCarCall_safe.
  - left. destruct (processTick_safe s Hs) as (s1 & -> & Hs1). cbn [mbind option_bind].
    eexists. split; [reflexivity|]. exact Hs1.
  - pose proof Hs as (Hc & Hb & Hsched & Hq). unfold EventQueue.tryPop.
    destruct (EventQueue.queue_ (SimulationEngine.eventQueue_ s)) as [|event r] eqn:Hqueue.
    + left. by eexists.
    + destruct (processEvent_safe event
                  (SimulationEngine.withQueue
                     {| EventQueue.queue_ := r;
                        EventQueue.shutdown_ :=
                          EventQueue.shutdown_ (SimulationEngine.eventQueue_ s) |} s))
        as [Hdone|[Hnone Hblocks]].
      * by eapply Forall_inv.
      * split; [done|]. split; [done|]. split; [done|]. by eapply Forall_inv_tail.
      * by left.
      * right. split; [done | exact Hblocks].
Qed.

Lemma step_runInv st s s' : runInv cfg s -> step st s = Some s' -> runInv cfg s'.
Proof.
  intros Hs Hstep. destruct (step_safe st s Hs) as [(s1 & Hs1 & Hinv)|[Hnone _]]; congruence.
Qed.

Lemma run_runInv steps : forall s s',
  runInv cfg s -> run steps s = Some s' -> runInv cfg s'.
Proof.
  induction steps as [|st steps IH]; intros s s' Hs; cbn [run]; [by intros [= <-]|].
  destruct (step st s) as [s1|] eqn:Hstep; cbn [mbind option_bind]; [|done].
  apply IH. by eapply step_runInv.
Qed.

Lemma new_runInv s : SimulationEngine.new cfg = Some s -> runInv cfg s.
Proof.
  intros Hnew.
  destruct (new_engineInv (carInv cfg) cfg s) as [(Hwf & Hcars & _) _]; [|done|].
  { intros id capacity. split; [cbn; lia|].
    split; [intros f Hf; by apply elem_of_nil in Hf|]. split; [done | cbn; lia]. }
  unfold SimulationEngine.new in Hnew.
  destruct (Building.new cfg) as [b|] eqn:Hb; [|done]. injection Hnew as <-.
  cbn in *. unfold Building.new in Hb. case_decide; [done|]. injection Hb as <-.
  split; [done|]. split; [by split|]. split; [|by constructor].
  unfold createScheduler. destruct (controllerType cfg); (split; [by constructor | exact I]).
Qed.
End RunInvariant.

Lemma reachable_runInv config s0 steps s :
  SimulationEngine.new config = Some s0 -> run steps s0 = Some s -> runInv config s.
Proof.
  intros Hnew Hrun. eapply run_runInv; [|exact Hrun]. by apply new_runInv.
Qed.





(** *** Which controller runs, and when a delivery does not return *)

Lemma virtualCall_kind viaMaster viaDistributed (s r : Building.t * Scheduler) :
  virtualCall viaMaster viaDistributed s = Some r -> isDistributed r.2 = isDistributed s.2.
Proof.
  unfold virtualCall. destruct s as [b [m|d]]; cbn [fst snd].
  - destruct (viaMaster (b, m)) as [[b' m']|]; [|done]. by intros [= <-].
  - destruct (viaDistributed (b, d)) as [[b' d']|]; [|done]. by intros [= <-].
Qed.

Lemma processEvent_kind event s s' :
  SimulationEngine.processEvent event s = Some s' ->
  isDistributed (SimulationEngine.scheduler_ s') = isDistributed (SimulationEngine.scheduler_ s).
Proof.
  unfold SimulationEngine.processEvent.
  cbn [SimulationEngine.building_ SimulationEngine.log SimulationEngine.scheduler_].
  destruct (ev_type event);
    try (match goal with
         | |- context [mbind _ ?call] => destruct call as [fleet|] eqn:Hcall
         end;
         cbn [mbind option_bind]; [|done]; intros [= <-];
         exact (virtualCall_kind _ _ _ _ Hcall));
    by intros [= <-].
Qed.

Lemma processTick_kind s s' :
  SimulationEngine.processTick s = Some s' ->
  isDistributed (SimulationEngine.scheduler_ s') = isDistributed (SimulationEngine.scheduler_ s).
Proof.
  unfold SimulationEngine.processTick, SimulationEngine.updateElevators.
  destruct (SimulationEngine.updateElevators_loop _ 0 s) as [s1|] eqn:H1;
    cbn [mbind option_bind]; [|done].
  destruct (updateElevators_loop_step _ _ _ _ H1) as (_ & Hsame & _).
  destruct (tick _) as [fleet|] eqn:Htick; cbn [mbind option_bind]; [|done].
  intros [= <-]. rewrite <- Hsame. exact (virtualCall_kind _ _ _ _ Htick).
Qed.

Lemma step_kind st s s' :
  step st s = Some s' ->
  isDistributed (SimulationEngine.scheduler_ s') = isDistributed (SimulationEngine.scheduler_ s).
Proof.
  destruct st as [floor dir|elevatorId floor| |]; cbn [step].
  - intros [= <-]. unfold SimulationEngine.requestHallCall.
    destruct (negb _); [done|]. by repeat case_decide.
  - intros [= <-]. unfold SimulationEngine.requestCarCall.
    by repeat (destruct (negb _)).
  - destruct (SimulationEngine.processTick s) as [s1|] eqn:Htick;
      cbn [mbind option_bind]; [|done].
    intros [= <-]. exact (processTick_kind _ _ Htick).
  - destruct (EventQueue.tryPop _) as [[event|] q]; [|by intros [= <-]].
    intros Hev. exact (processEvent_kind _ _ _ Hev).
Qed.

Lemma new_kind config s :
  SimulationEngine.new config = Some s ->
  isDistributed (SimulationEngine.scheduler_ s)
  = bool_decide (controllerType config = ControllerType.Distributed).
Proof.
  unfold SimulationEngine.new.
  destruct (Building.new config); cbn [mbind option_bind]; [|done].
  intros [= <-]. cbn. by destruct (controllerType config).
Qed.

Lemma run_kind steps : forall s s',
  run steps s = Some s' ->
  isDistributed (SimulationEngine.scheduler_ s') = isDistributed (SimulationEngine.scheduler_ s).
Proof.
  induction steps as [|st steps IH]; intros s s'; cbn [run]; [by intros [= <-]|].
  destruct (step st s) as [s1|] eqn:Hstep; cbn [mbind option_bind]; [|done].
  intros Hrun. rewrite (IH _ _ Hrun). by eapply step_kind.
Qed.

Lemma eventBlocks_false event s :
  isDistributed (SimulationEngine.scheduler_ s) = true
  \/ ev_type event <> EventType.HallCall ->
  eventBlocks event s = false.
Proof.
  unfold eventBlocks. destruct (SimulationEngine.scheduler_ s) as [m|d]; [|done].
  intros [Hkind|Hty]; [done|]. by rewrite bool_decide_eq_false_2.
Qed.

Lemma eventBlocks_None event s :
  eventBlocks event s = true -> SimulationEngine.processEvent event s = None.
Proof.
  unfold eventBlocks, SimulationEngine.processEvent.
  cbn [SimulationEngine.building_ SimulationEngine.log SimulationEngine.scheduler_].
  destruct (SimulationEngine.scheduler_ s) as [m|d]; [|done].
  intros Hblocks. apply andb_true_iff in Hblocks as [Hty Hblocks].
  apply bool_decide_eq_true in Hty. rewrite Hty.
  by rewrite handleHallCall_MasterSched, (hallCallBlocks_None _ _ _ Hblocks).
Qed.

Lemma stepBlocks_None st s : stepBlocks st s = true -> step st s = None.
Proof.
  destruct st as [floor dir|elevatorId floor| |]; cbn [step stepBlocks]; try done.
  destruct (EventQueue.tryPop _) as [[event|] q]; [|done].
  intros Hblocks. by apply eventBlocks_None.
Qed.

Lemma step_total cfg st s :
  runInv cfg s -> stepBlocks st s = false ->
  exists s', step st s = Some s' /\ runInv cfg s'.
Proof.
  intros Hs Hfree. destruct (step_safe cfg st s Hs) as [Hdone|[_ Hblocks]]; [done|congruence].
Qed.

Lemma stepBlocks_distributed st s :
  isDistributed (SimulationEngine.scheduler_ s) = true -> stepBlocks st s = false.
Proof.
  intros Hkind. destruct st; cbn [stepBlocks]; try done.
  destruct (EventQueue.tryPop _) as [[event|] q]; [|done].
  apply eventBlocks_false. by left.
Qed.

Lemma run_total_distributed cfg steps : forall s,
  runInv cfg s -> isDistributed (SimulationEngine.scheduler_ s) = true ->
  exists s', run steps s = Some s'.
Proof.
  induction steps as [|st steps IH]; intros s Hs Hkind; cbn [run]; [by eexists|].
  destruct (step_total cfg st s Hs (stepBlocks_distributed st s Hkind)) as (s1 & Hstep & Hs1).
  rewrite Hstep. cbn [mbind option_bind]. apply IH; [done|].
  by rewrite (step_kind _ _ _ Hstep).
Qed.


(** *** What holds in every state of a run *)

(** In every state of a run a step returns, with one exception: the
    delivery of a hall call to the master controller when the call is not
    in its table yet and the car picked by [selectElevator] is idle.
    [handleHallCall] then calls [dispatchElevator] with [mutex_] held and
    never returns.  No other step fails to return, so no step throws; and
    under the distributed controller every sequence of requests, ticks and
    event deliveries runs to its end. *)
Theorem step_returns_unless_hall_call_meets_idle_car (config : Config)
    (s0 s : SimulationEngine.t) (steps : list Step) :
  SimulationEngine.new config = Some s0 ->
  run steps s0 = Some s ->
  (forall st, step st s = None <-> stepBlocks st s = true)
  /\ (controllerType config = ControllerType.Distributed ->
      forall more, exists s', run more s = Some s').
Proof.
  intros Hnew Hrun. pose proof (reachable_runInv _ _ _ _ Hnew Hrun) as Hs.
  split.
  - intros st. split; [|apply stepBlocks_None].
    intros Hnone. destruct (step_safe config st s Hs) as [(s1 & Hs1 & _)|[_ Hblocks]];
      [congruence | done].
  - intros Hkind more. apply (run_total_distributed config); [done|].
    rewrite (run_kind _ _ _ Hrun), (new_kind _ _ Hnew). by apply bool_decide_eq_true.
Qed.

Lemma step_returns_unless_hall_call_meets_idle_car_witness :
  exists s, sampleRun = Some s
    /\ (forall st, step st s = None <-> stepBlocks st s = true)
    /\ (controllerType scenarioAConfig = ControllerType.Distributed ->
        forall more, exists s', run more s = Some s').
Proof.
  eexists. split; [vm_compute; reflexivity|].
  eapply (step_returns_unless_hall_call_meets_idle_car scenarioAConfig _ _ sampleSteps);
    [vm_compute; reflexivity|]. vm_compute. reflexivity.
Defined.



(** In every state of a run each car is at a floor of the building
    (provided the building has a floor at all), its car calls are floors
    of the building, a moving car travels Up with a floor above it or Down
    with a floor below it, and its timer is not negative when the
    configured durations are not. *)
Theorem cars_stay_inside_the_building (config : Config) (s0 s : SimulationEngine.t)
    (steps : list Step) :
  SimulationEngine.new config = Some s0 ->
  run steps s0 = Some s ->
  Building.getConfig (SimulationEngine.building_ s) = config
  /\ forall e, e ∈ Building.elevators_ (SimulationEngine.building_ s) ->
       (1 <= numFloors config -> 1 <= Elevator.getCurrentFloor e <= numFloors config)
       /\ (forall f, f ∈ Elevator.getCarCalls e -> 1 <= f <= numFloors config)
       /\ (Elevator.getState e = ElevatorState.Moving ->
             (Elevator.getDirection e = Direction.Up
              /\ Elevator.getCurrentFloor e < numFloors config)
             \/ (Elevator.getDirection e = Direction.Down
                 /\ 1 < Elevator.getCurrentFloor e))
       /\ (0 <= doorOpenTicks config -> 0 <= floorTravelTicks config ->
             0 <= Elevator.getTicksRemaining e).
Proof.
  intros Hnew Hrun.
  destruct (reachable_runInv _ _ _ _ Hnew Hrun) as (_ & (Hcfg & _ & Hcars) & _).
  split; [done|]. intros e He. eapply list.Forall_forall in Hcars; [|exact He]. exact Hcars.
Qed.

Lemma cars_stay_inside_the_building_witness :
  exists s, sampleRun = Some s
    /\ Building.getConfig (SimulationEngine.building_ s) = scenarioAConfig
    /\ forall e, e ∈ Building.elevators_ (SimulationEngine.building_ s) ->
         (1 <= numFloors scenarioAConfig ->
            1 <= Elevator.getCurrentFloor e <= numFloors scenarioAConfig)
         /\ (forall f, f ∈ Elevator.getCarCalls e -> 1 <= f <= numFloors scenarioAConfig)
         /\ (Elevator.getState e = ElevatorState.Moving ->
               (Elevator.getDirection e = Direction.Up
                /\ Elevator.getCurrentFloor e < numFloors scenarioAConfig)
               \/ (Elevator.getDirection e = Direction.Down
                   /\ 1 < Elevator.getCurrentFloor e))
         /\ (0 <= doorOpenTicks scenarioAConfig -> 0 <= floorTravelTicks scenarioAConfig ->
               0 <= Elevator.getTicksRemaining e).
Proof.
  eexists. split; [vm_compute; reflexivity|].
  eapply (cars_stay_inside_the_building scenarioAConfig _ _ sampleSteps);
    [vm_compute; reflexivity|]. vm_compute. reflexivity.
Defined.

(** In every state of a run the scheduler's table holds at most one entry
    per hall call (its keys are strictly increasing), every entry is for a
    floor of the building, every assignment of the master controller names
    a car of the building, and every entry of the claim board is either
    unclaimed or claimed by a car of the building. *)
Theorem scheduler_table_stays_valid (config : Config) (s0 s : SimulationEngine.t)
    (steps : list Step) :
  SimulationEngine.new config = Some s0 ->
  run steps s0 = Some s ->
  match SimulationEngine.scheduler_ s with
  | MasterSched m =>
      HallMap.sorted (MasterController.assignments_ m)
      /\ forall floor dir id,
           MasterController.getAssignment m floor dir = Some id ->
           Building.isValidFloor (SimulationEngine.building_ s) floor = true
           /\ Building.isValidElevator (SimulationEngine.building_ s) id = true
  | DistributedSched d =>
      HallMap.sorted (DistributedController.claimBoard_ d)
      /\ forall floor dir id,
           HallMap.find (floor, dir) (DistributedController.claimBoard_ d) = Some id ->
           Building.isValidFloor (SimulationEngine.building_ s) floor = true
           /\ (id = -1 \/ Building.isValidElevator (SimulationEngine.building_ s) id = true)
  end.
Proof.
  intros Hnew Hrun.
  destruct (reachable_runInv _ _ _ _ Hnew Hrun) as (_ & (Hcfg & _ & _) & Hsched & _).
  destruct (SimulationEngine.scheduler_ s) as [m|d]; destruct Hsched as [Hall Hsorted];
    (split; [done|]); intros floor dir id Hfind;
    apply HallMap_find_Some in Hfind;
    (eapply list.Forall_forall in Hall; [|exact Hfind]);
    destruct Hall as (Hfloor & Hlow & Hid); cbn in Hfloor, Hlow, Hid;
    rewrite isValidFloor_iff, ?isValidElevator_iff, Hcfg.
  - split; [done | lia].
  - split; [done|]. destruct (decide (id = -1)); [by left | right; lia].
Qed.

Lemma scheduler_table_stays_valid_witness :
  exists s, sampleRun = Some s
    /\ match SimulationEngine.scheduler_ s with
       | MasterSched m =>
           HallMap.sorted (MasterController.assignments_ m)
           /\ forall floor dir id,
                MasterController.getAssignment m floor dir = Some id ->
                Building.isValidFloor (SimulationEngine.building_ s) floor = true
                /\ Building.isValidElevator (SimulationEngine.building_ s) id = true
       | DistributedSched d =>
           HallMap.sorted (DistributedController.claimBoard_ d)
           /\ forall floor dir id,
                HallMap.find (floor, dir) (DistributedController.claimBoard_ d) = Some id ->
                Building.isValidFloor (SimulationEngine.building_ s) floor = true
                /\ (id = -1
                    \/ Building.isValidElevator (SimulationEngine.building_ s) id = true)
       end.
Proof.
  eexists. split; [vm_compute; reflexivity|].
  eapply (scheduler_table_stays_valid scenarioAConfig _ _ sampleSteps);
    [vm_compute; reflexivity|]. vm_compute. reflexivity.
Defined.

(** ** The controllers: where an idle car is sent *)










(** ** The controllers: a car arrives *)

Lemma getElevator_setElevator_ne b id e0 x other :
  Building.getElevator b id = Some e0 -> other <> id ->
  Building.getElevator (Building.setElevator b id x) other = Building.getElevator b other.
Proof.
  intros He Hne. unfold Building.getElevator, Building.isValidElevator. cbn.
  destruct (bool_decide (other >= 0) && _) eqn:Hv; [|done].
  apply andb_true_iff in Hv as [H1 _]. apply bool_decide_eq_true in H1.
  apply getElevator_Some in He as [Hid _].
  apply list_lookup_insert_ne. lia.
Qed.

Lemma hasHallCall_clearHallCall f d b :
  Building.hasHallCall f d (Building.clearHallCall f d b) = false.
Proof.
  unfold Building.hasHallCall, Building.clearHallCall.
  destruct (Building.isValidFloor b f) eqn:Hf; cbn [negb]; [|by rewrite Hf].
  destruct d.
  - change (Building.isValidFloor (Building.updateFloor b f Floor.clearUpButton) f)
      with (Building.isValidFloor b f).
    rewrite Hf. cbn [negb Building.updateFloor Building.floors_].
    rewrite list_lookup_alter_eq. by destruct (Building.floors_ b !! Z.to_nat (f - 1)).
  - change (Building.isValidFloor (Building.updateFloor b f Floor.clearDownButton) f)
      with (Building.isValidFloor b f).
    rewrite Hf. cbn [negb Building.updateFloor Building.floors_].
    rewrite list_lookup_alter_eq. by destruct (Building.floors_ b !! Z.to_nat (f - 1)).
  - rewrite Hf. cbn [negb]. by destruct (Building.floors_ b !! Z.to_nat (f - 1)).
Qed.

(** When car [c] arrives at floor [f], [MasterController::onElevatorArrived]
    removes the car call for [f] from that car and touches no other car.
    The hall call at [f] is served only if it is the one in the car's
    direction of travel and assigned to [c]: then its assignment is
    erased and the landing button switched off, all other assignments
    staying as they are.  In every other case, a call at [f] in the
    opposite direction included, table and landing buttons stay as they
    were. *)
Theorem Master_onElevatorArrived_serves_call_in_direction (c f : Z) (b : Building.t)
    (m : MasterController.t) (e : Elevator.t) :
  Building.getElevator b c = Some e ->
  HallMap.sorted (MasterController.assignments_ m) ->
  exists b' m',
    MasterController.onElevatorArrived c f (b, m) = Some (b', m')
    /\ Building.getElevator b' c = Some (Elevator.removeCarCall f e)
    /\ (forall other, other <> c -> Building.getElevator b' other = Building.getElevator b other)
    /\ (MasterController.getAssignment m f (Elevator.getDirection e) = Some c ->
          MasterController.getAssignment m' f (Elevator.getDirection e) = None
          /\ Building.hasHallCall f (Elevator.getDirection e) b' = false
          /\ (forall f' d', (f', d') <> (f, Elevator.getDirection e) ->
                MasterController.getAssignment m' f' d'
                = MasterController.getAssignment m f' d'))
    /\ (MasterController.getAssignment m f (Elevator.getDirection e) <> Some c ->
          m' = m /\ Building.floors_ b' = Building.floors_ b).
Proof.
  intros He Hs. unfold MasterController.onElevatorArrived. rewrite He.
  cbn [mbind option_bind].
  case_decide as Hassigned; eexists _, _; (split; [reflexivity|]).
  - assert (Building.getElevator (Building.clearHallCall f (Elevator.getDirection e) b) c
            = Some e) as He'
      by (rewrite <- He; apply getElevator_frame;
          [apply clearHallCall_elevators | apply clearHallCall_config]).
    split; [by eapply getElevator_setElevator|]. split.
    { intros other Hne. rewrite (getElevator_setElevator_ne _ _ _ _ _ He' Hne).
      apply getElevator_frame; [apply clearHallCall_elevators | apply clearHallCall_config]. }
    split; [|done]. intros _. unfold MasterController.getAssignment. cbn.
    split; [by apply HallMap_find_erase|].
    split; [exact (hasHallCall_clearHallCall f (Elevator.getDirection e) b)|].
    intros f' d' Hne. by apply HallMap_find_erase_ne.
  - split; [by eapply getElevator_setElevator|].
    split; [intros other Hne; by eapply getElevator_setElevator_ne|].
    split; [done|]. by intros _.
Qed.

Lemma Master_onElevatorArrived_serves_call_in_direction_witness :
  exists b' m',
    MasterController.onElevatorArrived 0 2
      (scenarioC Direction.Up,
       {| MasterController.assignments_ := [((2, Direction.Up), 0); ((2, Direction.Down), 0)] |})
    = Some (b', m')
    /\ MasterController.assignments_ m' = [((2, Direction.Down), 0)].
Proof.
  destruct (Master_onElevatorArrived_serves_call_in_direction 0 2 (scenarioC Direction.Up)
              {| MasterController.assignments_ :=
                   [((2, Direction.Up), 0); ((2, Direction.Down), 0)] |}
              (Elevator.addCarCall 7 (Elevator.startMoving Direction.Up 2 (Elevator.new 0 6 2))))
    as (b' & m' & Hcall & _); [reflexivity | vm_compute; tauto |].
  exists b', m'. split; [exact Hcall|].
  vm_compute in Hcall. injection Hcall as <- <-. reflexivity.
Defined.

(** The same for [DistributedController::onElevatorArrived] and the claim
    board: a claim is released, and the landing button switched off, only
    for the call at [f] in the car's direction of travel that [c] itself
    has claimed. *)
Theorem Distributed_onElevatorArrived_serves_call_in_direction (c f : Z) (b : Building.t)
    (d : DistributedController.t) (e : Elevator.t) :
  Building.getElevator b c = Some e ->
  HallMap.sorted (DistributedController.claimBoard_ d) ->
  exists b' d',
    DistributedController.onElevatorArrived c f (b, d) = Some (b', d')
    /\ Building.getElevator b' c = Some (Elevator.removeCarCall f e)
    /\ (forall other, other <> c -> Building.getElevator b' other = Building.getElevator b other)
    /\ (DistributedController.hasClaim d c f (Elevator.getDirection e) = true ->
          (forall id, DistributedController.hasClaim d' id f (Elevator.getDirection e) = false)
          /\ Building.hasHallCall f (Elevator.getDirection e) b' = false
          /\ (forall id f' d0, (f', d0) <> (f, Elevator.getDirection e) ->
                DistributedController.hasClaim d' id f' d0
                = DistributedController.hasClaim d id f' d0))
    /\ (DistributedController.hasClaim d c f (Elevator.getDirection e) = false ->
          d' = d /\ Building.floors_ b' = Building.floors_ b).
Proof.
  intros He Hs. unfold DistributedController.onElevatorArrived. rewrite He.
  cbn [mbind option_bind].
  destruct (DistributedController.hasClaim d c f (Elevator.getDirection e)) eqn:Hclaim;
    eexists _, _; (split; [reflexivity|]).
  - assert (Building.getElevator (Building.clearHallCall f (Elevator.getDirection e) b) c
            = Some e) as He'
      by (rewrite <- He; apply getElevator_frame;
          [apply clearHallCall_elevators | apply clearHallCall_config]).
    split; [by eapply getElevator_setElevator|]. split.
    { intros other Hne. rewrite (getElevator_setElevator_ne _ _ _ _ _ He' Hne).
      apply getElevator_frame; [apply clearHallCall_elevators | apply clearHallCall_config]. }
    split; [|done]. intros _. unfold DistributedController.hasClaim. cbn.
    split; [intros id; by rewrite HallMap_find_erase|].
    split; [exact (hasHallCall_clearHallCall f (Elevator.getDirection e) b)|].
    intros id f' d0 Hne. by rewrite HallMap_find_erase_ne.
  - split; [by eapply getElevator_setElevator|].
    split; [intros other Hne; by eapply getElevator_setElevator_ne|].
    split; [done|]. by intros _.
Qed.

Lemma Distributed_onElevatorArrived_serves_call_in_direction_witness :
  exists b' d',
    DistributedController.onElevatorArrived 0 2
      (scenarioC Direction.Up,
       {| DistributedController.claimBoard_ :=
            [((2, Direction.Up), 0); ((2, Direction.Down), 0)] |})
    = Some (b', d')
    /\ DistributedController.claimBoard_ d' = [((2, Direction.Down), 0)].
Proof.
  destruct (Distributed_onElevatorArrived_serves_call_in_direction 0 2 (scenarioC Direction.Up)
              {| DistributedController.claimBoard_ :=
                   [((2, Direction.Up), 0); ((2, Direction.Down), 0)] |}
              (Elevator.addCarCall 7 (Elevator.startMoving Direction.Up 2 (Elevator.new 0 6 2))))
    as (b' & d' & Hcall & _); [reflexivity | vm_compute; tauto |].
  exists b', d'. split; [exact Hcall|].
  vm_compute in Hcall. injection Hcall as <- <-. reflexivity.
Defined.

(** ** DistributedController: the claim board *)

Lemma scanClaim_fold current (l : HallMap.t) : forall best,
  (foldl (DistributedController.scanClaim current) best l = best
   /\ forall key, (key, -1) ∈ l -> best.2 <= Z.abs (key.1 - current))
  \/ exists key,
       (key, -1) ∈ l
       /\ foldl (DistributedController.scanClaim current) best l
          = (key.1, key.2, Z.abs (key.1 - current))
       /\ Z.abs (key.1 - current) < best.2
       /\ forall key2, (key2, -1) ∈ l -> Z.abs (key.1 - current) <= Z.abs (key2.1 - current).
Proof.
  induction l as [|[k v] l IH]; intros best; cbn [foldl].
  - left. split; [done|]. intros key H. by apply elem_of_nil in H.
  - unfold DistributedController.scanClaim at 2 4. cbn [fst snd].
    destruct (decide (v = -1)) as [->|Hv];
      [destruct (decide (Z.abs (k.1 - current) < best.2)) as [Hlt|Hge]|].
    + destruct (IH (k.1, k.2, Z.abs (k.1 - current))) as [[Heq Hall]|(key & Hin & Heq & Hlt' & Hall)].
      * right. exists k. split; [apply list_elem_of_here|]. split; [done|]. split; [done|].
        intros key2 Hin2. apply elem_of_cons in Hin2 as [[= ->]|Hin2]; [lia | by apply Hall].
      * right. exists key. cbn in Hlt'. split; [by apply list_elem_of_further|].
        split; [done|]. split; [lia|].
        intros key2 Hin2. apply elem_of_cons in Hin2 as [[= ->]|Hin2]; [lia | by apply Hall].
    + destruct (IH best) as [[Heq Hall]|(key & Hin & Heq & Hlt' & Hall)].
      * left. split; [done|].
        intros key2 Hin2. apply elem_of_cons in Hin2 as [[= ->]|Hin2]; [lia | by apply Hall].
      * right. exists key. split; [by apply list_elem_of_further|].
        split; [done|]. split; [done|].
        intros key2 Hin2. apply elem_of_cons in Hin2 as [[= ->]|Hin2]; [lia | by apply Hall].
    + destruct (IH best) as [[Heq Hall]|(key & Hin & Heq & Hlt' & Hall)].
      * left. split; [done|].
        intros key2 Hin2. apply elem_of_cons in Hin2 as [[= -> <-]|Hin2]; [done | by apply Hall].
      * right. exists key. split; [by apply list_elem_of_further|].
        split; [done|]. split; [done|].
        intros key2 Hin2. apply elem_of_cons in Hin2 as [[= -> <-]|Hin2]; [done | by apply Hall].
Qed.

(** [DistributedController::tryClaimCalls] for car [id] changes at most one
    entry of the claim board, and only an unclaimed one: a call claimed by
    another car is never taken over, and no entry appears or disappears.
    A busy car with car calls claims nothing.  Any other car claims the
    unclaimed call nearest to it, provided that call's floor is not
    negative, and does claim one whenever there is an unclaimed call and
    all unclaimed calls are for floors that are not negative and nearer
    than [INT_MAX]. *)
Theorem tryClaimCalls_claims_nearest_unclaimed (id : Z) (b : Building.t)
    (d : DistributedController.t) (e : Elevator.t) :
  Building.getElevator b id = Some e ->
  HallMap.sorted (DistributedController.claimBoard_ d) ->
  exists d',
    DistributedController.tryClaimCalls id b d = Some d'
    /\ (forall key owner,
          HallMap.find key (DistributedController.claimBoard_ d) = Some owner ->
          owner <> -1 ->
          HallMap.find key (DistributedController.claimBoard_ d') = Some owner)
    /\ (forall key,
          HallMap.find key (DistributedController.claimBoard_ d) = None ->
          HallMap.find key (DistributedController.claimBoard_ d') = None)
    /\ (Elevator.getState e <> ElevatorState.Idle -> Elevator.hasAnyCarCalls e = true -> d' = d)
    /\ (d' = d
        \/ exists key,
             HallMap.find key (DistributedController.claimBoard_ d) = Some (-1)
             /\ DistributedController.claimBoard_ d'
                = HallMap.assign key id (DistributedController.claimBoard_ d)
             /\ 0 <= key.1
             /\ forall key2,
                  HallMap.find key2 (DistributedController.claimBoard_ d) = Some (-1) ->
                  Z.abs (key.1 - Elevator.getCurrentFloor e)
                    <= Z.abs (key2.1 - Elevator.getCurrentFloor e))
    /\ (Elevator.getState e = ElevatorState.Idle \/ Elevator.hasAnyCarCalls e = false ->
        (forall key,
           HallMap.find key (DistributedController.claimBoard_ d) = Some (-1) ->
           0 <= key.1 /\ Z.abs (key.1 - Elevator.getCurrentFloor e) < INT_MAX) ->
        (exists key, HallMap.find key (DistributedController.claimBoard_ d) = Some (-1)) ->
        exists key,
          HallMap.find key (DistributedController.claimBoard_ d) = Some (-1)
          /\ HallMap.find key (DistributedController.claimBoard_ d') = Some id).
Proof.
  intros He Hs. unfold DistributedController.tryClaimCalls. rewrite He.
  cbn [mbind option_bind].
  destruct (bool_decide (Elevator.getState e <> ElevatorState.Idle)
            && Elevator.hasAnyCarCalls e) eqn:Hbusy.
  { exists d. split; [done|]. split; [done|]. split; [done|]. split; [done|].
    split; [by left|].
    apply andb_true_iff in Hbusy as [Hstate Hcalls]. apply bool_decide_eq_true in Hstate.
    intros [Hidle|Hnone]; [done | congruence]. }
  assert (Elevator.getState e <> ElevatorState.Idle -> Elevator.hasAnyCarCalls e = true ->
          False) as Hfree.
  { intros Hstate Hcalls. rewrite Hcalls, andb_true_r in Hbusy.
    by apply bool_decide_eq_false in Hbusy. }
  destruct (scanClaim_fold (Elevator.getCurrentFloor e)
              (DistributedController.claimBoard_ d) (-1, Direction.Idle, INT_MAX))
    as [[Heq Hall]|(key & Hin & Heq & Hlt & Hall)]; rewrite Heq.
  - rewrite decide_False by lia. exists d.
    split; [done|]. split; [done|]. split; [done|]. split; [done|]. split; [by left|].
    intros _ Hnear [key Hkey]. exfalso.
    destruct (Hnear key Hkey) as [_ Hlt]. apply HallMap_find_Some, Hall in Hkey. cbn in Hkey. lia.
  - pose proof (HallMap_find_elem _ _ _ Hs Hin) as Hfind.
    destruct (decide (key.1 >= 0)) as [Hfloor|Hfloor].
    + eexists. split; [reflexivity|]. cbn [DistributedController.claimBoard_].
      replace (key.1, key.2) with key by (by destruct key).
      split.
      { intros key' owner Hown Hne. rewrite HallMap_find_assign_ne; [done|]. congruence. }
      split.
      { intros key' Hnone. rewrite HallMap_find_assign_ne; [done|]. congruence. }
      split; [intros Hstate Hcalls; by destruct Hfree|].
      split.
      { right. exists key. split; [done|]. split; [done|]. split; [lia|].
        intros key2 Hkey2. by apply Hall, HallMap_find_Some. }
      intros _ _ _. exists key. split; [done|]. apply HallMap_find_assign.
    + exists d. split; [done|]. split; [done|]. split; [done|]. split; [done|].
      split; [by left|].
      intros _ Hnear _. destruct (Hnear key Hfind) as [Hge _]. lia.
Qed.

Lemma tryClaimCalls_claims_nearest_unclaimed_witness :
  exists d',
    DistributedController.tryClaimCalls 1 (scenarioC Direction.Up)
      {| DistributedController.claimBoard_ :=
           [((3, Direction.Up), -1); ((4, Direction.Up), 0); ((8, Direction.Down), -1)] |}
    = Some d'
    /\ DistributedController.claimBoard_ d'
       = [((3, Direction.Up), -1); ((4, Direction.Up), 0); ((8, Direction.Down), 1)].
Proof.
  destruct (tryClaimCalls_claims_nearest_unclaimed 1 (scenarioC Direction.Up)
              {| DistributedController.claimBoard_ :=
                   [((3, Direction.Up), -1); ((4, Direction.Up), 0);
                    ((8, Direction.Down), -1)] |}
              (Elevator.new 1 6 6))
    as (d' & Hcall & _); [reflexivity | vm_compute; tauto |].
  exists d'. split; [exact Hcall|].
  vm_compute in Hcall. injection Hcall as <-. reflexivity.
Defined.

(** The claim board through its public operations, for a board whose keys
    are in order: [tryClaim] succeeds exactly on a call that is on the
    board and unclaimed; after a success the car holds the claim and the
    call is among its claims, while no other entry changed; a failed
    [tryClaim] changes nothing; after [releaseClaim] no car holds the
    call; and [getClaimsFor] lists exactly the calls for which [hasClaim]
    answers true. *)
Theorem claim_board_operations (d : DistributedController.t) (id floor : Z)
    (dir : Direction.t) :
  HallMap.sorted (DistributedController.claimBoard_ d) ->
  ((DistributedController.tryClaim id floor dir d).1 = true
   <-> DistributedController.hasClaim d (-1) floor dir = true)
  /\ ((DistributedController.tryClaim id floor dir d).1 = true ->
      DistributedController.hasClaim
        (DistributedController.tryClaim id floor dir d).2 id floor dir = true
      /\ (floor, dir) ∈ DistributedController.getClaimsFor
                          (DistributedController.tryClaim id floor dir d).2 id
      /\ forall id' floor' dir', (floor', dir') <> (floor, dir) ->
           DistributedController.hasClaim
             (DistributedController.tryClaim id floor dir d).2 id' floor' dir'
           = DistributedController.hasClaim d id' floor' dir')
  /\ ((DistributedController.tryClaim id floor dir d).1 = false ->
      (DistributedController.tryClaim id floor dir d).2 = d)
  /\ (forall id',
        DistributedController.hasClaim
          (DistributedController.releaseClaim floor dir d) id' floor dir = false)
  /\ (forall floor' dir',
        (floor', dir') ∈ DistributedController.getClaimsFor d id
        <-> DistributedController.hasClaim d id floor' dir' = true).
Proof.
  intros Hs. unfold DistributedController.tryClaim, DistributedController.hasClaim,
    DistributedController.releaseClaim, DistributedController.getClaimsFor.
  split; [|split; [|split; [|split]]].
  - case_decide as Hfind; cbn; rewrite bool_decide_eq_true; split; done.
  - case_decide as Hfind; cbn; [|done]. intros _.
    split; [by rewrite bool_decide_eq_true, HallMap_find_assign|].
    split.
    + apply list_elem_of_fmap. exists ((floor, dir), id). split; [done|].
      apply list_elem_of_filter. split; [done|]. apply HallMap_elem_assign.
    + intros id' floor' dir' Hne. by rewrite HallMap_find_assign_ne.
  - by case_decide.
  - intros id'. cbn. by rewrite HallMap_find_erase.
  - intros floor' dir'. rewrite bool_decide_eq_true, list_elem_of_fmap. split.
    + intros ([key owner] & Hkey & Hin). cbn in Hkey. subst key.
      apply list_elem_of_filter in Hin as [Hown Hin]. cbn in Hown. subst owner.
      by apply HallMap_find_elem.
    + intros Hfind. exists ((floor', dir'), id). split; [done|].
      apply list_elem_of_filter. split; [done|]. by apply HallMap_find_Some.
Qed.

Lemma claim_board_operations_witness :
  (DistributedController.tryClaim 1 8 Direction.Down
     {| DistributedController.claimBoard_ :=
          [((3, Direction.Up), -1); ((4, Direction.Up), 0); ((8, Direction.Down), -1)] |}).1
  = true
  <-> DistributedController.hasClaim
        {| DistributedController.claimBoard_ :=
             [((3, Direction.Up), -1); ((4, Direction.Up), 0); ((8, Direction.Down), -1)] |}
        (-1) 8 Direction.Down = true.
Proof.
  apply (claim_board_operations
           {| DistributedController.claimBoard_ :=
                [((3, Direction.Up), -1); ((4, Direction.Up), 0);
                 ((8, Direction.Down), -1)] |} 1 8 Direction.Down).
  vm_compute. tauto.
Defined.

(** ** From a request to the car *)

(** A car-call request made while the queue is empty, followed by the
    delivery of one event: for a valid car and floor the floor is added to
    that car's car calls (and to no other state than the building, the log
    and the queue, which is empty again); for an invalid car or floor
    nothing but the log changes. *)
Theorem requestCarCall_reaches_the_car (config : Config) (s0 s : SimulationEngine.t)
    (steps : list Step) (c f : Z) :
  SimulationEngine.new config = Some s0 ->
  run steps s0 = Some s ->
  EventQueue.empty (SimulationEngine.eventQueue_ s) = true ->
  (Building.isValidElevator (SimulationEngine.building_ s) c = true
   /\ Building.isValidFloor (SimulationEngine.building_ s) f = true ->
   exists s' e e',
     run [StepRequestCarCall c f; StepProcessEvent] s = Some s'
     /\ Building.getElevator (SimulationEngine.building_ s) c = Some e
     /\ Building.getElevator (SimulationEngine.building_ s') c = Some e'
     /\ Elevator.getCarCalls e' = IntSet.insert f (Elevator.getCarCalls e)
     /\ Elevator.hasCarCallAt f e' = true
     /\ SimulationEngine.scheduler_ s' = SimulationEngine.scheduler_ s
     /\ EventQueue.empty (SimulationEngine.eventQueue_ s') = true)
  /\ (Building.isValidElevator (SimulationEngine.building_ s) c = false
      \/ Building.isValidFloor (SimulationEngine.building_ s) f = false ->
      exists line,
        run [StepRequestCarCall c f; StepProcessEvent] s
        = Some (SimulationEngine.log line s)).
Proof.
  intros Hnew Hrun Hempty.
  assert (reachable s) as Hreach by (by exists config, s0, steps).
  destruct (reachable_wellFormed _ Hreach) as [Hwf Hsorted].
  assert (EventQueue.queue_ (SimulationEngine.eventQueue_ s) = []) as Hqueue.
  { unfold EventQueue.empty in Hempty.
    by destruct (EventQueue.queue_ (SimulationEngine.eventQueue_ s)). }
  cbn [run step mbind option_bind]. unfold SimulationEngine.requestCarCall.
  split.
  - intros [Hc Hf]. rewrite Hc, Hf. cbn [negb].
    destruct (getElevator_wf _ c Hwf) as [e He]; [by apply isValidElevator_iff|].
    destruct (Scheduler_handleCarCall_carCalls c f _ (SimulationEngine.scheduler_ s) e Hf He)
      as (b' & e' & Hcall & He' & Hcalls & _).
    unfold EventQueue.tryPop, SimulationEngine.pushEvent, EventQueue.push.
    cbn [SimulationEngine.withQueue SimulationEngine.eventQueue_ SimulationEngine.log
         EventQueue.queue_ EventQueue.shutdown_].
    rewrite Hqueue. cbn [app]. unfold SimulationEngine.processEvent.
    cbn [ev_type ev_floor ev_elevatorId SimulationEngine.carCallEvent
         SimulationEngine.building_ SimulationEngine.scheduler_ SimulationEngine.log
         SimulationEngine.withQueue].
    rewrite Hcall. cbn [mbind option_bind].
    eexists _, e, e'. split; [reflexivity|]. split; [done|]. split; [exact He'|].
    split; [exact Hcalls|]. split; [|split; [done|done]].
    unfold Elevator.hasCarCallAt. apply bool_decide_eq_true.
    unfold Elevator.getCarCalls in Hcalls. rewrite Hcalls, IntSet_count_insert; [lia|].
    apply getElevator_Some in He as [_ He]. by eapply Forall_lookup_1 in Hsorted.
  - intros Hinvalid. unfold EventQueue.tryPop.
    destruct (Building.isValidElevator _ c); cbn [negb];
      [destruct (Building.isValidFloor _ f); cbn [negb]|];
      first [by destruct Hinvalid
            | cbn [SimulationEngine.eventQueue_ SimulationEngine.log]; rewrite Hqueue;
              by eexists ].
Qed.

Lemma requestCarCall_reaches_the_car_witness :
  exists s, sampleRun = Some s
    /\ exists s' e e',
         run [StepRequestCarCall 0 4; StepProcessEvent] s = Some s'
         /\ Building.getElevator (SimulationEngine.building_ s) 0 = Some e
         /\ Building.getElevator (SimulationEngine.building_ s') 0 = Some e'
         /\ Elevator.getCarCalls e' = IntSet.insert 4 (Elevator.getCarCalls e)
         /\ Elevator.hasCarCallAt 4 e' = true
         /\ SimulationEngine.scheduler_ s' = SimulationEngine.scheduler_ s
         /\ EventQueue.empty (SimulationEngine.eventQueue_ s') = true.
Proof.
  eexists. split; [vm_compute; reflexivity|].
  eapply (fun Hnew Hrun Hempty =>
            proj1 (requestCarCall_reaches_the_car scenarioAConfig _ _ sampleSteps
                     0 4 Hnew Hrun Hempty)).
  all: try (vm_compute; reflexivity).
  split; (vm_compute; reflexivity).
Defined.

(** ** The state-machine driver: timers *)

Lemma updateElevator_counts_down_once i s e :
  Building.getElevator (SimulationEngine.building_ s) i = Some e ->
  Elevator.state_ e <> ElevatorState.Idle ->
  1 < Elevator.ticksRemaining_ e ->
  SimulationEngine.updateElevator i s
  = Some (SimulationEngine.withBuilding
            (Building.setElevator (SimulationEngine.building_ s) i
               (withTimer (Elevator.ticksRemaining_ e - 1) e)) s).
Proof.
  intros He Hstate Ht. unfold SimulationEngine.updateElevator. rewrite He.
  cbn [mbind option_bind]. unfold Elevator.getState, Elevator.getTicksRemaining.
  assert (Elevator.decrementTick e = withTimer (Elevator.ticksRemaining_ e - 1) e) as ->
    by (unfold Elevator.decrementTick, withTimer; by rewrite decide_True by lia).
  cbn [withTimer Elevator.ticksRemaining_].
  destruct (Elevator.state_ e); repeat case_decide; first [done | lia].
Qed.

Lemma updateElevator_counts_down (i : Z) (k : nat) (s : SimulationEngine.t)
    (e : Elevator.t) :
  Building.getElevator (SimulationEngine.building_ s) i = Some e ->
  Elevator.getState e <> ElevatorState.Idle ->
  Z.of_nat k < Elevator.getTicksRemaining e ->
  repeatCall k (SimulationEngine.updateElevator i) s
  = Some (SimulationEngine.withBuilding
            (Building.setElevator (SimulationEngine.building_ s) i
               (withTimer (Elevator.getTicksRemaining e - Z.of_nat k) e)) s).
Proof.
  unfold Elevator.getState, Elevator.getTicksRemaining.
  revert s e. induction k as [|k IH]; intros s e He Hstate Ht; cbn [repeatCall].
  - f_equal. destruct s as [b sched q lg cfg r t].
    unfold SimulationEngine.withBuilding, Building.setElevator. cbn in *. f_equal.
    apply getElevator_Some in He as [_ He].
    replace (withTimer (Elevator.ticksRemaining_ e - Z.of_nat 0) e) with e
      by (destruct e; unfold withTimer; cbn; f_equal; lia).
    rewrite list_insert_id by done. by destruct b.
  - rewrite (updateElevator_counts_down_once i s e He Hstate) by lia.
    cbn [mbind option_bind].
    rewrite (IH _ (withTimer (Elevator.ticksRemaining_ e - 1) e)); cbn; [| |done|lia].
    + f_equal. unfold SimulationEngine.withBuilding, Building.setElevator. cbn.
      rewrite list_insert_insert_eq.
      replace (withTimer (Elevator.ticksRemaining_ e - 1 - Z.of_nat k)
                 (withTimer (Elevator.ticksRemaining_ e - 1) e))
        with (withTimer (Elevator.ticksRemaining_ e - Z.of_nat (S k)) e); [done|].
      unfold withTimer. cbn. f_equal. lia.
    + by eapply getElevator_setElevator.
Qed.

Lemma updateElevator_arrives (i : Z) (k : nat) (s : SimulationEngine.t)
    (e : Elevator.t) :
  Building.getElevator (SimulationEngine.building_ s) i = Some e ->
  Elevator.getState e = ElevatorState.Moving ->
  Elevator.getTicksRemaining e = Z.of_nat k + 1 ->
  let next := if decide (Elevator.getDirection e = Direction.Up)
              then Elevator.getCurrentFloor e + 1 else Elevator.getCurrentFloor e - 1 in
  let arrived := Elevator.arriveAtFloor next (withTimer 0 e) in
  repeatCall (S k) (SimulationEngine.updateElevator i) s
  = Some (SimulationEngine.log (LogElevatorState arrived)
            (SimulationEngine.pushEvent
               {| ev_type := EventType.ElevatorArrived; ev_floor := next;
                  ev_elevatorId := i; ev_direction := Direction.Idle |}
               (SimulationEngine.withBuilding
                  (Building.setElevator (SimulationEngine.building_ s) i arrived) s))).
Proof.
  intros He Hstate Ht next arrived.
  replace (S k) with (k + 1)%nat by lia. rewrite repeatCall_add.
  rewrite (updateElevator_counts_down i k s e He) by (rewrite ?Hstate, ?Ht; first [done | lia]).
  cbn [mbind option_bind repeatCall].
  replace (Elevator.getTicksRemaining e - Z.of_nat k) with 1 by lia.
  unfold SimulationEngine.updateElevator.
  cbn [SimulationEngine.building_ SimulationEngine.withBuilding].
  rewrite (getElevator_setElevator _ _ _ _ He). cbn [mbind option_bind].
  unfold Elevator.getState, Elevator.getTicksRemaining, Elevator.getDirection,
    Elevator.getCurrentFloor, Elevator.decrementTick in *.
  cbn [withTimer Elevator.state_ Elevator.ticksRemaining_ Elevator.direction_
       Elevator.currentFloor_].
  rewrite Hstate. rewrite (decide_True (P := ElevatorState.Moving = ElevatorState.Moving)) by done.
  rewrite (decide_True (P := 1 > 0)) by lia.
  cbn [Elevator.ticksRemaining_ Elevator.direction_ Elevator.currentFloor_].
  rewrite (decide_True (P := 1 - 1 = 0)) by done. cbn [mbind option_bind].
  f_equal. unfold SimulationEngine.log, SimulationEngine.pushEvent,
    SimulationEngine.withQueue, SimulationEngine.withBuilding, Building.setElevator.
  cbn. rewrite list_insert_insert_eq. reflexivity.
Qed.

(** While more than one tick is left on the timer of a car that is not
    idle, [updateElevators] only counts the timer down: after [k] updates
    of a car whose timer is above [k], the car is as before with [k] ticks
    less, and nothing else in the engine has changed, no event having been
    queued.  So a moving car whose timer shows [k + 1] arrives with update
    number [k + 1]: it is then at the next floor in its direction of
    travel (one floor down unless the direction is Up), its doors are
    opening with no tick left on the timer, one [ElevatorArrived] event
    for that floor has been queued and the state of the car logged. *)
Theorem timer_counts_down_then_car_arrives (i : Z) (s : SimulationEngine.t)
    (e : Elevator.t) :
  Building.getElevator (SimulationEngine.building_ s) i = Some e ->
  Elevator.getState e <> ElevatorState.Idle ->
  (forall k : nat,
     Z.of_nat k < Elevator.getTicksRemaining e ->
     repeatCall k (SimulationEngine.updateElevator i) s
     = Some (SimulationEngine.withBuilding
               (Building.setElevator (SimulationEngine.building_ s) i
                  (withTimer (Elevator.getTicksRemaining e - Z.of_nat k) e)) s))
  /\ (Elevator.getState e = ElevatorState.Moving ->
      forall k : nat,
        Elevator.getTicksRemaining e = Z.of_nat k + 1 ->
        let next := if decide (Elevator.getDirection e = Direction.Up)
                    then Elevator.getCurrentFloor e + 1 else Elevator.getCurrentFloor e - 1 in
        let arrived := Elevator.arriveAtFloor next (withTimer 0 e) in
        repeatCall (S k) (SimulationEngine.updateElevator i) s
        = Some (SimulationEngine.log (LogElevatorState arrived)
                  (SimulationEngine.pushEvent
                     {| ev_type := EventType.ElevatorArrived; ev_floor := next;
                        ev_elevatorId := i; ev_direction := Direction.Idle |}
                     (SimulationEngine.withBuilding
                        (Building.setElevator (SimulationEngine.building_ s) i arrived) s)))).
Proof.
  intros He Hstate. split.
  - intros k Hk. by apply updateElevator_counts_down.
  - intros Hmoving k Hk. by apply updateElevator_arrives.
Qed.

Lemma timer_counts_down_then_car_arrives_witness :
  carState 0 <$> repeatCall 2 (SimulationEngine.updateElevator 0)
                   (oneCarEngine (Elevator.startMoving Direction.Up 2 (Elevator.new 0 6 1)))
  = Some (Some ElevatorState.DoorsOpening).
Proof.
  destruct (timer_counts_down_then_car_arrives 0
              (oneCarEngine (Elevator.startMoving Direction.Up 2 (Elevator.new 0 6 1)))
              (Elevator.startMoving Direction.Up 2 (Elevator.new 0 6 1)))
    as [_ Harrives]; [reflexivity | vm_compute; discriminate |].
  rewrite (Harrives eq_refl 1%nat eq_refl). vm_compute. reflexivity.
Defined.

(** ** Elevator: calls above and below *)

Lemma existsb_elem {A} (p : A -> bool) (l : list A) :
  existsb p l = true <-> exists x, x ∈ l /\ p x = true.
Proof.
  induction l as [|y r IH]; cbn [existsb].
  - split; [done|]. intros (x & Hx & _). by apply elem_of_nil in Hx.
  - rewrite orb_true_iff, IH. split.
    + intros [Hy|(x & Hx & Hp)]; [exists y | exists x];
        (split; [first [apply list_elem_of_here | by apply list_elem_of_further] | done]).
    + intros (x & Hx & Hp). apply elem_of_cons in Hx as [->|Hx]; [by left | right; by exists x].
Qed.

(** [hasCallsAbove] and [hasCallsBelow] agree with
    [getNextCarCallInDirection]: a car going Up has a car call above it
    exactly when its next car call is above it, and a car going Down has
    one below it exactly when its next car call is below it. *)
Theorem hasCalls_agree_with_next_car_call (e : Elevator.t) :
  IntSet.sorted (Elevator.carCalls_ e) ->
  (Elevator.hasCallsAbove e = true
   <-> exists f, Elevator.hasCarCallAt f e = true /\ Elevator.currentFloor_ e < f)
  /\ (Elevator.direction_ e = Direction.Up ->
      (Elevator.hasCallsAbove e = true
       <-> exists f, Elevator.getNextCarCallInDirection e = Some f
                     /\ Elevator.currentFloor_ e < f))
  /\ (Elevator.direction_ e = Direction.Down ->
      (Elevator.hasCallsBelow e = true
       <-> exists f, Elevator.getNextCarCallInDirection e = Some f
                     /\ f < Elevator.currentFloor_ e)).
Proof.
  intros Hs.
  assert (forall f, f ∈ Elevator.carCalls_ e <-> Elevator.hasCarCallAt f e = true) as Hhas.
  { intros f. unfold Elevator.hasCarCallAt. rewrite bool_decide_eq_true.
    clear Hs. induction (Elevator.carCalls_ e) as [|y r IH].
    - cbn. split; [intros H; by apply elem_of_nil in H | lia].
    - rewrite IntSet_count_cons, elem_of_cons, IH. pose proof (IntSet_count_nonneg f r).
      case_decide; split; intros; first [lia | tauto]. }
  assert (Elevator.hasCallsAbove e = true
          <-> exists f, f ∈ Elevator.carCalls_ e /\ Elevator.currentFloor_ e < f) as Habove.
  { unfold Elevator.hasCallsAbove. rewrite existsb_elem.
    split; intros (f & Hf & Hp); exists f; (split; [done|]);
      [apply bool_decide_eq_true in Hp | apply bool_decide_eq_true]; lia. }
  assert (Elevator.hasCallsBelow e = true
          <-> exists f, f ∈ Elevator.carCalls_ e /\ f < Elevator.currentFloor_ e) as Hbelow.
  { unfold Elevator.hasCallsBelow. rewrite existsb_elem.
    split; intros (f & Hf & Hp); exists f; (split; [done|]);
      [apply bool_decide_eq_true in Hp | apply bool_decide_eq_true]; lia. }
  pose proof (IntSet_upper_bound_spec (Elevator.currentFloor_ e) _ Hs) as Hub.
  pose proof (IntSet_lower_bound_spec (Elevator.currentFloor_ e) _ Hs) as Hlb.
  split; [|split].
  - rewrite Habove. split; intros (f & Hf & Hlt); exists f; (split; [by apply Hhas | done]).
  - intros Hdir. rewrite Habove. unfold Elevator.getNextCarCallInDirection. rewrite Hdir.
    unfold IntSet.t in *.
    destruct (Elevator.carCalls_ e) as [|y r] eqn:Hcalls.
    { cbn. split; [intros (f & Hf & _); by apply elem_of_nil in Hf | by intros (f & Hf & _)]. }
    cbn [IntSet.empty].
    destruct (min_element _ (y :: r)) as [c|] eqn:Hc; [|done].
    apply min_element_elem in Hc.
    destruct ((y :: r) !! IntSet.upper_bound (Elevator.currentFloor_ e) (y :: r)) as [u|].
    + destruct Hub as (Hu & Hlt & _). split; [intros _; by exists u | intros _; by exists u].
    + split.
      * intros (f & Hf & Hlt). specialize (Hub f Hf). lia.
      * intros (f & [= <-] & Hlt). by exists c.
  - intros Hdir. rewrite Hbelow. unfold Elevator.getNextCarCallInDirection. rewrite Hdir.
    unfold IntSet.t in *.
    destruct (Elevator.carCalls_ e) as [|y r] eqn:Hcalls.
    { cbn. split; [intros (f & Hf & _); by apply elem_of_nil in Hf | by intros (f & Hf & _)]. }
    cbn [IntSet.empty].
    destruct (min_element _ (y :: r)) as [c|] eqn:Hc; [|done].
    apply min_element_elem in Hc.
    destruct (decide (IntSet.lower_bound (Elevator.currentFloor_ e) (y :: r) <> 0%nat)).
    + destruct Hlb as (l & Hl & Hlin & Hlt & _). rewrite Hl.
      split; [intros _; by exists l | intros _; by exists l].
    + split.
      * intros (f & Hf & Hlt). specialize (Hlb f Hf). lia.
      * intros (f & [= <-] & Hlt). by exists c.
Qed.

Lemma hasCalls_agree_with_next_car_call_witness :
  Elevator.hasCallsAbove
    (applyOps [OpAddCarCall 2; OpAddCarCall 6; OpStartMoving Direction.Up 2]
              (Elevator.new 0 6 4)) = true
  <-> exists f,
        Elevator.hasCarCallAt f
          (applyOps [OpAddCarCall 2; OpAddCarCall 6; OpStartMoving Direction.Up 2]
                    (Elevator.new 0 6 4)) = true
        /\ Elevator.currentFloor_
             (applyOps [OpAddCarCall 2; OpAddCarCall 6; OpStartMoving Direction.Up 2]
                       (Elevator.new 0 6 4)) < f.
Proof.
  apply (hasCalls_agree_with_next_car_call
           (applyOps [OpAddCarCall 2; OpAddCarCall 6; OpStartMoving Direction.Up 2]
                     (Elevator.new 0 6 4))).
  vm_compute. repeat split.
Defined.

(** ** MasterController: stopping and arriving *)

Lemma IntSet_erase_absent x s : IntSet.count x s <= 0 -> IntSet.erase x s = s.
Proof.
  induction s as [|y r IH]; [done|]. rewrite IntSet_count_cons. cbn [IntSet.erase].
  pose proof (IntSet_count_nonneg x r). case_decide; [lia|]. intros Hc. by rewrite IH by lia.
Qed.

Lemma setElevator_same b id e :
  Building.getElevator b id = Some e -> Building.setElevator b id e = b.
Proof.
  intros He. apply getElevator_Some in He as [_ He]. destruct b as [floors cars cfg].
  unfold Building.setElevator. cbn in *. by rewrite list_insert_id.
Qed.

(** [shouldStopAtFloor] and [onElevatorArrived] of the master controller
    agree: the arrival of a car at a floor where it should not stop
    changes nothing at all, and a car should stop exactly where it has a
    car call or where the hall call in its direction of travel is assigned
    to it.  Both throw for a car that does not exist. *)
Theorem arrival_where_car_should_not_stop_changes_nothing (c f : Z) (b : Building.t)
    (m : MasterController.t) :
  (MasterController.shouldStopAtFloor m b c f = Some false ->
   MasterController.onElevatorArrived c f (b, m) = Some (b, m))
  /\ (forall e, Building.getElevator b c = Some e ->
        (MasterController.shouldStopAtFloor m b c f = Some true
         <-> Elevator.hasCarCallAt f e = true
             \/ MasterController.getAssignment m f (Elevator.getDirection e) = Some c))
  /\ (Building.getElevator b c = None ->
      MasterController.shouldStopAtFloor m b c f = None
      /\ MasterController.onElevatorArrived c f (b, m) = None).
Proof.
  unfold MasterController.shouldStopAtFloor, MasterController.onElevatorArrived.
  split; [|split].
  - destruct (Building.getElevator b c) as [e|] eqn:He; cbn [mbind option_bind]; [|done].
    destruct (Elevator.hasCarCallAt f e) eqn:Hcall; [done|].
    intros [= Hassigned]. apply bool_decide_eq_false in Hassigned.
    rewrite decide_False by done. do 2 f_equal.
    assert (Elevator.removeCarCall f e = e) as ->.
    { unfold Elevator.hasCarCallAt in Hcall. apply bool_decide_eq_false in Hcall.
      destruct e. unfold Elevator.removeCarCall. cbn in *. f_equal.
      apply IntSet_erase_absent. lia. }
    by apply setElevator_same.
  - intros e He. rewrite He. cbn [mbind option_bind].
    destruct (Elevator.hasCarCallAt f e); [split; [by left | done]|].
    split.
    + intros [= Hassigned]. right. by apply bool_decide_eq_true in Hassigned.
    + intros [?|Hassigned]; [done|]. f_equal. by apply bool_decide_eq_true.
  - by intros ->.
Qed.

(** ** The controllers: the periodic tick *)

Lemma goToClosest_busyCarsKept id e destinations b :
  Building.getElevator b id = Some e -> Elevator.getState e = ElevatorState.Idle ->
  busyCarsKept b (goToClosest id e destinations b).
Proof.
  intros He Hidle j ej Hj Hbusy.
  assert (j <> id) as Hne by (intros ->; congruence).
  unfold goToClosest. destruct (IntSet.empty destinations); [done|].
  destruct (min_element _ destinations); [|done].
  case_decide; by rewrite (getElevator_setElevator_ne _ _ _ _ _ He Hne).
Qed.

Lemma dispatchElevator_busyCarsKept m id b b' :
  MasterController.dispatchElevator m id b = Some b' -> busyCarsKept b b'.
Proof.
  unfold MasterController.dispatchElevator.
  destruct (Building.getElevator b id) as [e|] eqn:He; cbn [mbind option_bind]; [|done].
  destruct (decide (Elevator.getState e <> ElevatorState.Idle)) as [Hbusy|Hidle];
    intros [= <-]; [by intros j ej Hj _|].
  apply goToClosest_busyCarsKept; [done|].
  by destruct (decide (Elevator.getState e = ElevatorState.Idle)).
Qed.

Lemma decideNextAction_busyCarsKept d id b b' :
  DistributedController.decideNextAction d id b = Some b' -> busyCarsKept b b'.
Proof.
  unfold DistributedController.decideNextAction.
  destruct (Building.getElevator b id) as [e|] eqn:He; cbn [mbind option_bind]; [|done].
  destruct (decide (Elevator.getState e <> ElevatorState.Idle)) as [Hbusy|Hidle];
    intros [= <-]; [by intros j ej Hj _|].
  apply goToClosest_busyCarsKept; [done|].
  by destruct (decide (Elevator.getState e = ElevatorState.Idle)).
Qed.

Lemma Master_tick_loop_busyCarsKept m (n : nat) : forall i b b',
  MasterController.tick_loop m n i b = Some b' -> busyCarsKept b b'.
Proof.
  induction n as [|n IH]; intros i b b'; cbn [MasterController.tick_loop].
  - intros [= <-]. by intros j e Hj _.
  - destruct (Building.getElevator b i) as [e|]; cbn [mbind option_bind]; [|done].
    case_decide.
    + destruct (MasterController.dispatchElevator m i b) as [b1|] eqn:Hd;
        cbn [mbind option_bind]; [|done].
      intros Hloop j ej Hj Hbusy. apply (IH _ _ _ Hloop); [|done].
      by apply (dispatchElevator_busyCarsKept _ _ _ _ Hd).
    + cbn [mbind option_bind]. apply IH.
Qed.

Lemma Distributed_tick_loop_busyCarsKept (n : nat) : forall i b d b' d',
  DistributedController.tick_loop n i (b, d) = Some (b', d') -> busyCarsKept b b'.
Proof.
  induction n as [|n IH]; intros i b d b' d'; cbn [DistributedController.tick_loop].
  - intros [= <- <-]. by intros j e Hj _.
  - destruct (DistributedController.tryClaimCalls i b d) as [d1|];
      cbn [mbind option_bind]; [|done].
    destruct (Building.getElevator b i) as [e|]; cbn [mbind option_bind]; [|done].
    case_decide.
    + destruct (DistributedController.decideNextAction d1 i b) as [b1|] eqn:Hd;
        cbn [mbind option_bind]; [|done].
      intros Hloop j ej Hj Hbusy. apply (IH _ _ _ _ _ Hloop); [|done].
      by apply (decideNextAction_busyCarsKept _ _ _ _ Hd).
    + cbn [mbind option_bind]. apply IH.
Qed.

(** The periodic [tick] of either controller only ever starts idle cars:
    every car that is not idle (moving, or with its doors opening, open or
    closing) is exactly as before, and so is every landing button.  The
    master controller's [tick] also leaves its table of assignments as it
    was. *)
Theorem tick_leaves_busy_cars_alone :
  (forall b m b' m',
     MasterController.tick (b, m) = Some (b', m') ->
     m' = m /\ Building.floors_ b' = Building.floors_ b /\ busyCarsKept b b')
  /\ (forall b d b' d',
        DistributedController.tick (b, d) = Some (b', d') ->
        Building.floors_ b' = Building.floors_ b /\ busyCarsKept b b').
Proof.
  split.
  - intros b m b' m' Htick.
    destruct (Master_tick_changes _ _ _ _ Htick) as (_ & Hfloors & _).
    unfold MasterController.tick in Htick.
    destruct (MasterController.tick_loop _ _ _ _) as [b1|] eqn:Hloop; [|done].
    cbn in Htick. injection Htick as <- <-.
    split; [done|]. split; [done|]. by eapply Master_tick_loop_busyCarsKept.
  - intros b d b' d' Htick.
    destruct (Distributed_tick_changes _ _ _ _ Htick) as (_ & Hfloors & _).
    split; [done|]. unfold DistributedController.tick in Htick.
    by eapply Distributed_tick_loop_busyCarsKept.
Qed.

(** ** Landing buttons and the scheduler's table *)

Lemma hasHallCall_frame f d b b' :
  Building.floors_ b' = Building.floors_ b -> Building.config_ b' = Building.config_ b ->
  Building.hasHallCall f d b' = Building.hasHallCall f d b.
Proof.
  intros Hf Hc. unfold Building.hasHallCall, Building.isValidFloor. by rewrite Hf, Hc.
Qed.

Lemma hasHallCall_carsStep f d b b' :
  carsStep b b' -> Building.hasHallCall f d b' = Building.hasHallCall f d b.
Proof. intros (Hc & Hf & _). by apply hasHallCall_frame. Qed.

Lemma hasHallCall_registerHallCall f d b :
  Building.wf b -> Building.isValidFloor b f = true -> d <> Direction.Idle ->
  Building.hasHallCall f d (Building.registerHallCall f d b) = true.
Proof.
  intros [Hfloors _] Hf Hd. pose proof Hf as Hrange. apply isValidFloor_iff in Hrange.
  destruct (lookup_lt_is_Some_2 (Building.floors_ b) (Z.to_nat (f - 1))) as [fl Hfl]; [lia|].
  unfold Building.hasHallCall, Building.registerHallCall. rewrite Hf. cbn [negb].
  destruct d; [| |done].
  - change (Building.isValidFloor (Building.updateFloor b f Floor.pressUpButton) f)
      with (Building.isValidFloor b f).
    rewrite Hf. cbn [negb Building.updateFloor Building.floors_].
    by rewrite list_lookup_alter_eq, Hfl.
  - change (Building.isValidFloor (Building.updateFloor b f Floor.pressDownButton) f)
      with (Building.isValidFloor b f).
    rewrite Hf. cbn [negb Building.updateFloor Building.floors_].
    by rewrite list_lookup_alter_eq, Hfl.
Qed.

Lemma hasHallCall_updateFloor_ne f g f' d' b :
  f' <> f -> Building.isValidFloor b f = true ->
  Building.hasHallCall f' d' (Building.updateFloor b f g) = Building.hasHallCall f' d' b.
Proof.
  intros Hne Hf. unfold Building.hasHallCall.
  change (Building.isValidFloor (Building.updateFloor b f g) f')
    with (Building.isValidFloor b f').
  destruct (Building.isValidFloor b f') eqn:Hf'; [|done]. cbn [negb Building.updateFloor Building.floors_].
  apply isValidFloor_iff in Hf, Hf'. by rewrite list_lookup_alter_ne by lia.
Qed.

Lemma hasHallCall_updateFloor_other f g f' d' b :
  (forall fl, match d' with
              | Direction.Up => Floor.isUpPressed (g fl) = Floor.isUpPressed fl
              | Direction.Down => Floor.isDownPressed (g fl) = Floor.isDownPressed fl
              | Direction.Idle => True
              end) ->
  Building.hasHallCall f' d' (Building.updateFloor b f g) = Building.hasHallCall f' d' b.
Proof.
  intros Hg. unfold Building.hasHallCall.
  change (Building.isValidFloor (Building.updateFloor b f g) f')
    with (Building.isValidFloor b f').
  destruct (Building.isValidFloor b f'); [|done].
  cbn [negb Building.updateFloor Building.floors_]. rewrite list_lookup_alter.
  case_decide as Hi; [|done]. rewrite Hi.
  destruct (Building.floors_ b !! Z.to_nat (f' - 1)) as [fl|]; [|done]. cbn.
  specialize (Hg fl). by destruct d'.
Qed.

Lemma hasHallCall_registerHallCall_ne f d f' d' b :
  (f', d') <> (f, d) ->
  Building.hasHallCall f' d' (Building.registerHallCall f d b) = Building.hasHallCall f' d' b.
Proof.
  intros Hne. unfold Building.registerHallCall.
  destruct (Building.isValidFloor b f) eqn:Hf; cbn [negb]; [|done].
  destruct (decide (f' = f)) as [->|Hf'].
  - destruct d; [| |done]; apply hasHallCall_updateFloor_other; intros fl;
      destruct d'; try done; congruence.
  - destruct d; [| |done]; by apply hasHallCall_updateFloor_ne.
Qed.

Lemma hasHallCall_clearHallCall_ne f d f' d' b :
  (f', d') <> (f, d) ->
  Building.hasHallCall f' d' (Building.clearHallCall f d b) = Building.hasHallCall f' d' b.
Proof.
  intros Hne. unfold Building.clearHallCall.
  destruct (Building.isValidFloor b f) eqn:Hf; cbn [negb]; [|done].
  destruct (decide (f' = f)) as [->|Hf'].
  - destruct d; [| |done]; apply hasHallCall_updateFloor_other; intros fl;
      destruct d'; try done; congruence.
  - destruct d; [| |done]; by apply hasHallCall_updateFloor_ne.
Qed.

Lemma HallMap_elem_find key v m : (key, v) ∈ m -> HallMap.find key m <> None.
Proof.
  induction m as [|[k w] r IH]; intros Hin; [by apply elem_of_nil in Hin|].
  cbn [HallMap.find]. case_decide; [done|].
  apply elem_of_cons in Hin as [[= -> ->]|Hin]; [done | by apply IH].
Qed.

Lemma callsLit_assign f d v b m :
  Building.wf b -> Building.isValidFloor b f = true -> d <> Direction.Idle ->
  callsLit b m ->
  callsLit (Building.registerHallCall f d b) (HallMap.assign (f, d) v m).
Proof.
  intros Hwf Hf Hd Hlit f' d' Hfind.
  destruct (decide ((f', d') = (f, d))) as [[= -> ->]|Hne];
    [by apply hasHallCall_registerHallCall|].
  rewrite hasHallCall_registerHallCall_ne by done. apply Hlit.
  by rewrite HallMap_find_assign_ne in Hfind.
Qed.

Lemma callsLit_register f d b m :
  Building.wf b -> Building.isValidFloor b f = true -> d <> Direction.Idle ->
  callsLit b m -> callsLit (Building.registerHallCall f d b) m.
Proof.
  intros Hwf Hf Hd Hlit f' d' Hfind.
  destruct (decide ((f', d') = (f, d))) as [[= -> ->]|Hne];
    [by apply hasHallCall_registerHallCall|].
  rewrite hasHallCall_registerHallCall_ne by done. by apply Hlit.
Qed.

Lemma callsLit_erase f d b m :
  HallMap.sorted m -> callsLit b m ->
  callsLit (Building.clearHallCall f d b) (HallMap.erase (f, d) m).
Proof.
  intros Hs Hlit f' d' Hfind.
  destruct (decide ((f', d') = (f, d))) as [[= -> ->]|Hne];
    [by rewrite HallMap_find_erase in Hfind|].
  rewrite hasHallCall_clearHallCall_ne by done. apply Hlit.
  by rewrite HallMap_find_erase_ne in Hfind.
Qed.

Lemma callsLit_frame b b' m :
  Building.floors_ b' = Building.floors_ b -> Building.config_ b' = Building.config_ b ->
  callsLit b m -> callsLit b' m.
Proof. intros Hf Hc Hlit f d Hfind. rewrite (hasHallCall_frame _ _ _ _ Hf Hc). by apply Hlit. Qed.

Lemma litCallsListed_frame b b' m :
  Building.floors_ b' = Building.floors_ b -> Building.config_ b' = Building.config_ b ->
  litCallsListed b m -> litCallsListed b' m.
Proof.
  intros Hf Hc Hlit f d Hcall. rewrite (hasHallCall_frame _ _ _ _ Hf Hc) in Hcall.
  by apply Hlit.
Qed.

Lemma buttonsMatch_carsStep b b' sched :
  carsStep b b' -> buttonsMatch b sched -> buttonsMatch b' sched.
Proof.
  intros (Hc & Hf & _) [Hlit Hlisted]. split; [by eapply callsLit_frame|].
  destruct sched; [done|]. by eapply litCallsListed_frame.
Qed.

Lemma buttonsMatch_sameKeys b d d' :
  sameKeys (DistributedController.claimBoard_ d) (DistributedController.claimBoard_ d') ->
  buttonsMatch b (DistributedSched d) -> buttonsMatch b (DistributedSched d').
Proof.
  intros Hkeys [Hlit Hlisted]. split.
  - intros f dir Hfind. apply Hlit. cbn in *. intros Hnone. apply Hfind. by apply Hkeys.
  - intros f dir Hcall Hnone. apply (Hlisted f dir Hcall). by apply Hkeys.
Qed.

(** *** MasterController *)

Lemma Master_handleHallCall_buttons f d b m b' m' :
  Building.wf b -> Building.isValidFloor b f = true -> d <> Direction.Idle ->
  buttonsMatch b (MasterSched m) ->
  MasterController.handleHallCall f d (b, m) = Some (b', m') ->
  buttonsMatch b' (MasterSched m').
Proof.
  intros Hwf Hf Hd [Hlit _]. unfold MasterController.handleHallCall.
  case_decide; [by intros [= <- <-]|].
  destruct (MasterController.selectElevator _ f d) as [r|]; cbn [mbind option_bind]; [|done].
  case_decide.
  - destruct (MasterController.dispatchElevator_locked r _) as [b1|] eqn:Hd1;
      cbn [mbind option_bind]; [|done].
    apply dispatchElevator_locked_Some in Hd1 as [-> _].
    intros [= <- <-]. split; [|done]. by apply callsLit_assign.
  - intros [= <- <-]. split; [|done]. by apply callsLit_register.
Qed.

Lemma Master_onElevatorArrived_buttons c f b m b' m' :
  HallMap.sorted (MasterController.assignments_ m) ->
  buttonsMatch b (MasterSched m) ->
  MasterController.onElevatorArrived c f (b, m) = Some (b', m') ->
  buttonsMatch b' (MasterSched m').
Proof.
  intros Hs [Hlit _]. unfold MasterController.onElevatorArrived.
  destruct (Building.getElevator b c) as [e|]; cbn [mbind option_bind]; [|done].
  case_decide; intros [= <- <-]; (split; [|done]).
  - eapply callsLit_frame; [| |by apply callsLit_erase]; done.
  - by eapply callsLit_frame.
Qed.

Lemma Master_handleCarCall_table c f b m b' m' :
  MasterController.handleCarCall c f (b, m) = Some (b', m') -> m' = m.
Proof.
  unfold MasterController.handleCarCall. destruct (_ || _); [by intros [= _ <-]|].
  destruct (Building.getElevator b c); cbn [mbind option_bind]; [|done].
  destruct (MasterController.dispatchElevator _ _ _); cbn [mbind option_bind]; [|done].
  by intros [= _ <-].
Qed.

Lemma Master_onDoorsClosed_table c b m b' m' :
  MasterController.onDoorsClosed c (b, m) = Some (b', m') -> m' = m.
Proof.
  unfold MasterController.onDoorsClosed.
  destruct (MasterController.dispatchElevator _ _ _); cbn [mbind option_bind]; [|done].
  by intros [= _ <-].
Qed.

Lemma Master_tick_table b m b' m' :
  MasterController.tick (b, m) = Some (b', m') -> m' = m.
Proof.
  unfold MasterController.tick.
  destruct (MasterController.tick_loop _ _ _ _); cbn [mbind option_bind]; [|done].
  by intros [= _ <-].
Qed.

(** *** DistributedController *)

Lemma Distributed_handleHallCall_buttons f dir b d b' d' :
  Building.wf b -> Building.isValidFloor b f = true -> dir <> Direction.Idle ->
  buttonsMatch b (DistributedSched d) ->
  DistributedController.handleHallCall f dir (b, d) = Some (b', d') ->
  buttonsMatch b' (DistributedSched d').
Proof.
  intros Hwf Hf Hd [Hlit Hlisted]. unfold DistributedController.handleHallCall.
  case_decide as Hfind; intros [= <- <-]; split.
  - by apply callsLit_assign.
  - intros f' dir' Hcall. cbn.
    destruct (decide ((f', dir') = (f, dir))) as [[= -> ->]|Hne];
      [by rewrite HallMap_find_assign|].
    rewrite HallMap_find_assign_ne by done. apply Hlisted.
    by rewrite hasHallCall_registerHallCall_ne in Hcall.
  - by apply callsLit_register.
  - intros f' dir' Hcall.
    destruct (decide ((f', dir') = (f, dir))) as [[= -> ->]|Hne]; [done|].
    apply Hlisted. by rewrite hasHallCall_registerHallCall_ne in Hcall.
Qed.

Lemma Distributed_onElevatorArrived_buttons c f b d b' d' :
  HallMap.sorted (DistributedController.claimBoard_ d) ->
  buttonsMatch b (DistributedSched d) ->
  DistributedController.onElevatorArrived c f (b, d) = Some (b', d') ->
  buttonsMatch b' (DistributedSched d').
Proof.
  intros Hs [Hlit Hlisted]. unfold DistributedController.onElevatorArrived.
  destruct (Building.getElevator b c) as [e|]; cbn [mbind option_bind]; [|done].
  destruct (DistributedController.hasClaim d c f (Elevator.getDirection e));
    intros [= <- <-]; split.
  - eapply callsLit_frame; [| |by apply callsLit_erase]; done.
  - intros f' dir' Hcall.
    rewrite (hasHallCall_frame _ _ (Building.clearHallCall f (Elevator.getDirection e) b))
      in Hcall by done.
    cbn. destruct (decide ((f', dir') = (f, Elevator.getDirection e))) as [[= -> ->]|Hne];
      [by rewrite hasHallCall_clearHallCall in Hcall|].
    rewrite HallMap_find_erase_ne by done. apply Hlisted.
    by rewrite hasHallCall_clearHallCall_ne in Hcall.
  - by eapply callsLit_frame.
  - by eapply litCallsListed_frame.
Qed.

Lemma tryClaimCalls_sameKeys id b d d' :
  DistributedController.tryClaimCalls id b d = Some d' ->
  sameKeys (DistributedController.claimBoard_ d) (DistributedController.claimBoard_ d').
Proof.
  unfold DistributedController.tryClaimCalls.
  destruct (Building.getElevator b id) as [e|]; cbn [mbind option_bind]; [|done].
  destruct (_ && _); [by intros [= <-]|].
  pose proof (scanClaim_result (Elevator.getCurrentFloor e)
                (DistributedController.claimBoard_ d) (-1, Direction.Idle, INT_MAX)) as Hscan.
  destruct (foldl _ _ _) as [[bestFloor bestDir] bestDistance].
  case_decide as Hge; intros [= <-]; [|done].
  cbn in *. destruct Hscan as [[= -> ->]|([[kf kd] v] & Hin & Heq)]; [lia|].
  cbn in Heq. injection Heq as -> ->. intros key.
  destruct (decide (key = (kf, kd))) as [->|Hne].
  - rewrite HallMap_find_assign. split; [done|]. intros Hnone.
    by apply HallMap_elem_find in Hin.
  - by rewrite HallMap_find_assign_ne.
Qed.

Lemma Distributed_tick_loop_sameKeys (n : nat) : forall i b d b' d',
  DistributedController.tick_loop n i (b, d) = Some (b', d') ->
  sameKeys (DistributedController.claimBoard_ d) (DistributedController.claimBoard_ d').
Proof.
  induction n as [|n IH]; intros i b d b' d'; cbn [DistributedController.tick_loop].
  - by intros [= <- <-].
  - destruct (DistributedController.tryClaimCalls i b d) as [d1|] eqn:Hclaim;
      cbn [mbind option_bind]; [|done].
    destruct (Building.getElevator b i) as [e|]; cbn [mbind option_bind]; [|done].
    assert (forall b1, DistributedController.tick_loop n (i + 1) (b1, d1) = Some (b', d') ->
              sameKeys (DistributedController.claimBoard_ d)
                       (DistributedController.claimBoard_ d')) as Hrest.
    { intros b1 Hloop key. rewrite (IH _ _ _ _ _ Hloop key).
      apply (tryClaimCalls_sameKeys _ _ _ _ Hclaim). }
    case_decide; [|apply Hrest].
    destruct (DistributedController.decideNextAction d1 i b) as [b1|];
      cbn [mbind option_bind]; [apply Hrest | done].
Qed.

Lemma Distributed_handleCarCall_table c f b d b' d' :
  DistributedController.handleCarCall c f (b, d) = Some (b', d') -> d' = d.
Proof.
  unfold DistributedController.handleCarCall. destruct (_ || _); [by intros [= _ <-]|].
  destruct (Building.getElevator b c); cbn [mbind option_bind]; [|done].
  destruct (DistributedController.decideNextAction _ _ _); cbn [mbind option_bind]; [|done].
  by intros [= _ <-].
Qed.

Lemma Distributed_onDoorsClosed_table c b d b' d' :
  DistributedController.onDoorsClosed c (b, d) = Some (b', d') -> d' = d.
Proof.
  unfold DistributedController.onDoorsClosed.
  destruct (DistributedController.decideNextAction _ _ _); cbn [mbind option_bind]; [|done].
  by intros [= _ <-].
Qed.

(** *** The engine *)

Lemma virtualCall_inv (I : Building.t -> Scheduler -> Prop) viaMaster viaDistributed
    b sched b' sched' :
  (forall m bm m', sched = MasterSched m -> viaMaster (b, m) = Some (bm, m') ->
     I bm (MasterSched m')) ->
  (forall d bd d', sched = DistributedSched d -> viaDistributed (b, d) = Some (bd, d') ->
     I bd (DistributedSched d')) ->
  virtualCall viaMaster viaDistributed (b, sched) = Some (b', sched') -> I b' sched'.
Proof.
  intros HM HD. unfold virtualCall. cbn [fst snd]. destruct sched as [m|d].
  - destruct (viaMaster (b, m)) as [[bm m']|] eqn:Hcall; [|done].
    cbn. intros [= <- <-]. by eapply HM.
  - destruct (viaDistributed (b, d)) as [[bd d']|] eqn:Hcall; [|done].
    cbn. intros [= <- <-]. by eapply HD.
Qed.

Lemma processEvent_buttons cfg event s s' :
  runInv cfg s -> eventInv cfg event ->
  buttonsMatch (SimulationEngine.building_ s) (SimulationEngine.scheduler_ s) ->
  SimulationEngine.processEvent event s = Some s' ->
  buttonsMatch (SimulationEngine.building_ s') (SimulationEngine.scheduler_ s').
Proof.
  intros (_ & (Hcfg & Hwf & _) & Hsched & _) Hev Hmatch.
  unfold SimulationEngine.processEvent, eventInv in *.
  cbn [SimulationEngine.building_ SimulationEngine.log SimulationEngine.scheduler_].
  destruct (ev_type event).
  - destruct (handleHallCall _ _ _) as [[b1 sched1]|] eqn:Hcall;
      cbn [mbind option_bind]; [|done].
    intros [= <-]. cbn. destruct Hev as [Hfloor Hdir].
    assert (Building.isValidFloor (SimulationEngine.building_ s) (ev_floor event) = true)
      as Hvalid by (apply isValidFloor_iff; by rewrite Hcfg).
    eapply (virtualCall_inv buttonsMatch
              (MasterController.handleHallCall (ev_floor event) (ev_direction event))
              (DistributedController.handleHallCall (ev_floor event) (ev_direction event)));
      [| |exact Hcall].
    + intros m bm m' Hm Hm'. rewrite Hm in Hmatch.
      by eapply Master_handleHallCall_buttons.
    + intros d bd d' Hd Hd'. rewrite Hd in Hmatch.
      by eapply Distributed_handleHallCall_buttons.
  - destruct (handleCarCall _ _ _) as [[b1 sched1]|] eqn:Hcall;
      cbn [mbind option_bind]; [|done].
    intros [= <-]. cbn.
    pose proof (Scheduler_handleCarCall_changes _ _ _ _ _ _ Hcall) as Hstep.
    eapply (virtualCall_inv buttonsMatch
              (MasterController.handleCarCall (ev_elevatorId event) (ev_floor event))
              (DistributedController.handleCarCall (ev_elevatorId event) (ev_floor event)));
      [| |exact Hcall].
    + intros m bm m' Hm Hm'. rewrite (Master_handleCarCall_table _ _ _ _ _ _ Hm'), <- Hm.
      apply (buttonsMatch_carsStep (SimulationEngine.building_ s)); [|done].
      by eapply Master_handleCarCall_changes.
    + intros d bd d' Hd Hd'. rewrite (Distributed_handleCarCall_table _ _ _ _ _ _ Hd'), <- Hd.
      apply (buttonsMatch_carsStep (SimulationEngine.building_ s)); [|done].
      by eapply Distributed_handleCarCall_changes.
  - destruct (onElevatorArrived _ _ _) as [[b1 sched1]|] eqn:Hcall;
      cbn [mbind option_bind]; [|done].
    intros [= <-]. cbn.
    eapply (virtualCall_inv buttonsMatch
              (MasterController.onElevatorArrived (ev_elevatorId event) (ev_floor event))
              (DistributedController.onElevatorArrived (ev_elevatorId event)
                 (ev_floor event)));
      [| |exact Hcall].
    + intros m bm m' Hm Hm'. rewrite Hm in Hmatch, Hsched.
      eapply Master_onElevatorArrived_buttons; [apply Hsched | done | done].
    + intros d bd d' Hd Hd'. rewrite Hd in Hmatch, Hsched.
      eapply Distributed_onElevatorArrived_buttons; [apply Hsched | done | done].
  - destruct (onDoorsOpened _ _ _) as [[b1 sched1]|] eqn:Hcall;
      cbn [mbind option_bind]; [|done].
    intros [= <-]. cbn.
    eapply (virtualCall_inv buttonsMatch
              (MasterController.onDoorsOpened (ev_elevatorId event) (ev_floor event))
              (DistributedController.onDoorsOpened (ev_elevatorId event) (ev_floor event)));
      [| |exact Hcall].
    + intros m bm m' Hm [= <- <-]. by rewrite <- Hm.
    + intros d bd d' Hd [= <- <-]. by rewrite <- Hd.
  - destruct (onDoorsClosed _ _) as [[b1 sched1]|] eqn:Hcall;
      cbn [mbind option_bind]; [|done].
    intros [= <-]. cbn.
    eapply (virtualCall_inv buttonsMatch
              (MasterController.onDoorsClosed (ev_elevatorId event))
              (DistributedController.onDoorsClosed (ev_elevatorId event)));
      [| |exact Hcall].
    + intros m bm m' Hm Hm'. rewrite (Master_onDoorsClosed_table _ _ _ _ _ Hm'), <- Hm.
      apply (buttonsMatch_carsStep (SimulationEngine.building_ s)); [|done].
      by eapply Master_onDoorsClosed_changes.
    + intros d bd d' Hd Hd'. rewrite (Distributed_onDoorsClosed_table _ _ _ _ _ Hd'), <- Hd.
      apply (buttonsMatch_carsStep (SimulationEngine.building_ s)); [|done].
      by eapply Distributed_onDoorsClosed_changes.
  - by intros [= <-].
  - by intros [= <-].
Qed.

Lemma processTick_buttons s s' :
  buttonsMatch (SimulationEngine.building_ s) (SimulationEngine.scheduler_ s) ->
  SimulationEngine.processTick s = Some s' ->
  buttonsMatch (SimulationEngine.building_ s') (SimulationEngine.scheduler_ s').
Proof.
  intros Hmatch. unfold SimulationEngine.processTick, SimulationEngine.updateElevators.
  destruct (SimulationEngine.updateElevators_loop _ _ _) as [s1|] eqn:Hu;
    cbn [mbind option_bind]; [|done].
  destruct (updateElevators_loop_step _ _ _ _ Hu) as (Hstep & Hsame & _).
  apply (buttonsMatch_carsStep _ _ _ Hstep) in Hmatch. rewrite <- Hsame in Hmatch.
  destruct (tick _) as [[b2 sched2]|] eqn:Htick; cbn [mbind option_bind]; [|done].
  intros [= <-]. cbn.
  eapply (virtualCall_inv buttonsMatch MasterController.tick DistributedController.tick);
    [| |exact Htick].
  - intros m bm m' Hm Hm'. rewrite (Master_tick_table _ _ _ _ Hm'), <- Hm.
    apply (buttonsMatch_carsStep (SimulationEngine.building_ s1)); [|done].
    by eapply Master_tick_changes.
  - intros d bd d' Hd Hd'. rewrite Hd in Hmatch.
    apply (buttonsMatch_carsStep (SimulationEngine.building_ s1));
      [by eapply Distributed_tick_changes|].
    eapply buttonsMatch_sameKeys; [|exact Hmatch].
    by eapply Distributed_tick_loop_sameKeys.
Qed.

Lemma step_buttons cfg st s s' :
  runInv cfg s ->
  buttonsMatch (SimulationEngine.building_ s) (SimulationEngine.scheduler_ s) ->
  step st s = Some s' ->
  buttonsMatch (SimulationEngine.building_ s') (SimulationEngine.scheduler_ s').
Proof.
  intros Hs Hmatch. destruct st as [floor dir|elevatorId floor| |]; cbn [step].
  - intros [= <-]. unfold SimulationEngine.requestHallCall.
    destruct (negb _); [done|]. by repeat case_decide.
  - intros [= <-]. unfold SimulationEngine.requestCarCall.
    by repeat (destruct (negb _)).
  - destruct (SimulationEngine.processTick s) as [s1|] eqn:Htick;
      cbn [mbind option_bind]; [|done].
    intros [= <-]. cbn [SimulationEngine.withTick SimulationEngine.building_
                       SimulationEngine.scheduler_].
    by eapply processTick_buttons.
  - pose proof Hs as (Hc & Hb & Hsched & Hq). unfold EventQueue.tryPop.
    destruct (EventQueue.queue_ (SimulationEngine.eventQueue_ s)) as [|event r] eqn:Hqueue;
      [by intros [= <-]|].
    apply (processEvent_buttons cfg); [|by eapply Forall_inv|done].
    split; [done|]. split; [done|]. split; [done|]. by eapply Forall_inv_tail.
Qed.

Lemma run_buttons cfg steps : forall s s',
  runInv cfg s ->
  buttonsMatch (SimulationEngine.building_ s) (SimulationEngine.scheduler_ s) ->
  run steps s = Some s' ->
  buttonsMatch (SimulationEngine.building_ s') (SimulationEngine.scheduler_ s').
Proof.
  induction steps as [|st steps IH]; intros s s' Hs Hmatch; cbn [run]; [by intros [= <-]|].
  destruct (step st s) as [s1|] eqn:Hstep; cbn [mbind option_bind]; [|done].
  apply IH; [by eapply step_runInv|].
  exact (step_buttons cfg st s s1 Hs Hmatch Hstep).
Qed.

(** In every state of a run the landing buttons and the scheduler's table
    agree: under the master controller every hall call that is assigned to
    a car has its landing button lit, and under the distributed controller
    the claim board holds exactly the hall calls whose landing button is
    lit. *)
Theorem landing_buttons_match_scheduler_table (config : Config)
    (s0 s : SimulationEngine.t) (steps : list Step) :
  SimulationEngine.new config = Some s0 ->
  run steps s0 = Some s ->
  match SimulationEngine.scheduler_ s with
  | MasterSched m =>
      forall floor dir id,
        MasterController.getAssignment m floor dir = Some id ->
        Building.hasHallCall floor dir (SimulationEngine.building_ s) = true
  | DistributedSched d =>
      forall floor dir,
        (exists id, HallMap.find (floor, dir) (DistributedController.claimBoard_ d) = Some id)
        <-> Building.hasHallCall floor dir (SimulationEngine.building_ s) = true
  end.
Proof.
  intros Hnew Hrun.
  assert (buttonsMatch (SimulationEngine.building_ s) (SimulationEngine.scheduler_ s))
    as [Hlit Hlisted].
  { apply (run_buttons config steps s0); [by apply new_runInv| |done].
    pose proof (Building_new_no_calls config) as Hnone.
    unfold SimulationEngine.new in Hnew.
    destruct (Building.new config) as [b|] eqn:Hb; [|done]. injection Hnew as <-. cbn.
    specialize (Hnone b eq_refl).
    unfold createScheduler. destruct (controllerType config); (split; [by intros f d|]);
      [done|]. intros f d Hcall. by rewrite Hnone in Hcall. }
  destruct (SimulationEngine.scheduler_ s) as [m|d].
  - intros floor dir id Hfind. apply Hlit. cbn.
    unfold MasterController.getAssignment in Hfind. by rewrite Hfind.
  - intros floor dir. split.
    + intros [id Hfind]. apply Hlit. cbn. by rewrite Hfind.
    + intros Hcall. specialize (Hlisted floor dir Hcall).
      destruct (HallMap.find _ _) as [id|]; [by exists id | done].
Qed.

Lemma landing_buttons_match_scheduler_table_witness :
  exists s, sampleRun = Some s
    /\ match SimulationEngine.scheduler_ s with
       | MasterSched m =>
           forall floor dir id,
             MasterController.getAssignment m floor dir = Some id ->
             Building.hasHallCall floor dir (SimulationEngine.building_ s) = true
       | DistributedSched d =>
           forall floor dir,
             (exists id,
                HallMap.find (floor, dir) (DistributedController.claimBoard_ d) = Some id)
             <-> Building.hasHallCall floor dir (SimulationEngine.building_ s) = true
       end.
Proof.
  eexists. split; [vm_compute; reflexivity|].
  eapply (landing_buttons_match_scheduler_table scenarioAConfig _ _ sampleSteps);
    [vm_compute; reflexivity|]. vm_compute. reflexivity.
Defined.
